(** * video_transcription_go: a shallow embedding of [main.go]

    The program cuts every input video into fixed-length chunks with
    ffmpeg, transcribes the audio of each chunk with whisper-cli and the
    picture with a cloud model (falling back to tesseract on sampled
    frames), appends one record per chunk to an audio and a video
    transcript file and finally asks the cloud model for a summary.

    Everything the program does to the outside (sub-processes, the cloud
    client, the file system, the clock, the log) is modelled by explicit
    state passing over a [World]; the answers of the outside come from an
    [Env] of oracle functions that may depend on the whole history of
    calls.  Goroutines are modelled by their atomic steps and a scheduler. *)

From Stdlib Require Import ZArith Floats DecimalString Ascii String.
From stdpp Require Import base option list relations gmap strings.

Open Scope Z_scope.

(* ================================================================== *)
(** ** Go primitives used by the program *)
(* ================================================================== *)

(** Go's [int] on the 64-bit targets: arithmetic wraps around. *)
Definition min_int64 : Z := - 2 ^ 63.
Definition max_int64 : Z := 2 ^ 63 - 1.
Definition wrap64 (z : Z) : Z := (z + 2 ^ 63) mod 2 ^ 64 - 2 ^ 63.

(** [fmt.Sprintf("%d", z)]. *)
Definition itoa (z : Z) : string := NilZero.string_of_int (Z.to_int z).

(** [float64(n)] for an [int] [n]: round to nearest, ties to even. *)
Definition float_of_int (n : Z) : float :=
  if n =? min_int64 then PrimFloat.opp (PrimFloat.mul (PrimFloat.of_uint63 (Uint63.of_Z (2 ^ 62))) 2)
  else if n <? 0 then PrimFloat.opp (PrimFloat.of_uint63 (Uint63.of_Z (- n)))
  else PrimFloat.of_uint63 (Uint63.of_Z n).

(** The integer part of a finite float (truncation toward zero). *)
Definition trunc_float (f : float) : option Z :=
  match Prim2SF f with
  | S754_zero _ => Some 0
  | S754_finite s m e =>
      let a := if 0 <=? e then Z.pos m * 2 ^ e else Z.pos m / 2 ^ (- e) in
      Some (if s then - a else a)
  | S754_infinity _ | S754_nan => None
  end.

(** [int(f)] for a [float64] [f].  The language leaves the result open when
    the value does not fit; the amd64 conversion instruction then yields the
    smallest [int64], which is what is modelled here. *)
Definition int_of_float (f : float) : Z :=
  match trunc_float f with
  | Some z => if (min_int64 <=? z) && (z <=? max_int64) then z else min_int64
  | None => min_int64
  end.

(** The exact value of a finite float as a fraction [num / den] in lowest
    terms. *)
Definition float_fraction (f : float) : option (Z * Z) :=
  match Prim2SF f with
  | S754_zero _ => Some (0, 1)
  | S754_finite s m e =>
      let n := if s then Z.neg m else Z.pos m in
      if 0 <=? e then Some (n * 2 ^ e, 1)
      else let g := Z.gcd n (2 ^ (- e)) in Some (n / g, 2 ^ (- e) / g)
  | S754_infinity _ | S754_nan => None
  end.

(** *** Strings: [strings] and [path/filepath] (Unix separators) *)

(** The line feed. *)
Definition nl : string := String (ascii_of_nat 10) EmptyString.

Definition is_sep (c : ascii) : bool := Ascii.eqb c "/"%char.
Definition is_dot (c : ascii) : bool := Ascii.eqb c "."%char.

Definition bytes (s : string) : list ascii := list_ascii_of_string s.
Definition of_bytes (l : list ascii) : string := string_of_list_ascii l.

(** [filepath.Ext]: scan from the last byte toward the front until a
    separator; return the suffix starting at the first dot met. *)
Fixpoint ext_scan (r : list ascii) (acc : list ascii) : list ascii :=
  match r with
  | [] => []
  | c :: r' =>
      if is_sep c then []
      else if is_dot c then c :: acc
      else ext_scan r' (c :: acc)
  end.

Definition filepath_Ext (path : string) : string :=
  of_bytes (ext_scan (rev (bytes path)) []).

(** [strings.HasSuffix] and [strings.TrimSuffix]. *)
Definition HasSuffix (s suffix : string) : bool :=
  String.prefix (of_bytes (rev (bytes suffix))) (of_bytes (rev (bytes s))).

Definition TrimSuffix (s suffix : string) : string :=
  if HasSuffix s suffix
  then of_bytes (take (length (bytes s) - length (bytes suffix))%nat (bytes s))
  else s.

(** [filepath.Base]. *)
Fixpoint drop_seps (r : list ascii) : list ascii :=
  match r with
  | c :: r' => if is_sep c then drop_seps r' else r
  | [] => []
  end.

Fixpoint take_elem (r : list ascii) : list ascii :=
  match r with
  | c :: r' => if is_sep c then [] else c :: take_elem r'
  | [] => []
  end.

Definition filepath_Base (path : string) : string :=
  match path with
  | EmptyString => "."
  | _ =>
      match rev (take_elem (drop_seps (rev (bytes path)))) with
      | [] => "/"
      | l => of_bytes l
      end
  end.

(** [filepath.Dir]: everything up to and including the last separator,
    then [filepath.Clean] (a library function taken as a parameter). *)
Fixpoint drop_elem (r : list ascii) : list ascii :=
  match r with
  | c :: r' => if is_sep c then r else drop_elem r'
  | [] => []
  end.

Definition filepath_Dir (Clean : string -> string) (path : string) : string :=
  Clean (of_bytes (rev (drop_elem (rev (bytes path))))).

(** [strings.ToLower].  ASCII-only strings are lowered byte by byte; any
    other string goes through [strings.Map(unicode.ToLower, s)], which
    needs the Unicode tables and is taken as a parameter. *)
Definition is_ascii_byte (c : ascii) : bool := (nat_of_ascii c <? 128)%nat.
Definition is_upper_byte (c : ascii) : bool :=
  (65 <=? nat_of_ascii c)%nat && (nat_of_ascii c <=? 90)%nat.
Definition lower_byte (c : ascii) : ascii :=
  if is_upper_byte c then ascii_of_nat (nat_of_ascii c + 32) else c.

Definition ToLower (mapLower : string -> string) (s : string) : string :=
  if forallb is_ascii_byte (bytes s) then
    if existsb is_upper_byte (bytes s) then of_bytes (map lower_byte (bytes s))
    else s
  else mapLower s.

(** *** isVideoFile *)

Definition videoExtensions : list string :=
  [".mp4"; ".mov"; ".avi"; ".wmv"; ".mkv"; ".flv"; ".webm"; ".mpeg"; ".mpg"].

Fixpoint ext_in (ext : string) (exts : list string) : bool :=
  match exts with
  | [] => false
  | vext :: rest => if String.eqb ext vext then true else ext_in ext rest
  end.

Definition isVideoFile (mapLower : string -> string) (path : string) : bool :=
  let ext := ToLower mapLower (filepath_Ext path) in
  ext_in ext videoExtensions.

(** Input discovery in [main]: a directory is walked and every regular
    file is kept when [isVideoFile] says so; a single file is kept under
    the same test. *)
Inductive input_kind :=
  | InputDir (regular_files : list string)
  | InputFile.

Definition discover (mapLower : string -> string) (inputPath : string)
    (k : input_kind) : list string :=
  match k with
  | InputDir files => filter (fun p => isVideoFile mapLower p = true) files
  | InputFile => if isVideoFile mapLower inputPath then [inputPath] else []
  end.

(* ================================================================== *)
(** ** The outside world *)
(* ================================================================== *)

(** Go [error] values: one made by a library or a tool, or one wrapped by
    [fmt.Errorf("ctx: %w", err)]. *)
Inductive error :=
  | ErrExt (msg : string)
  | ErrWrap (ctx : string) (cause : error).

Fixpoint error_string (e : error) : string :=
  match e with
  | ErrExt msg => msg
  | ErrWrap ctx cause => ctx ++ ": " ++ error_string cause
  end.

(** [genai.Part], [genai.Candidate] (only its content) and [genai.File]. *)
Inductive part :=
  | Text (s : string)
  | FileData (uri : string)
  | Blob (mime : string).

Record Candidate := { Content : option (list part) }.
Record File := { Name : string; URI : string }.

(** [ChunkData]. *)
Record ChunkData := {
  VideoPath : string;
  AudioPath : string;
  ChunkNum : Z;
  Err : option error;
  VideoIndex : Z;
  BaseName : string
}.

(** The two goroutines [processChunk] starts for a chunk. *)
Inductive task := AudioTask | VideoTask.

#[global] Instance task_eq_dec : EqDecision task.
Proof. solve_decision. Defined.

(** What the program does to the outside, one event per call.  Console
    progress messages ([fmt.Printf], [fmt.Println]) are left out; calls
    of the [log] package are [EvLog]. *)
Inductive event :=
  | EvLookPath (file : string)
  | EvMkdirTemp (pattern : string) (ok : bool)
  | EvRemoveAll (path : string)
  | EvRemove (name : string)
  | EvFfprobe (video : string)
  | EvFfmpegChunk (video : string) (start duration : Z) (ok : bool)
  | EvFfmpegFrames (video dir : string) (ok : bool)
  | EvWhisper (audio : string) (ok : bool)
  | EvOpen (image : string) (ok : bool)
  | EvDecode (image : string) (ok : bool)
  | EvEncode (image : string) (ok : bool)
  | EvCreateTemp (pattern : string) (ok : bool)
  | EvTempWrite (name : string) (ok : bool)
  | EvTempClose (name : string) (ok : bool)
  | EvTesseract (image : string) (ok : bool)
  | EvUploadFile (path : string) (ok : bool)
  | EvDeleteFile (name : string) (ok : bool)
  | EvGenerateContent (prompt : list part) (ok : bool)
  | EvSleep (nanoseconds : Z)
  | EvLog (msg : string)
  | EvCreate (name : string) (ok : bool)
  | EvFprint (file : string) (text : string) (ok : bool)
  | EvReadFile (name : string) (ok : bool)
  | EvSend (e : error).

(** The answers of the outside.  Every oracle sees the history of events
    so far (most recent first), so that a call may fail once and succeed
    later.
    - [mapLower], [Clean], [ParseFloat] are pure library functions:
      [strings.Map(unicode.ToLower, s)], [filepath.Clean], and
      [strconv.ParseFloat(strings.TrimSpace(s), 64)].
    - [MkdirTemp] and [CreateTemp] answer with the name of what they made;
      [ffmpeg_frames] with the names of the files written; [whisper] and
      [tesseract] with their standard output.
    - [next_result] and [goroutine_schedule] are the Go scheduler: which
      pending OCR worker reports next, and in which order the two
      goroutines of a chunk take their steps. *)
Record Env := {
  mapLower : string -> string;
  Clean : string -> string;
  ParseFloat : string -> float + error;
  LookPath : list event -> string -> option error;
  MkdirTemp : list event -> string -> string + error;
  ffprobe : list event -> string -> string + error;
  ffmpeg_chunk : list event -> string -> Z -> Z -> string -> string -> option error;
  ffmpeg_frames : list event -> string -> string -> list string + error;
  whisper : list event -> list string -> string + error;
  os_Open : list event -> string -> option error;
  image_Decode : list event -> string -> option error;
  jpeg_Encode : list event -> string -> option error;
  CreateTemp : list event -> string -> string + error;
  temp_Write : list event -> string -> option error;
  temp_Close : list event -> string -> option error;
  tesseract : list event -> string -> string + error;
  UploadFileFromPath : list event -> string -> File + error;
  GenerateContent : list event -> list part -> list Candidate + error;
  DeleteFile : list event -> string -> option error;
  os_Create : list event -> string -> option error;
  Fprint : list event -> string -> string -> option error;
  os_ReadFile : list event -> string -> option error;
  next_result : list event -> nat -> nat;
  goroutine_schedule : list event -> list task
}.

(** The state of the outside that the program changes:
    - [fs]: the temporary files and directories now on disk;
    - [outputs]: the output files, each as the list of writes it received;
    - [errorChannel]: the contents of [main]'s buffered channel;
    - [trace]: the history of events, most recent first. *)
Record World := {
  fs : gset string;
  outputs : gmap string (list string);
  errorChannel : list error;
  trace : list event
}.

Definition emit (e : event) (w : World) : World :=
  {| fs := fs w; outputs := outputs w; errorChannel := errorChannel w;
     trace := e :: trace w |}.

Definition set_fs (f : gset string) (w : World) : World :=
  {| fs := f; outputs := outputs w; errorChannel := errorChannel w;
     trace := trace w |}.

Definition set_outputs (o : gmap string (list string)) (w : World) : World :=
  {| fs := fs w; outputs := o; errorChannel := errorChannel w;
     trace := trace w |}.

Definition set_errorChannel (c : list error) (w : World) : World :=
  {| fs := fs w; outputs := outputs w; errorChannel := c; trace := trace w |}.

Definition empty_world : World :=
  {| fs := ∅; outputs := ∅; errorChannel := []; trace := [] |}.

(** [p] lies below directory [dir]. *)
Definition under (dir p : string) : bool := String.prefix (dir ++ "/") p.

(** [os.RemoveAll(path)]: the path and everything below it goes. *)
Definition os_RemoveAll (path : string) (w : World) : World :=
  emit (EvRemoveAll path)
    (set_fs (filter (fun p => p <> path /\ under path p = false) (fs w)) w).

(** [os.Remove(name)] of a file. *)
Definition os_Remove (name : string) (w : World) : World :=
  emit (EvRemove name) (set_fs (fs w ∖ {[ name ]}) w).

(** [log.Println], [log.Printf]. *)
Definition log_Print (msg : string) (w : World) : World := emit (EvLog msg) w.

(** [time.Sleep]. *)
Definition second : Z := 1000000000.
Definition time_Sleep (d : Z) (w : World) : World := emit (EvSleep d) w.

(** A write of [text] to the open output file [file]. *)
Definition fprint (env : Env) (file text : string) (w : World)
    : option error * World :=
  match Fprint env (trace w) file text with
  | None =>
      (None,
       emit (EvFprint file text true)
         (set_outputs
            (<[ file := default [] (outputs w !! file) ++ [text] ]> (outputs w)) w))
  | Some err => (Some err, emit (EvFprint file text false) w)
  end.

(** The capacity of [errorChannel]: [make(chan error, 10)]. *)
Definition errorChannel_cap : nat := 10.

(** [errorChannel <- e].  Nothing receives from the channel before the
    end of [main], so a send on a full channel blocks for good: [None]. *)
Definition send_error (e : error) (w : World) : option World :=
  if decide (length (errorChannel w) < errorChannel_cap)%nat
  then Some (emit (EvSend e) (set_errorChannel (errorChannel w ++ [e]) w))
  else None.
(* ================================================================== *)
(** ** Reading a trace *)
(* ================================================================== *)

(** The outcomes of the [GenerateContent] calls, the lengths of the sleeps
    and the messages logged in a list of events. *)
Definition generate_outcome (e : event) : option bool :=
  match e with EvGenerateContent _ ok => Some ok | _ => None end.
Definition sleep_length (e : event) : option Z :=
  match e with EvSleep d => Some d | _ => None end.
Definition log_message (e : event) : option string :=
  match e with EvLog msg => Some msg | _ => None end.

(** In the order of time (a trace has the most recent event first). *)
Definition generate_outcomes (t : list event) : list bool :=
  omap generate_outcome (rev t).
Definition sleeps (t : list event) : list Z := omap sleep_length (rev t).
Definition logged (t : list event) : list string := omap log_message (rev t).

(** The text of a response: all its [genai.Text] parts, joined. *)
Definition part_text (p : part) : option string :=
  match p with Text s => Some s | _ => None end.
Definition candidate_texts (c : Candidate) : list string :=
  match Content c with Some parts => omap part_text parts | None => [] end.
Definition response_text (resp : list Candidate) : string :=
  String.concat "" (flat_map candidate_texts resp).

(** How often [path] was handed to [os.Remove] or [os.RemoveAll]. *)
Definition is_removal (path : string) (e : event) : bool :=
  match e with
  | EvRemove p | EvRemoveAll p => String.eqb p path
  | _ => false
  end.
Definition removals (path : string) (t : list event) : nat :=
  length (filter (fun e => is_removal path e = true) t).

(** An event that is neither a call of the model nor a sleep. *)
Definition quiet (e : event) : Prop :=
  generate_outcome e = None /\ sleep_length e = None.

(** The events of [w'] that came after [w]. *)
Definition since (w w' : World) : list event :=
  take (length (trace w') - length (trace w)) (trace w').

(** The number of segments the specification asks for, the ceiling of
    [D / C], on the exact value of the probed duration. *)
Definition ceil_div (n d : Z) : Z := - ((- n) / d).
Definition spec_segment_count (duration : float) (chunkDuration : Z) : option Z :=
  match float_fraction duration with
  | Some (n, d) => Some (ceil_div n (d * chunkDuration))
  | None => None
  end.

(* ================================================================== *)
(** ** sentLlmPrompt *)
(* ================================================================== *)

Definition maxRetries : Z := 3.
Definition retryDelay : Z := 15 * second.

Section Program.
Variable env : Env.

(** The loop over the parts of one candidate: every [genai.Text] part is
    appended to the response and, when a file is given, written to it on
    a line of its own (a failed write is logged). *)
Fixpoint collect_parts (file : option string) (parts : list part)
    (llmResponse : string) (w : World) : string * World :=
  match parts with
  | [] => (llmResponse, w)
  | Text text :: rest =>
      let w1 :=
        match file with
        | Some f =>
            match fprint env f (text ++ nl) w with
            | (Some err, w') =>
                log_Print ("Error writing to file: " ++ error_string err) w'
            | (None, w') => w'
            end
        | None => w
        end in
      collect_parts file rest (llmResponse ++ text) w1
  | _ :: rest => collect_parts file rest llmResponse w
  end.

(** The loop over [resp.Candidates]. *)
Fixpoint collect_candidates (file : option string) (cands : list Candidate)
    (llmResponse : string) (w : World) : string * World :=
  match cands with
  | [] => (llmResponse, w)
  | c :: rest =>
      match Content c with
      | Some parts =>
          let '(r, w1) := collect_parts file parts llmResponse w in
          collect_candidates file rest r w1
      | None => collect_candidates file rest llmResponse w
      end
  end.

(** The retry loop, [left] iterations before [attempt] passes
    [maxRetries]. *)
Fixpoint sentLlmPrompt_loop (left : nat) (attempt : Z) (prompt : list part)
    (file : option string) (videoIndex : Z) (w : World) : string * World :=
  match left with
  | O => ("", w)
  | S left' =>
      match GenerateContent env (trace w) prompt with
      | inl resp =>
          collect_candidates file resp "" (emit (EvGenerateContent prompt true) w)
      | inr err =>
          let w1 := emit (EvGenerateContent prompt false) w in
          let w2 :=
            log_Print ("Error generating content for video " ++ itoa videoIndex
                       ++ " (attempt " ++ itoa (attempt + 1) ++ "): "
                       ++ error_string err) w1 in
          if attempt <? maxRetries then
            sentLlmPrompt_loop left' (attempt + 1) prompt file videoIndex
              (time_Sleep retryDelay w2)
          else ("", w2)
      end
  end.

Definition sentLlmPrompt (prompt : list part) (file : option string)
    (videoIndex : Z) (w : World) : string * World :=
  sentLlmPrompt_loop (Z.to_nat (maxRetries + 1)) 0 prompt file videoIndex w.

(* ================================================================== *)
(** ** chunkVideo *)
(* ================================================================== *)

(** The number of chunks computed from the probed duration; [None] is
    the run-time panic of [%] by zero. *)
Definition numChunks (duration : float) (chunkDuration : Z) : option Z :=
  let n := int_of_float (PrimFloat.div duration (float_of_int chunkDuration)) in
  if chunkDuration =? 0 then None
  else if negb (Z.rem (int_of_float duration) chunkDuration =? 0)
       then Some (wrap64 (n + 1))
       else Some n.

Definition chunkVideoPath (tempDir : string) (i videoIndex : Z) : string :=
  tempDir ++ "/chunk_" ++ itoa i ++ "_video_" ++ itoa videoIndex ++ ".mp4".
Definition chunkAudioPath (tempDir : string) (i videoIndex : Z) : string :=
  tempDir ++ "/chunk_" ++ itoa i ++ "_video_" ++ itoa videoIndex ++ ".wav".

Inductive chunk_result :=
  | Chunks (chunks : list ChunkData)
  | ChunkErr (e : error)
  | ChunkPanic.

(** The extraction loop, [left] iterations before [i] reaches the number
    of chunks.  A successful ffmpeg run leaves both chunk files on disk. *)
Fixpoint chunk_loop (left : nat) (i : Z) (tempDir videoPath : string)
    (chunkDuration videoIndex : Z) (baseName : string)
    (chunks : list ChunkData) (w : World) : chunk_result * World :=
  match left with
  | O => (Chunks chunks, w)
  | S left' =>
      let startTime := wrap64 (i * chunkDuration) in
      let vp := chunkVideoPath tempDir i videoIndex in
      let ap := chunkAudioPath tempDir i videoIndex in
      match ffmpeg_chunk env (trace w) videoPath startTime chunkDuration vp ap with
      | Some err =>
          (ChunkErr
             (ErrWrap ("error creating video chunk " ++ itoa i ++ " for video "
                       ++ itoa videoIndex) err),
           emit (EvFfmpegChunk videoPath startTime chunkDuration false) w)
      | None =>
          chunk_loop left' (i + 1) tempDir videoPath chunkDuration videoIndex
            baseName
            (chunks ++ [ {| VideoPath := vp; AudioPath := ap; ChunkNum := i;
                            Err := None; VideoIndex := videoIndex;
                            BaseName := baseName |} ])
            (emit (EvFfmpegChunk videoPath startTime chunkDuration true)
               (set_fs ({[ vp ]} ∪ {[ ap ]} ∪ fs w) w))
      end
  end.

Definition chunkVideo (videoPath : string) (chunkDuration videoIndex : Z)
    (baseName : string) (w : World) : chunk_result * World :=
  match LookPath env (trace w) "ffmpeg" with
  | Some err =>
      (ChunkErr (ErrWrap "ffmpeg not found in PATH" err),
       emit (EvLookPath "ffmpeg") w)
  | None =>
      let w := emit (EvLookPath "ffmpeg") w in
      match MkdirTemp env (trace w) "video_chunks" with
      | inr err =>
          (ChunkErr (ErrWrap "error creating temporary directory" err),
           emit (EvMkdirTemp "video_chunks" false) w)
      | inl tempDir =>
          let w := emit (EvMkdirTemp "video_chunks" true)
                     (set_fs ({[ tempDir ]} ∪ fs w) w) in
          let w1 := emit (EvFfprobe videoPath) w in
          match ffprobe env (trace w) videoPath with
          | inr err =>
              (ChunkErr (ErrWrap "error getting video duration" err),
               os_RemoveAll tempDir w1)
          | inl output =>
              match ParseFloat env output with
              | inr err =>
                  (ChunkErr (ErrWrap "error parsing video duration" err),
                   os_RemoveAll tempDir w1)
              | inl duration =>
                  match numChunks duration chunkDuration with
                  | None => (ChunkPanic, w1)
                  | Some n =>
                      chunk_loop (Z.to_nat n) 0 tempDir videoPath chunkDuration
                        videoIndex baseName [] w1
                  end
              end
          end
      end
  end.

(* ================================================================== *)
(** ** transcribeAudioWhisperCLI *)
(* ================================================================== *)

(** The command-line settings [main] passes down unchanged. *)
Record Config := {
  whisperCLIPath : string;
  whisperModelPath : string;
  whisperThreads : Z;
  whisperLanguage : string
}.

Definition transcribeAudioWhisperCLI (audioPath : string) (cfg : Config)
    (videoIndex chunkNum : Z) (w : World) : (string + error) * World :=
  let cmdArgs := ["--model"; whisperModelPath cfg;
                  "--threads"; itoa (whisperThreads cfg)] in
  let cmdArgs :=
    if String.eqb (whisperLanguage cfg) "" then cmdArgs
    else cmdArgs ++ ["--language"; whisperLanguage cfg] in
  let cmdArgs := cmdArgs ++ [audioPath] in
  match whisper env (trace w) (whisperCLIPath cfg :: cmdArgs) with
  | inr err =>
      (inr (ErrWrap ("error running whisper-cli for video " ++ itoa videoIndex
                     ++ " chunk " ++ itoa chunkNum) err),
       emit (EvWhisper audioPath false) w)
  | inl transcript => (inl transcript, emit (EvWhisper audioPath true) w)
  end.

(* ================================================================== *)
(** ** extractFrames *)
(* ================================================================== *)

Definition frames_pattern (videoIndex chunkNum : Z) : string :=
  "frames_video" +:+ itoa videoIndex +:+ "_chunk" +:+ itoa chunkNum.

(** [ffmpeg_frames] answers with the names of the files ffmpeg wrote into
    the directory, in the order [filepath.WalkDir] reports them; the walk
    keeps the regular files whose name ends in [.jpg]. *)
Definition extractFrames (videoPath : string) (videoIndex chunkNum : Z)
    (w : World) : (list string + error) * World :=
  let pattern := frames_pattern videoIndex chunkNum in
  match MkdirTemp env (trace w) pattern with
  | inr err =>
      (inr (ErrWrap "error creating temporary directory for frames" err),
       emit (EvMkdirTemp pattern false) w)
  | inl tempDir =>
      let w := emit (EvMkdirTemp pattern true) (set_fs ({[ tempDir ]} ∪ fs w) w) in
      match ffmpeg_frames env (trace w) videoPath tempDir with
      | inr err =>
          (inr (ErrWrap "error extracting frames" err),
           os_RemoveAll tempDir (emit (EvFfmpegFrames videoPath tempDir false) w))
      | inl names =>
          let w := emit (EvFfmpegFrames videoPath tempDir true)
                     (set_fs (list_to_set (map (fun n => tempDir +:+ "/" +:+ n) names)
                                ∪ fs w) w) in
          (inl (map (fun n => tempDir +:+ "/" +:+ n)
                  (filter (fun n => HasSuffix n ".jpg" = true) names)), w)
      end
  end.

(* ================================================================== *)
(** ** transcribeFramesTesseractCLI *)
(* ================================================================== *)

(** What a worker sends on [frameResults]. *)
Record frameResult := { frText : string; frError : option error }.

Definition frame_failed (ctx : string) (err : error) : frameResult :=
  {| frText := ""; frError := Some (ErrWrap ctx err) |}.

(** After [os.CreateTemp] succeeded: write, close, run tesseract. *)
Definition ocr_with_temp (fp tempFilePath : string) (w : World)
    : frameResult * World :=
  match temp_Write env (trace w) tempFilePath with
  | Some err =>
      let w := emit (EvTempWrite tempFilePath false) w in
      (frame_failed "error writing to temp file" err,
       emit (EvTempClose tempFilePath
               (bool_decide (temp_Close env (trace w) tempFilePath = None))) w)
  | None =>
      let w := emit (EvTempWrite tempFilePath true) w in
      match temp_Close env (trace w) tempFilePath with
      | Some err =>
          (frame_failed "error closing temp file" err,
           emit (EvTempClose tempFilePath false) w)
      | None =>
          let w := emit (EvTempClose tempFilePath true) w in
          match tesseract env (trace w) tempFilePath with
          | inr err =>
              (frame_failed ("error running tesseract on " ++ fp) err,
               emit (EvTesseract tempFilePath false) w)
          | inl stdout =>
              ({| frText := stdout; frError := None |},
               emit (EvTesseract tempFilePath true) w)
          end
      end
  end.

(** The body of one worker goroutine.  Once the temp file exists its
    removal is deferred, so it runs on every way out. *)
Definition ocr_worker (fp : string) (w : World) : frameResult * World :=
  match os_Open env (trace w) fp with
  | Some err =>
      (frame_failed ("error opening image file " ++ fp) err,
       emit (EvOpen fp false) w)
  | None =>
      let w := emit (EvOpen fp true) w in
      match image_Decode env (trace w) fp with
      | Some err =>
          (frame_failed ("error decoding image file " ++ fp) err,
           emit (EvDecode fp false) w)
      | None =>
          let w := emit (EvDecode fp true) w in
          match jpeg_Encode env (trace w) fp with
          | Some err =>
              (frame_failed "error encoding image to JPEG" err,
               emit (EvEncode fp false) w)
          | None =>
              let w := emit (EvEncode fp true) w in
              match CreateTemp env (trace w) "ocr_*.jpg" with
              | inr err =>
                  (frame_failed "error creating temp file" err,
                   emit (EvCreateTemp "ocr_*.jpg" false) w)
              | inl tempFilePath =>
                  let w := emit (EvCreateTemp "ocr_*.jpg" true)
                             (set_fs ({[ tempFilePath ]} ∪ fs w) w) in
                  let '(r, w') := ocr_with_temp fp tempFilePath w in
                  (r, os_Remove tempFilePath w')
              end
          end
      end
  end.

(** The workers run concurrently, at most [min(NumCPU, 8)] at a time, and
    send to a channel with room for every result, so no send waits and the
    channel ends up holding one result per frame in the order the workers
    finish.  The scheduler oracle [next_result] picks which of the pending
    frames reports next (the semaphore only rules some of these orders
    out); the body of a worker is taken as one step. *)
Fixpoint run_workers (left : nat) (pending : list string) (w : World)
    : list frameResult * World :=
  match left, pending with
  | S left', fp0 :: _ =>
      let i := (next_result env (trace w) (length pending) `mod` length pending)%nat in
      let '(r, w1) := ocr_worker (nth i pending fp0) w in
      let '(rs, w2) := run_workers left' (delete i pending) w1 in
      (r :: rs, w2)
  | _, _ => ([], w)
  end.

(** The loop over the closed channel. *)
Fixpoint collect_results (results : list frameResult) (combined : string)
    (w : World) : string * World :=
  match results with
  | [] => (combined, w)
  | result :: rest =>
      match frError result with
      | Some e => collect_results rest combined (log_Print (error_string e) w)
      | None => collect_results rest (combined ++ frText result ++ nl) w
      end
  end.

Definition transcribeFramesTesseractCLI (framePaths : list string) (w : World)
    : (string * option error) * World :=
  let '(results, w1) := run_workers (length framePaths) framePaths w in
  let '(combinedTranscript, w2) := collect_results results "" w1 in
  ((combinedTranscript, None), w2).

(* ================================================================== *)
(** ** transcribeVideoLLM *)
(* ================================================================== *)

Definition transcribe_prompt (uri : string) : list part :=
  [ Text ("## Task Description" ++ nl ++
          "Analyze the video and provide a detailed raw transcription of text displayed in the video.");
    FileData uri ].

(** The deferred [client.DeleteFile]: its error is dropped. *)
Definition delete_uploaded (uploadedFile : File) (w : World) : World :=
  emit (EvDeleteFile (Name uploadedFile)
          (bool_decide (DeleteFile env (trace w) (Name uploadedFile) = None))) w.

(** [os.RemoveAll(filepath.Dir(framePaths[0]))] under [len(framePaths) > 0]. *)
Definition cleanup_frames (framePaths : list string) (w : World) : World :=
  match framePaths with
  | fp0 :: _ => os_RemoveAll (filepath_Dir (Clean env) fp0) w
  | [] => w
  end.

Definition frames_error (videoIndex chunkNum : Z) (err : error) : error :=
  ErrWrap ("error extracting frames for video " ++ itoa videoIndex ++ " chunk "
           ++ itoa chunkNum) err.
Definition tesseract_error (videoIndex chunkNum : Z) (err : error) : error :=
  ErrWrap ("error transcribing frames with Tesseract for video "
           ++ itoa videoIndex ++ " chunk " ++ itoa chunkNum) err.

(** The branch taken when the upload fails. *)
Definition fallback_after_upload_failure (videoPath : string)
    (videoIndex chunkNum : Z) (w : World) : (string + error) * World :=
  match extractFrames videoPath videoIndex chunkNum w with
  | (inr err, w1) => (inr (frames_error videoIndex chunkNum err), w1)
  | (inl framePaths, w1) =>
      match transcribeFramesTesseractCLI framePaths w1 with
      | ((_, Some err), w2) => (inr (tesseract_error videoIndex chunkNum err), w2)
      | ((transcript, None), w2) => (inl transcript, cleanup_frames framePaths w2)
      end
  end.

(** The branch taken when the prompt came back empty. *)
Definition fallback_after_empty_response (videoPath : string)
    (videoIndex chunkNum : Z) (w : World) : (string + error) * World :=
  match extractFrames videoPath videoIndex chunkNum w with
  | (inr err, w1) => (inr (frames_error videoIndex chunkNum err), w1)
  | (inl framePaths, w1) =>
      let '((transcript, err), w2) := transcribeFramesTesseractCLI framePaths w1 in
      let w3 := cleanup_frames framePaths w2 in
      match err with
      | Some err => (inr (tesseract_error videoIndex chunkNum err), w3)
      | None => (inl transcript, w3)
      end
  end.

Definition transcribeVideoLLM (videoPath : string) (videoIndex chunkNum : Z)
    (w : World) : (string + error) * World :=
  match UploadFileFromPath env (trace w) videoPath with
  | inr _ =>
      fallback_after_upload_failure videoPath videoIndex chunkNum
        (emit (EvUploadFile videoPath false) w)
  | inl uploadedFile =>
      let w := time_Sleep (30 * second) (emit (EvUploadFile videoPath true) w) in
      let '(videoTranscript, w1) :=
        sentLlmPrompt (transcribe_prompt (URI uploadedFile)) None videoIndex w in
      let '(r, w2) :=
        if String.eqb videoTranscript ""
        then fallback_after_empty_response videoPath videoIndex chunkNum w1
        else (inl videoTranscript, w1) in
      (r, delete_uploaded uploadedFile w2)
  end.

(* ================================================================== *)
(** ** processChunk *)
(* ================================================================== *)

(** Where a transcription goroutine stands:
    - [PcTranscribe]: before the call of the transcriber;
    - [PcReport e]: the transcriber failed, before [errorChannel <- e];
    - [PcWrite text]: before the [fmt.Fprintf] of the record;
    - [PcReportWrite e]: the write failed, before [errorChannel <- e];
    - [PcRemove]: before [os.Remove] of the chunk file;
    - [PcDone]: returned, [wg.Done()] has run. *)
Inductive pc :=
  | PcTranscribe
  | PcReport (e : error)
  | PcWrite (transcript : string)
  | PcReportWrite (e : error)
  | PcRemove
  | PcDone.

Section Chunk.
Variable cfg : Config.
Variable chunk : ChunkData.
Variables audioOutputFile videoOutputFile : string.

Definition task_path (t : task) : string :=
  match t with AudioTask => AudioPath chunk | VideoTask => VideoPath chunk end.

Definition task_file (t : task) : string :=
  match t with AudioTask => audioOutputFile | VideoTask => videoOutputFile end.

Definition task_transcribe (t : task) (w : World) : (string + error) * World :=
  match t with
  | AudioTask =>
      transcribeAudioWhisperCLI (AudioPath chunk) cfg (VideoIndex chunk)
        (ChunkNum chunk) w
  | VideoTask =>
      transcribeVideoLLM (VideoPath chunk) (VideoIndex chunk) (ChunkNum chunk) w
  end.

Definition for_chunk : string :=
  " for video " +:+ itoa (VideoIndex chunk) +:+ " chunk " +:+ itoa (ChunkNum chunk).

Definition transcribe_error (t : task) (err : error) : error :=
  ErrWrap (match t with
           | AudioTask => "error transcribing audio"
           | VideoTask => "error transcribing video"
           end +:+ for_chunk) err.

(** The text written in place of a transcript that could not be made. *)
Definition placeholder (t : task) : string :=
  match t with
  | AudioTask => "Audio transcription failed"
  | VideoTask => "Video transcription failed"
  end +:+ for_chunk +:+ ".".

Definition write_error (t : task) (err : error) : error :=
  ErrWrap (match t with
           | AudioTask => "error writing to audio file"
           | VideoTask => "error writing to video file"
           end +:+ for_chunk) err.

(** The record of a chunk in a transcript file. *)
Definition record (transcript : string) : string :=
  "Video Index: " +:+ itoa (VideoIndex chunk) +:+ ", Chunk: "
  +:+ itoa (ChunkNum chunk) +:+ nl +:+ transcript +:+ nl.

(** One step of a transcription goroutine; [None] when it cannot move
    (it has returned, or it waits on the full channel).  The call of the
    transcriber is one step: it touches neither the error channel nor the
    output files, which is all the two goroutines share. *)
Definition goroutine_step (t : task) (p : pc) (w : World) : option (pc * World) :=
  match p with
  | PcTranscribe =>
      match task_transcribe t w with
      | (inl transcript, w1) => Some (PcWrite transcript, w1)
      | (inr err, w1) => Some (PcReport (transcribe_error t err), w1)
      end
  | PcReport e =>
      match send_error e w with
      | Some w1 => Some (PcWrite (placeholder t), w1)
      | None => None
      end
  | PcWrite transcript =>
      match fprint env (task_file t) (record transcript) w with
      | (None, w1) => Some (PcRemove, w1)
      | (Some err, w1) => Some (PcReportWrite (write_error t err), w1)
      end
  | PcReportWrite e =>
      match send_error e w with
      | Some w1 => Some (PcRemove, w1)
      | None => None
      end
  | PcRemove => Some (PcDone, os_Remove (task_path t) w)
  | PcDone => None
  end.

(** The two goroutines and the world they share. *)
Record pstate := { audio_pc : pc; video_pc : pc; world : World }.

Definition task_pc (t : task) (s : pstate) : pc :=
  match t with AudioTask => audio_pc s | VideoTask => video_pc s end.

Definition step_task (t : task) (s : pstate) : option pstate :=
  match goroutine_step t (task_pc t s) (world s) with
  | Some (p, w) =>
      Some match t with
           | AudioTask => {| audio_pc := p; video_pc := video_pc s; world := w |}
           | VideoTask => {| audio_pc := audio_pc s; video_pc := p; world := w |}
           end
  | None => None
  end.

(** Any interleaving of the two goroutines. *)
Definition pstep (s s' : pstate) : Prop := exists t, step_task t s = Some s'.

Definition spawn (w : World) : pstate :=
  {| audio_pc := PcTranscribe; video_pc := PcTranscribe; world := w |}.

(** Run under a schedule; a goroutine picked while it cannot move waits. *)
Fixpoint run_schedule (sched : list task) (s : pstate) : pstate :=
  match sched with
  | [] => s
  | t :: rest => run_schedule rest (default s (step_task t s)) 
  end.

Definition is_done (p : pc) : bool :=
  match p with PcDone => true | _ => false end.

(** [wg.Wait()] returns once both goroutines are done; a goroutine stuck on
    the full channel is never released, and [processChunk] with it. *)
Inductive chunk_outcome :=
  | Returned (w : World)
  | Blocked (w : World).

(** Each goroutine takes at most five steps, so after any schedule these
    ten picks bring both to their end or to a send that blocks. *)
Definition run_out : list task := repeat AudioTask 5 ++ repeat VideoTask 5.

Definition processChunk (sched : list task) (w : World) : chunk_outcome :=
  match Err chunk with
  | Some e =>
      match send_error e w with
      | Some w1 => Returned w1
      | None => Blocked w
      end
  | None =>
      let s := run_schedule (sched ++ run_out) (spawn w) in
      if is_done (audio_pc s) && is_done (video_pc s)
      then Returned (world s) else Blocked (world s)
  end.

End Chunk.

(* ================================================================== *)
(** ** main *)
(* ================================================================== *)

(** How a run of the loop over the videos ends:
    - [Completed]: the loop went through every video;
    - [FatalExit]: [log.Fatalf] ended the process with status 1;
    - [Panicked]: a run-time panic ended the process;
    - [Stuck]: [processChunk] never returned. *)
Inductive run_result :=
  | Completed
  | FatalExit
  | Panicked
  | Stuck.

(** What the body of the loop tells the loop. *)
Inductive body_result :=
  | NextVideo
  | Stop (r : run_result).

Definition combinedPromptText (combinedAudioTranscript combinedVideoTranscript : string)
    : string :=
  "Here is a raw transcription of a video. Your task is to refine it into a well-structured, human-like summary with explanations while keeping all the original details. Analyze the lecture provided in the audio transcription and video text.  Identify the main topic, key arguments, supporting evidence, and any examples used.  Explain the lecture in a structured way, highlighting the connections between different ideas.  Use information from both the audio transcription and video text to create a comprehensive explanation, also use timestamp to help us correlate with the audio transcript:

    --- RAW TRANSCRIPTION of Audio ---
    " +:+ combinedAudioTranscript +:+ "

    --- RAW TRANSCRIPTION of Video Text ---
    " +:+ combinedVideoTranscript +:+ "

    Please rewrite it clearly with explanations where needed, ensuring it's easy to read and understand.".

Definition complete_marker (videoNumber : Z) : string :=
  nl +:+ "--- VIDEO " +:+ itoa videoNumber +:+ " PROCESSING COMPLETE ---" +:+ nl +:+ nl.

(** [os.Create]: the file is made, or emptied when it is there. *)
Definition create (name : string) (w : World) : option error * World :=
  match os_Create env (trace w) name with
  | None =>
      (None, emit (EvCreate name true) (set_outputs (<[ name := [] ]> (outputs w)) w))
  | Some err => (Some err, emit (EvCreate name false) w)
  end.

(** [os.ReadFile] of an output file. *)
Definition read_file (name : string) (w : World) : (string + error) * World :=
  match os_ReadFile env (trace w) name with
  | None =>
      (inl (String.concat "" (default [] (outputs w !! name))),
       emit (EvReadFile name true) w)
  | Some err => (inr err, emit (EvReadFile name false) w)
  end.

(** The loop over the chunks of one video; every call of [processChunk]
    runs under the schedule the scheduler picks for it. *)
Fixpoint process_chunks (cfg : Config) (chunks : list ChunkData)
    (audioOutputFile videoOutputFile : string) (w : World) : chunk_outcome :=
  match chunks with
  | [] => Returned w
  | chunkData :: rest =>
      match processChunk cfg chunkData audioOutputFile videoOutputFile
              (goroutine_schedule env (trace w)) w with
      | Returned w1 => process_chunks cfg rest audioOutputFile videoOutputFile w1
      | Blocked w1 => Blocked w1
      end
  end.

(** The part of the loop body after the chunks were made. *)
Definition refine_video (cfg : Config) (videoIndex : Z) (chunks : list ChunkData)
    (outputFileName audioOutputFileName videoOutputFileName : string)
    (w : World) : body_result * World :=
  match process_chunks cfg chunks audioOutputFileName videoOutputFileName w with
  | Blocked w1 => (Stop Stuck, w1)
  | Returned w1 =>
      match read_file audioOutputFileName w1 with
      | (inr err, w2) =>
          (NextVideo,
           log_Print ("Error reading audio output file: " +:+ error_string err) w2)
      | (inl audioContent, w2) =>
          match read_file videoOutputFileName w2 with
          | (inr err, w3) =>
              (NextVideo,
               log_Print ("Error reading video output file: " +:+ error_string err) w3)
          | (inl videoContent, w3) =>
              let combinedPrompt :=
                [Text (combinedPromptText audioContent videoContent)] in
              let '(_, w4) :=
                sentLlmPrompt combinedPrompt (Some outputFileName) (videoIndex + 1) w3 in
              let w5 := (fprint env outputFileName (complete_marker (videoIndex + 1)) w4).2 in
              let w6 := (fprint env audioOutputFileName (complete_marker (videoIndex + 1)) w5).2 in
              let w7 := (fprint env videoOutputFileName (complete_marker (videoIndex + 1)) w6).2 in
              (NextVideo, w7)
          end
      end
  end.

(** [log.Fatalf]: the message is logged and the process exits with status
    1; the [continue] written after it is never reached. *)
Definition log_Fatalf (msg : string) (w : World) : body_result * World :=
  (Stop FatalExit, log_Print msg w).

(** The body of the loop for one video. *)
Definition process_video (cfg : Config) (chunkDuration : Z) (videoIndex : Z)
    (videoPath : string) (w : World) : body_result * World :=
  let baseName := TrimSuffix (filepath_Base videoPath) (filepath_Ext videoPath) in
  let outputFileName := baseName +:+ "_output.txt" in
  let audioOutputFileName := baseName +:+ "_audio_output.txt" in
  let videoOutputFileName := baseName +:+ "_video_output.txt" in
  match create outputFileName w with
  | (Some err, w1) =>
      log_Fatalf ("Error creating output file for video " +:+ videoPath +:+ ": "
                  +:+ error_string err) w1
  | (None, w1) =>
      match create audioOutputFileName w1 with
      | (Some err, w2) =>
          log_Fatalf ("Error creating audio output file for video " +:+ videoPath
                      +:+ ": " +:+ error_string err) w2
      | (None, w2) =>
          match create videoOutputFileName w2 with
          | (Some err, w3) =>
              log_Fatalf ("Error creating video output file for video " +:+ videoPath
                          +:+ ": " +:+ error_string err) w3
          | (None, w3) =>
              match chunkVideo videoPath chunkDuration (videoIndex + 1) baseName w3 with
              | (ChunkErr err, w4) =>
                  (NextVideo,
                   log_Print ("Error chunking video " +:+ videoPath +:+ ": "
                              +:+ error_string err) w4)
              | (ChunkPanic, w4) => (Stop Panicked, w4)
              | (Chunks chunks, w4) =>
                  refine_video cfg videoIndex chunks outputFileName
                    audioOutputFileName videoOutputFileName w4
              end
          end
      end
  end.

(** [for videoIndex, videoPath := range videoPaths]. *)
Fixpoint video_loop (cfg : Config) (chunkDuration : Z) (videoIndex : Z)
    (videoPaths : list string) (w : World) : run_result * World :=
  match videoPaths with
  | [] => (Completed, w)
  | videoPath :: rest =>
      match process_video cfg chunkDuration videoIndex videoPath w with
      | (NextVideo, w1) => video_loop cfg chunkDuration (videoIndex + 1) rest w1
      | (Stop r, w1) => (r, w1)
      end
  end.

(** After the loop the channel is closed and every error in it logged. *)
Definition drain_errors (w : World) : World :=
  set_errorChannel []
    (foldl (fun w' err => log_Print ("Error from goroutine: " +:+ error_string err) w')
       w (errorChannel w)).

(** [main] from the point where the list of videos is known. *)
Definition main_run (cfg : Config) (chunkDuration : Z) (videoPaths : list string)
    (w : World) : run_result * World :=
  match videoPaths with
  | [] => (Completed, w)
  | _ =>
      match video_loop cfg chunkDuration 0 videoPaths w with
      | (Completed, w1) => (Completed, drain_errors w1)
      | (r, w1) => (r, w1)
      end
  end.

End Program.

(* ================================================================== *)
(** ** Reading results *)
(* ================================================================== *)


(** The events the OCR fallback may produce, and those of a prompt that
    is given no file to write to. *)
Definition fallback_event (e : event) : bool :=
  match e with
  | EvMkdirTemp _ _ | EvFfmpegFrames _ _ _ | EvRemoveAll _ | EvRemove _
  | EvOpen _ _ | EvDecode _ _ | EvEncode _ _ | EvCreateTemp _ _
  | EvTempWrite _ _ | EvTempClose _ _ | EvTesseract _ _ | EvLog _ => true
  | _ => false
  end.

Definition prompt_event (e : event) : bool :=
  match e with
  | EvGenerateContent _ _ | EvSleep _ | EvLog _ => true
  | _ => false
  end.

Definition is_upload (e : event) : bool :=
  match e with EvUploadFile _ _ => true | _ => false end.
Definition is_delete (e : event) : bool :=
  match e with EvDeleteFile _ _ => true | _ => false end.

(** [w'] comes after [w]: its trace extends that of [w] by events in [P],
    and neither the output files nor the error channel changed. *)
Definition extends (P : event -> bool) (w w' : World) : Prop :=
  (exists new, trace w' = new ++ trace w /\ Forall (fun e => P e = true) new) /\
  outputs w' = outputs w /\ errorChannel w' = errorChannel w.

(** The events of the body of [transcribeVideoLLM] after the upload. *)
Definition body_event (e : event) : bool := prompt_event e || fallback_event e.

(** The OCR fallback as the specification words it: sample the frames,
    then run the recognition ensemble on them; its text is the result. *)
Definition ocr_fallback (env : Env) (videoPath : string) (videoIndex chunkNum : Z)
    (w : World) : string + error :=
  match extractFrames env videoPath videoIndex chunkNum w with
  | (inr err, _) => inr (frames_error videoIndex chunkNum err)
  | (inl framePaths, w1) =>
      inl (transcribeFramesTesseractCLI env framePaths w1).1.1
  end.

(** The chunk that [chunkVideo] makes for index [i]. *)
Definition chunk_at (tempDir : string) (videoIndex : Z) (baseName : string) (i : Z)
    : ChunkData :=
  {| VideoPath := chunkVideoPath tempDir i videoIndex;
     AudioPath := chunkAudioPath tempDir i videoIndex;
     ChunkNum := i; Err := None; VideoIndex := videoIndex; BaseName := baseName |}.

(** The ffmpeg run that cuts chunk [i]: it starts at [i * chunkDuration]. *)
Definition chunk_cut (videoPath : string) (chunkDuration : Z) (i : Z) : event :=
  EvFfmpegChunk videoPath (wrap64 (i * chunkDuration)) chunkDuration true.

(** The two files of chunk [i]. *)
Definition chunk_files (tempDir : string) (videoIndex : Z) (i : Z) : list string :=
  [chunkVideoPath tempDir i videoIndex; chunkAudioPath tempDir i videoIndex].

(** The events of an OCR worker between the creation of its temp file and
    the removal. *)
Definition temp_event (e : event) : bool :=
  match e with
  | EvTempWrite _ _ | EvTempClose _ _ | EvTesseract _ _ => true
  | _ => false
  end.

Definition is_failed_cut (e : event) : bool :=
  match e with EvFfmpegChunk _ _ _ false => true | _ => false end.

(** The probe of the duration fails: ffprobe fails or its output does not
    parse. *)
Definition probe_fails (env : Env) (h : list event) (videoPath : string) : Prop :=
  match ffprobe env h videoPath with
  | inr _ => True
  | inl output =>
      match ParseFloat env output with inr _ => True | inl _ => False end
  end.

(** The first event of the transcription of a task: the run of whisper on
    the audio chunk, the upload of the video chunk. *)
Definition transcribed (chunk : ChunkData) (t : task) (ok : bool) : event :=
  match t with
  | AudioTask => EvWhisper (AudioPath chunk) ok
  | VideoTask => EvUploadFile (VideoPath chunk) ok
  end.

(** The events of one step of a transcription goroutine. *)
Definition task_event (e : event) : bool :=
  match e with
  | EvWhisper _ _ | EvUploadFile _ _ | EvDeleteFile _ _ => true
  | _ => body_event e
  end.

(** What is known of a goroutine of [processChunk] from where it stands,
    [new] being the events since the goroutines were started: past
    [PcTranscribe] its transcription has run, past [PcWrite] the write of
    its record was tried, and at [PcDone] its [os.Remove] came after
    both. *)
Definition task_inv (chunk : ChunkData) (audioOutputFile videoOutputFile : string)
    (t : task) (p : pc) (new : list event) : Prop :=
  match p with
  | PcTranscribe => True
  | PcReport _ | PcWrite _ => exists b, In (transcribed chunk t b) new
  | PcReportWrite _ | PcRemove =>
      (exists b, In (transcribed chunk t b) new) /\
      (exists text ok,
         In (EvFprint (task_file audioOutputFile videoOutputFile t)
               (record chunk text) ok) new)
  | PcDone =>
      exists n1 n2 text ok b,
        new = n1 ++ EvRemove (task_path chunk t) :: n2 /\
        In (EvFprint (task_file audioOutputFile videoOutputFile t)
              (record chunk text) ok) n2 /\
        In (transcribed chunk t b) n2
  end.

(* ================================================================== *)
(** ** Environments for concrete runs *)
(* ================================================================== *)

(** Replacing one oracle of an environment. *)
Definition with_ParseFloat (x : string -> float + error) (env : Env) : Env :=
  {| mapLower := mapLower env;
     Clean := Clean env;
     ParseFloat := x;
     LookPath := LookPath env;
     MkdirTemp := MkdirTemp env;
     ffprobe := ffprobe env;
     ffmpeg_chunk := ffmpeg_chunk env;
     ffmpeg_frames := ffmpeg_frames env;
     whisper := whisper env;
     os_Open := os_Open env;
     image_Decode := image_Decode env;
     jpeg_Encode := jpeg_Encode env;
     CreateTemp := CreateTemp env;
     temp_Write := temp_Write env;
     temp_Close := temp_Close env;
     tesseract := tesseract env;
     UploadFileFromPath := UploadFileFromPath env;
     GenerateContent := GenerateContent env;
     DeleteFile := DeleteFile env;
     os_Create := os_Create env;
     Fprint := Fprint env;
     os_ReadFile := os_ReadFile env;
     next_result := next_result env;
     goroutine_schedule := goroutine_schedule env |}.

Definition with_ffmpeg_chunk (x : list event -> string -> Z -> Z -> string -> string -> option error) (env : Env) : Env :=
  {| mapLower := mapLower env;
     Clean := Clean env;
     ParseFloat := ParseFloat env;
     LookPath := LookPath env;
     MkdirTemp := MkdirTemp env;
     ffprobe := ffprobe env;
     ffmpeg_chunk := x;
     ffmpeg_frames := ffmpeg_frames env;
     whisper := whisper env;
     os_Open := os_Open env;
     image_Decode := image_Decode env;
     jpeg_Encode := jpeg_Encode env;
     CreateTemp := CreateTemp env;
     temp_Write := temp_Write env;
     temp_Close := temp_Close env;
     tesseract := tesseract env;
     UploadFileFromPath := UploadFileFromPath env;
     GenerateContent := GenerateContent env;
     DeleteFile := DeleteFile env;
     os_Create := os_Create env;
     Fprint := Fprint env;
     os_ReadFile := os_ReadFile env;
     next_result := next_result env;
     goroutine_schedule := goroutine_schedule env |}.

Definition with_ffmpeg_frames (x : list event -> string -> string -> list string + error) (env : Env) : Env :=
  {| mapLower := mapLower env;
     Clean := Clean env;
     ParseFloat := ParseFloat env;
     LookPath := LookPath env;
     MkdirTemp := MkdirTemp env;
     ffprobe := ffprobe env;
     ffmpeg_chunk := ffmpeg_chunk env;
     ffmpeg_frames := x;
     whisper := whisper env;
     os_Open := os_Open env;
     image_Decode := image_Decode env;
     jpeg_Encode := jpeg_Encode env;
     CreateTemp := CreateTemp env;
     temp_Write := temp_Write env;
     temp_Close := temp_Close env;
     tesseract := tesseract env;
     UploadFileFromPath := UploadFileFromPath env;
     GenerateContent := GenerateContent env;
     DeleteFile := DeleteFile env;
     os_Create := os_Create env;
     Fprint := Fprint env;
     os_ReadFile := os_ReadFile env;
     next_result := next_result env;
     goroutine_schedule := goroutine_schedule env |}.

Definition with_whisper (x : list event -> list string -> string + error) (env : Env) : Env :=
  {| mapLower := mapLower env;
     Clean := Clean env;
     ParseFloat := ParseFloat env;
     LookPath := LookPath env;
     MkdirTemp := MkdirTemp env;
     ffprobe := ffprobe env;
     ffmpeg_chunk := ffmpeg_chunk env;
     ffmpeg_frames := ffmpeg_frames env;
     whisper := x;
     os_Open := os_Open env;
     image_Decode := image_Decode env;
     jpeg_Encode := jpeg_Encode env;
     CreateTemp := CreateTemp env;
     temp_Write := temp_Write env;
     temp_Close := temp_Close env;
     tesseract := tesseract env;
     UploadFileFromPath := UploadFileFromPath env;
     GenerateContent := GenerateContent env;
     DeleteFile := DeleteFile env;
     os_Create := os_Create env;
     Fprint := Fprint env;
     os_ReadFile := os_ReadFile env;
     next_result := next_result env;
     goroutine_schedule := goroutine_schedule env |}.

Definition with_tesseract (x : list event -> string -> string + error) (env : Env) : Env :=
  {| mapLower := mapLower env;
     Clean := Clean env;
     ParseFloat := ParseFloat env;
     LookPath := LookPath env;
     MkdirTemp := MkdirTemp env;
     ffprobe := ffprobe env;
     ffmpeg_chunk := ffmpeg_chunk env;
     ffmpeg_frames := ffmpeg_frames env;
     whisper := whisper env;
     os_Open := os_Open env;
     image_Decode := image_Decode env;
     jpeg_Encode := jpeg_Encode env;
     CreateTemp := CreateTemp env;
     temp_Write := temp_Write env;
     temp_Close := temp_Close env;
     tesseract := x;
     UploadFileFromPath := UploadFileFromPath env;
     GenerateContent := GenerateContent env;
     DeleteFile := DeleteFile env;
     os_Create := os_Create env;
     Fprint := Fprint env;
     os_ReadFile := os_ReadFile env;
     next_result := next_result env;
     goroutine_schedule := goroutine_schedule env |}.

Definition with_UploadFileFromPath (x : list event -> string -> File + error) (env : Env) : Env :=
  {| mapLower := mapLower env;
     Clean := Clean env;
     ParseFloat := ParseFloat env;
     LookPath := LookPath env;
     MkdirTemp := MkdirTemp env;
     ffprobe := ffprobe env;
     ffmpeg_chunk := ffmpeg_chunk env;
     ffmpeg_frames := ffmpeg_frames env;
     whisper := whisper env;
     os_Open := os_Open env;
     image_Decode := image_Decode env;
     jpeg_Encode := jpeg_Encode env;
     CreateTemp := CreateTemp env;
     temp_Write := temp_Write env;
     temp_Close := temp_Close env;
     tesseract := tesseract env;
     UploadFileFromPath := x;
     GenerateContent := GenerateContent env;
     DeleteFile := DeleteFile env;
     os_Create := os_Create env;
     Fprint := Fprint env;
     os_ReadFile := os_ReadFile env;
     next_result := next_result env;
     goroutine_schedule := goroutine_schedule env |}.

Definition with_GenerateContent (x : list event -> list part -> list Candidate + error) (env : Env) : Env :=
  {| mapLower := mapLower env;
     Clean := Clean env;
     ParseFloat := ParseFloat env;
     LookPath := LookPath env;
     MkdirTemp := MkdirTemp env;
     ffprobe := ffprobe env;
     ffmpeg_chunk := ffmpeg_chunk env;
     ffmpeg_frames := ffmpeg_frames env;
     whisper := whisper env;
     os_Open := os_Open env;
     image_Decode := image_Decode env;
     jpeg_Encode := jpeg_Encode env;
     CreateTemp := CreateTemp env;
     temp_Write := temp_Write env;
     temp_Close := temp_Close env;
     tesseract := tesseract env;
     UploadFileFromPath := UploadFileFromPath env;
     GenerateContent := x;
     DeleteFile := DeleteFile env;
     os_Create := os_Create env;
     Fprint := Fprint env;
     os_ReadFile := os_ReadFile env;
     next_result := next_result env;
     goroutine_schedule := goroutine_schedule env |}.

Definition with_DeleteFile (x : list event -> string -> option error) (env : Env) : Env :=
  {| mapLower := mapLower env;
     Clean := Clean env;
     ParseFloat := ParseFloat env;
     LookPath := LookPath env;
     MkdirTemp := MkdirTemp env;
     ffprobe := ffprobe env;
     ffmpeg_chunk := ffmpeg_chunk env;
     ffmpeg_frames := ffmpeg_frames env;
     whisper := whisper env;
     os_Open := os_Open env;
     image_Decode := image_Decode env;
     jpeg_Encode := jpeg_Encode env;
     CreateTemp := CreateTemp env;
     temp_Write := temp_Write env;
     temp_Close := temp_Close env;
     tesseract := tesseract env;
     UploadFileFromPath := UploadFileFromPath env;
     GenerateContent := GenerateContent env;
     DeleteFile := x;
     os_Create := os_Create env;
     Fprint := Fprint env;
     os_ReadFile := os_ReadFile env;
     next_result := next_result env;
     goroutine_schedule := goroutine_schedule env |}.

Definition with_os_Create (x : list event -> string -> option error) (env : Env) : Env :=
  {| mapLower := mapLower env;
     Clean := Clean env;
     ParseFloat := ParseFloat env;
     LookPath := LookPath env;
     MkdirTemp := MkdirTemp env;
     ffprobe := ffprobe env;
     ffmpeg_chunk := ffmpeg_chunk env;
     ffmpeg_frames := ffmpeg_frames env;
     whisper := whisper env;
     os_Open := os_Open env;
     image_Decode := image_Decode env;
     jpeg_Encode := jpeg_Encode env;
     CreateTemp := CreateTemp env;
     temp_Write := temp_Write env;
     temp_Close := temp_Close env;
     tesseract := tesseract env;
     UploadFileFromPath := UploadFileFromPath env;
     GenerateContent := GenerateContent env;
     DeleteFile := DeleteFile env;
     os_Create := x;
     Fprint := Fprint env;
     os_ReadFile := os_ReadFile env;
     next_result := next_result env;
     goroutine_schedule := goroutine_schedule env |}.

Definition with_Fprint (x : list event -> string -> string -> option error) (env : Env) : Env :=
  {| mapLower := mapLower env;
     Clean := Clean env;
     ParseFloat := ParseFloat env;
     LookPath := LookPath env;
     MkdirTemp := MkdirTemp env;
     ffprobe := ffprobe env;
     ffmpeg_chunk := ffmpeg_chunk env;
     ffmpeg_frames := ffmpeg_frames env;
     whisper := whisper env;
     os_Open := os_Open env;
     image_Decode := image_Decode env;
     jpeg_Encode := jpeg_Encode env;
     CreateTemp := CreateTemp env;
     temp_Write := temp_Write env;
     temp_Close := temp_Close env;
     tesseract := tesseract env;
     UploadFileFromPath := UploadFileFromPath env;
     GenerateContent := GenerateContent env;
     DeleteFile := DeleteFile env;
     os_Create := os_Create env;
     Fprint := x;
     os_ReadFile := os_ReadFile env;
     next_result := next_result env;
     goroutine_schedule := goroutine_schedule env |}.

Definition with_goroutine_schedule (x : list event -> list task) (env : Env) : Env :=
  {| mapLower := mapLower env;
     Clean := Clean env;
     ParseFloat := ParseFloat env;
     LookPath := LookPath env;
     MkdirTemp := MkdirTemp env;
     ffprobe := ffprobe env;
     ffmpeg_chunk := ffmpeg_chunk env;
     ffmpeg_frames := ffmpeg_frames env;
     whisper := whisper env;
     os_Open := os_Open env;
     image_Decode := image_Decode env;
     jpeg_Encode := jpeg_Encode env;
     CreateTemp := CreateTemp env;
     temp_Write := temp_Write env;
     temp_Close := temp_Close env;
     tesseract := tesseract env;
     UploadFileFromPath := UploadFileFromPath env;
     GenerateContent := GenerateContent env;
     DeleteFile := DeleteFile env;
     os_Create := os_Create env;
     Fprint := Fprint env;
     os_ReadFile := os_ReadFile env;
     next_result := next_result env;
     goroutine_schedule := x |}.
(** [filepath.Clean] on the paths met here: a trailing separator goes. *)
Definition strip_slash (s : string) : string :=
  match rev (bytes s) with
  | c :: (_ :: _) as r => if is_sep c then of_bytes (rev r) else s
  | _ => s
  end.

(** An outside where every call succeeds: a video of 95 seconds, two
    frames per chunk, temp names made unique by the length of the history. *)
Definition calm_env : Env :=
  {| mapLower := fun s => s;
     Clean := strip_slash;
     ParseFloat := fun _ => inl 95%float;
     LookPath := fun _ _ => None;
     MkdirTemp := fun h pattern =>
       inl ("/tmp/" +:+ pattern +:+ itoa (Z.of_nat (length h)));
     ffprobe := fun _ _ => inl "95.000000";
     ffmpeg_chunk := fun _ _ _ _ _ _ => None;
     ffmpeg_frames := fun _ _ _ => inl ["frame_0001.jpg"; "frame_0002.jpg"];
     whisper := fun _ _ => inl "spoken words";
     os_Open := fun _ _ => None;
     image_Decode := fun _ _ => None;
     jpeg_Encode := fun _ _ => None;
     CreateTemp := fun h _ =>
       inl ("/tmp/ocr_" +:+ itoa (Z.of_nat (length h)) +:+ ".jpg");
     temp_Write := fun _ _ => None;
     temp_Close := fun _ _ => None;
     tesseract := fun _ _ => inl "slide text";
     UploadFileFromPath := fun _ _ =>
       inl {| Name := "files/chunk"; URI := "https://cloud/files/chunk" |};
     GenerateContent := fun _ _ =>
       inl [ {| Content := Some [Text "text on screen"] |} ];
     DeleteFile := fun _ _ => None;
     os_Create := fun _ _ => None;
     Fprint := fun _ _ _ => None;
     os_ReadFile := fun _ _ => None;
     next_result := fun _ _ => 0%nat;
     goroutine_schedule := fun _ => [] |}.

Definition plain_cfg : Config :=
  {| whisperCLIPath := "whisper-cli"; whisperModelPath := "ggml-base.bin";
     whisperThreads := 4; whisperLanguage := "en" |}.

(** The same outside with a video of 60.5 seconds. *)
Definition fractional_env : Env := with_ParseFloat (fun _ => inl 60.5%float) calm_env.

(** The deletion of the uploaded file fails. *)
Definition failing_delete_env : Env :=
  with_DeleteFile (fun _ _ => Some (ErrExt "permission denied")) calm_env.

(** whisper-cli fails on every chunk of a video of 630 seconds. *)
Definition failing_whisper_env : Env :=
  with_whisper (fun _ _ => inr (ErrExt "exit status 1"))
    (with_ParseFloat (fun _ => inl 630%float) calm_env).

(** The first output file of [first.mp4] cannot be created. *)
Definition failing_create_env : Env :=
  with_os_Create
    (fun _ name =>
       if String.eqb name "first_output.txt"
       then Some (ErrExt "permission denied") else None)
    calm_env.

(** ffmpeg fails on every cut of [first.mp4]. *)
Definition failing_cut_env : Env :=
  with_ffmpeg_chunk
    (fun _ video _ _ _ _ =>
       if String.eqb video "first.mp4" then Some (ErrExt "exit status 1") else None)
    calm_env.

(** ffmpeg cuts the first chunk and fails on the second, the one that
    starts at second 60. *)
Definition failing_second_cut_env : Env :=
  with_ffmpeg_chunk
    (fun _ _ start _ _ _ =>
       if start =? 60 then Some (ErrExt "exit status 1") else None)
    calm_env.

(** The upload is refused and ffmpeg leaves no frame in the directory. *)
Definition no_frames_env : Env :=
  with_UploadFileFromPath (fun _ _ => inr (ErrExt "upload refused"))
    (with_ffmpeg_frames (fun _ _ _ => inl []) calm_env).

(** ffmpeg fails when it samples the frames. *)
Definition failing_frames_env : Env :=
  with_ffmpeg_frames (fun _ _ _ => inr (ErrExt "exit status 1")) calm_env.

(** The world after [chunkVideo] cut a video of 95 seconds, and its first
    chunk. *)
Definition chunked_world : World :=
  (chunkVideo calm_env "lecture.mp4" 60 1 "lecture" empty_world).2.
Definition first_chunk : ChunkData := chunk_at "/tmp/video_chunks1" 1 "lecture" 0.

(* ================================================================== *)
(** ** More readings of worlds and results *)
(* ================================================================== *)


(** The start offset of a cut, and whether an event is a cut that failed
    on the given video. *)
Definition cut_start (e : event) : option Z :=
  match e with EvFfmpegChunk _ start _ _ => Some start | _ => None end.

(** Writes to output files and sends on the error channel, as events. *)
Definition is_fprint (e : event) : bool :=
  match e with EvFprint _ _ _ => true | _ => false end.

Definition sent_error (e : event) : option error :=
  match e with EvSend err => Some err | _ => None end.

(** The world in which a call of [processChunk] ends, returned or not. *)
Definition outcome_world (o : chunk_outcome) : World :=
  match o with Returned w => w | Blocked w => w end.

(** For a goroutine of [processChunk] at [p]: the most sends on the error
    channel it still has before it, the most steps it still takes, and
    whether the write of its record was tried. *)
Definition sends_left (p : pc) : nat :=
  match p with
  | PcTranscribe | PcReport _ => 2
  | PcWrite _ | PcReportWrite _ => 1
  | PcRemove | PcDone => 0
  end.

Definition rank (p : pc) : nat :=
  match p with
  | PcTranscribe => 5
  | PcReport _ => 4
  | PcWrite _ => 3
  | PcReportWrite _ => 2
  | PcRemove => 1
  | PcDone => 0
  end.

Definition written (p : pc) : bool :=
  match p with
  | PcReportWrite _ | PcRemove | PcDone => true
  | _ => false
  end.

(** The writes of a goroutine at [p] to its file [f]: none, or the one
    record of the chunk. *)
Definition writes_of (chunk : ChunkData) (f : string) (p : pc) (l : list event)
    : Prop :=
  if written p
  then exists text ok, l = [EvFprint f (record chunk text) ok]
  else l = [].

(** Frame extraction failed: its temp directory could not be made, or
    ffmpeg failed on the video. *)
Definition frames_failed (e : event) : bool :=
  match e with
  | EvMkdirTemp _ false | EvFfmpegFrames _ _ false => true
  | _ => false
  end.

Definition frames_fine (e : event) : bool := negb (frames_failed e).

(** The events of the recognition ensemble and of the removal of the
    frames. *)
Definition ocr_event (e : event) : bool :=
  match e with
  | EvRemoveAll _ | EvRemove _ | EvOpen _ _ | EvDecode _ _ | EvEncode _ _
  | EvCreateTemp _ _ | EvTempWrite _ _ | EvTempClose _ _ | EvTesseract _ _
  | EvLog _ => true
  | _ => false
  end.

(** Among the events from [w] to [w'] frame extraction failed. *)
Definition has_failed (w w' : World) : Prop :=
  exists new, trace w' = new ++ trace w /\ Exists (fun e => frames_failed e = true) new.

(** A temp file was made; a file was removed. *)
Definition created_temp (e : event) : bool :=
  match e with EvCreateTemp _ true => true | _ => false end.
Definition is_remove (e : event) : bool :=
  match e with EvRemove _ => true | _ => false end.

(** What a world reports of frame extraction, by the result returned. *)
Definition frames_verdict (videoIndex chunkNum : Z) (r : string + error)
    (w w' : World) : Prop :=
  match r with
  | inr err => (exists cause, err = frames_error videoIndex chunkNum cause) /\
               has_failed w w'
  | inl _ => extends frames_fine w w'
  end.

(** From [w] to [w'] no file was left behind: as many removals as temp
    files made, and nothing on disk that was not there. *)
Definition balanced (w w' : World) : Prop :=
  fs w' ⊆ fs w /\
  exists new,
    trace w' = new ++ trace w /\
    length (filter (fun e => created_temp e = true) new)
    = length (filter (fun e => is_remove e = true) new).




(** From [w] to [w'] the error channel got exactly the errors of the
    send events, appended in their order, and stayed within its
    capacity. *)
Definition chan_inv (w w' : World) : Prop :=
  exists new,
    trace w' = new ++ trace w /\
    errorChannel w' = errorChannel w ++ omap sent_error (rev new) /\
    ((length (errorChannel w) <= errorChannel_cap)%nat ->
     (length (errorChannel w') <= errorChannel_cap)%nat).

(** The line [main] logs for an error taken from the channel. *)
Definition goroutine_log (e : error) : event :=
  EvLog ("Error from goroutine: " +:+ error_string e).


(* ================================================================== *)
(** ** Properties *)
(* ================================================================== *)

Section IsVideoFile.
Variable mapLower : string -> string.

Lemma ext_in_In ext exts : ext_in ext exts = true <-> In ext exts.
Proof.
  induction exts as [|v exts IH]; simpl.
  - split; [discriminate | tauto].
  - destruct (String.eqb_spec ext v) as [->|Hne].
    + split; auto.
    + rewrite IH. split; [auto | intros [H|H]; congruence].
Qed.

Example isVideoFile_upper : isVideoFile mapLower "lectures/Week1.MP4" = true.
Proof. reflexivity. Qed.
Example isVideoFile_dir_dot : isVideoFile mapLower "clips.mp4/notes" = false.
Proof. reflexivity. Qed.
Example isVideoFile_last_ext : isVideoFile mapLower "talk.mkv.txt" = false.
Proof. reflexivity. Qed.

(** C10. [isVideoFile path] is true exactly when the lowercased
    extension of [path] is one of the nine listed extensions; the test
    looks at nothing but the extension, and discovery keeps exactly the
    candidates that pass it. *)
Theorem isVideoFile_iff_extension (path : string) :
  (isVideoFile mapLower path = true <->
     let ext := ToLower mapLower (filepath_Ext path) in
     ext = ".mp4" \/ ext = ".mov" \/ ext = ".avi" \/ ext = ".wmv" \/
     ext = ".mkv" \/ ext = ".flv" \/ ext = ".webm" \/ ext = ".mpeg" \/
     ext = ".mpg") /\
  (forall other, filepath_Ext other = filepath_Ext path ->
     isVideoFile mapLower other = isVideoFile mapLower path) /\
  (forall files p, p ∈ discover mapLower path (InputDir files) <->
     p ∈ files /\ isVideoFile mapLower p = true) /\
  (discover mapLower path InputFile =
     if isVideoFile mapLower path then [path] else []).
Proof.
  split; [|split; [|split]].
  - unfold isVideoFile. rewrite ext_in_In. cbn zeta. unfold videoExtensions.
    simpl. split.
    + intros H. repeat (destruct H as [H|H]; [symmetry in H; tauto|]). tauto.
    + intros H. repeat (destruct H as [H|H]; [symmetry in H; tauto|]).
      symmetry in H. tauto.
  - intros other Heq. unfold isVideoFile. now rewrite Heq.
  - intros files p. unfold discover. rewrite list_elem_of_filter. tauto.
  - reflexivity.
Qed.
End IsVideoFile.

(* ------------------------------------------------------------------ *)
(** *** Strings and traces *)

Lemma string_app_nil_r (s : string) : s +:+ "" = s.
Proof.
  induction s as [|c s IH]; [reflexivity|].
  change (String c (s +:+ "") = String c s). now rewrite IH.
Qed.

Lemma string_app_assoc (a b c : string) : (a +:+ b) +:+ c = a +:+ (b +:+ c).
Proof.
  induction a as [|x a IH]; [reflexivity|].
  change (String x ((a +:+ b) +:+ c) = String x (a +:+ b +:+ c)). now rewrite IH.
Qed.

Lemma concat_cons (x : string) (xs : list string) :
  String.concat "" (x :: xs) = x +:+ String.concat "" xs.
Proof.
  destruct xs as [|y ys]; [|reflexivity].
  symmetry. apply string_app_nil_r.
Qed.

Lemma concat_app (xs ys : list string) :
  String.concat "" (xs ++ ys) = String.concat "" xs +:+ String.concat "" ys.
Proof.
  induction xs as [|x xs IH]; [reflexivity|].
  rewrite <- app_comm_cons, !concat_cons, IH. now rewrite string_app_assoc.
Qed.

Lemma generate_outcomes_app (a b : list event) :
  generate_outcomes (a ++ b) = generate_outcomes b ++ generate_outcomes a.
Proof. unfold generate_outcomes. now rewrite rev_app_distr, omap_app. Qed.

Lemma sleeps_app (a b : list event) : sleeps (a ++ b) = sleeps b ++ sleeps a.
Proof. unfold sleeps. now rewrite rev_app_distr, omap_app. Qed.

Lemma quiet_generate_outcomes (t : list event) :
  Forall quiet t -> generate_outcomes t = [].
Proof.
  induction 1 as [|e t [Hg _] _ IH]; [reflexivity|].
  change (e :: t) with ([e] ++ t). rewrite generate_outcomes_app, IH.
  unfold generate_outcomes. simpl. now rewrite Hg.
Qed.

Lemma quiet_sleeps (t : list event) : Forall quiet t -> sleeps t = [].
Proof.
  induction 1 as [|e t [_ Hs] _ IH]; [reflexivity|].
  change (e :: t) with ([e] ++ t). rewrite sleeps_app, IH.
  unfold sleeps. simpl. now rewrite Hs.
Qed.

Section PromptProps.
Variable env : Env.

(* ------------------------------------------------------------------ *)
(** *** sentLlmPrompt *)

Lemma collect_parts_spec (file : option string) (parts : list part) :
  forall acc w,
    (collect_parts env file parts acc w).1
      = acc +:+ String.concat "" (omap part_text parts) /\
    exists new, trace (collect_parts env file parts acc w).2 = new ++ trace w /\
                Forall quiet new.
Proof.
  induction parts as [|p parts IH]; intros acc w.
  - simpl. rewrite string_app_nil_r. split; [reflexivity|]. now exists [].
  - destruct p as [text|uri|mime]; simpl collect_parts;
      try (destruct (IH acc w) as [Hr Ht]; split; [exact Hr | exact Ht]).
    match goal with |- context [collect_parts env file parts _ ?w1] =>
      set (w1' := w1) end.
    destruct (IH (acc +:+ text) w1') as [Hr (new & Ht & Hq)].
    split.
    + rewrite Hr. simpl omap. rewrite concat_cons. now rewrite string_app_assoc.
    + assert (exists mid, trace w1' = mid ++ trace w /\ Forall quiet mid)
        as (mid & Hmid & Hqm).
      { subst w1'. destruct file as [f|]; [|now exists []].
        unfold fprint. destruct (Fprint env (trace w) f (text +:+ nl)).
        - eexists [_; _]. split; [reflexivity|].
          repeat constructor.
        - eexists [_]. split; [reflexivity|]. repeat constructor. }
      exists (new ++ mid). rewrite Ht, Hmid, app_assoc. split; [reflexivity|].
      now apply Forall_app.
Qed.

Lemma collect_candidates_spec (file : option string) (cands : list Candidate) :
  forall acc w,
    (collect_candidates env file cands acc w).1
      = acc +:+ String.concat "" (flat_map candidate_texts cands) /\
    exists new, trace (collect_candidates env file cands acc w).2 = new ++ trace w /\
                Forall quiet new.
Proof.
  induction cands as [|c cands IH]; intros acc w.
  - simpl. rewrite string_app_nil_r. split; [reflexivity|]. now exists [].
  - simpl collect_candidates. simpl flat_map. unfold candidate_texts at 1.
    destruct (Content c) as [parts|].
    + destruct (collect_parts_spec file parts acc w) as [Hr (mid & Hmid & Hqm)].
      destruct (collect_parts env file parts acc w) as [r1 w1]. simpl in Hr, Hmid.
      destruct (IH r1 w1) as [Hr2 (new & Ht & Hq)].
      split.
      * rewrite Hr2, Hr, concat_app. now rewrite string_app_assoc.
      * exists (new ++ mid). rewrite Ht, Hmid, app_assoc. split; [reflexivity|].
        now apply Forall_app.
    + simpl app. apply IH.
Qed.

Lemma sentLlmPrompt_loop_spec (prompt : list part) (file : option string)
    (videoIndex : Z) (left : nat) :
  forall attempt w,
    attempt + Z.of_nat left = maxRetries + 1 ->
    let '(r, w') := sentLlmPrompt_loop env left attempt prompt file videoIndex w in
    exists new, trace w' = new ++ trace w /\
      sleeps new = repeat retryDelay (length (generate_outcomes new) - 1) /\
      ((generate_outcomes new = repeat false left /\ r = "") \/
       (exists k post h resp,
          (k < left)%nat /\
          generate_outcomes new = repeat false k ++ [true] /\
          trace w' = post ++ EvGenerateContent prompt true :: h /\
          Forall quiet post /\
          GenerateContent env h prompt = inl resp /\
          r = response_text resp)).
Proof.
  induction left as [|left IH]; intros attempt w Hsum.
  - simpl. exists []. split; [reflexivity|]. split; [reflexivity|]. now left.
  - simpl sentLlmPrompt_loop.
    destruct (GenerateContent env (trace w) prompt) as [resp|err] eqn:Hgen.
    + destruct (collect_candidates_spec file resp ""
                  (emit (EvGenerateContent prompt true) w)) as [Hr (post & Ht & Hq)].
      destruct (collect_candidates env file resp "" _) as [r w'].
      simpl in Hr, Ht.
      exists (post ++ [EvGenerateContent prompt true]).
      rewrite <- app_assoc. split; [exact Ht|].
      rewrite generate_outcomes_app, sleeps_app, (quiet_generate_outcomes post Hq),
        (quiet_sleeps post Hq), !app_nil_r.
      split; [reflexivity|]. right.
      exists 0%nat, post, (trace w), resp.
      repeat split; [lia | exact Ht | exact Hq | exact Hgen | exact Hr].
    + destruct (Z.ltb_spec attempt maxRetries) as [Hlt|Hge].
      * match goal with |- context [sentLlmPrompt_loop env left _ _ _ _ ?w2] =>
          set (w2' := w2) end.
        assert (Hleft : (1 <= left)%nat) by (unfold maxRetries in *; lia).
        specialize (IH (attempt + 1) w2' ltac:(lia)).
        destruct (sentLlmPrompt_loop env left (attempt + 1) prompt file videoIndex w2')
          as [r w'].
        destruct IH as (new & Ht & Hs & Hcases).
        assert (exists pre, trace w2' = pre ++ trace w /\
                  generate_outcomes pre = [false] /\ sleeps pre = [retryDelay])
          as (pre & Hpre & Hgp & Hsp).
        { eexists [_; _; _]. split; [reflexivity|]. split; reflexivity. }
        exists (new ++ pre). rewrite Ht, Hpre, app_assoc.
        split; [reflexivity|].
        rewrite generate_outcomes_app, sleeps_app, Hs, Hgp, Hsp.
        assert (Hne : (1 <= length (generate_outcomes new))%nat).
        { destruct Hcases as [[Hc _]|(k & ? & ? & ? & _ & Hc & _)]; rewrite Hc.
          - rewrite repeat_length. exact Hleft.
          - rewrite length_app, repeat_length. simpl. lia. }
        split.
        { simpl length.
          destruct (length (generate_outcomes new)) as [|n]; [lia|].
          simpl. now rewrite Nat.sub_0_r. }
        destruct Hcases as [[Hc ->]|(k & post & h & resp & Hk & Hc & Hpost & Hq & Hg & ->)].
        -- left. rewrite Hc. split; reflexivity.
        -- right. exists (S k), post, h, resp.
           rewrite Hc. repeat split; try assumption; [lia|].
           rewrite <- Hpost, Ht, Hpre. now rewrite app_assoc.
      * assert (left = 0%nat) by (unfold maxRetries in *; lia). subst left.
        eexists [_; _]. split; [reflexivity|]. split; [reflexivity|].
        left. split; reflexivity.
Qed.

(** C3. [sentLlmPrompt] calls the model at most [maxRetries + 1] times
    and sleeps exactly [retryDelay] between two calls; when every call
    failed it returns the empty string, and otherwise it stops at the first
    call that succeeded and returns the text parts of that response,
    joined.  Its result is a plain string: no error reaches the caller. *)
Theorem sentLlmPrompt_retry_bound (prompt : list part) (file : option string)
    (videoIndex : Z) (w : World) :
  let '(r, w') := sentLlmPrompt env prompt file videoIndex w in
  exists new, trace w' = new ++ trace w /\
    (length (generate_outcomes new) <= Z.to_nat (maxRetries + 1))%nat /\
    sleeps new = repeat retryDelay (length (generate_outcomes new) - 1) /\
    ((generate_outcomes new = repeat false (Z.to_nat (maxRetries + 1)) /\ r = "") \/
     (exists k post h resp,
        (k <= Z.to_nat maxRetries)%nat /\
        generate_outcomes new = repeat false k ++ [true] /\
        trace w' = post ++ EvGenerateContent prompt true :: h /\
        Forall quiet post /\
        GenerateContent env h prompt = inl resp /\
        r = response_text resp)).
Proof.
  unfold sentLlmPrompt.
  pose proof (sentLlmPrompt_loop_spec prompt file videoIndex
                (Z.to_nat (maxRetries + 1)) 0 w) as H.
  specialize (H ltac:(unfold maxRetries; lia)).
  destruct (sentLlmPrompt_loop env _ 0 prompt file videoIndex w) as [r w'].
  destruct H as (new & Ht & Hs & Hcases).
  exists new. split; [exact Ht|]. split; [|split; [exact Hs|]].
  - destruct Hcases as [[Hc _]|(k & ? & ? & ? & Hk & Hc & _)]; rewrite Hc.
    + now rewrite repeat_length.
    + rewrite length_app, repeat_length. simpl. lia.
  - destruct Hcases as [Hc|(k & post & h & resp & Hk & Hrest)]; [now left|].
    right. exists k, post, h, resp. split; [|exact Hrest].
    unfold maxRetries in *. lia.
Qed.

End PromptProps.

(* ------------------------------------------------------------------ *)
(** *** transcribeFramesTesseractCLI *)

Section OcrProps.
Variable env : Env.

Lemma run_workers_step (left : nat) (fp0 : string) (rest : list string) (w : World) :
  run_workers env (S left) (fp0 :: rest) w =
  let pending := fp0 :: rest in
  let i := (next_result env (trace w) (length pending) `mod` length pending)%nat in
  let '(r, w1) := ocr_worker env (nth i pending fp0) w in
  let '(rs, w2) := run_workers env left (delete i pending) w1 in
  (r :: rs, w2).
Proof. reflexivity. Qed.





End OcrProps.

(* ------------------------------------------------------------------ *)
(** *** Traces only grow *)

Lemma extends_refl (P : event -> bool) (w : World) : extends P w w.
Proof. split; [|split; reflexivity]. exists []. split; [reflexivity | constructor]. Qed.

Lemma extends_trans (P : event -> bool) (w1 w2 w3 : World) :
  extends P w1 w2 -> extends P w2 w3 -> extends P w1 w3.
Proof.
  intros [(n1 & H1 & F1) [O1 C1]] [(n2 & H2 & F2) [O2 C2]].
  split; [|split; congruence].
  exists (n2 ++ n1). rewrite H2, H1, app_assoc.
  split; [reflexivity | now apply Forall_app].
Qed.

Lemma extends_mono (P Q : event -> bool) (w w' : World) :
  (forall e, P e = true -> Q e = true) -> extends P w w' -> extends Q w w'.
Proof.
  intros HPQ [(new & H & F) HOC]. split; [|exact HOC].
  exists new. split; [exact H|].
  eapply Forall_impl; [exact F | exact HPQ].
Qed.

Lemma extends_emit (P : event -> bool) (e : event) (w0 w : World) :
  P e = true -> extends P w0 w -> extends P w0 (emit e w).
Proof.
  intros He [(new & H & F) HOC]. split; [|exact HOC].
  exists (e :: new). simpl. rewrite H.
  split; [reflexivity | now constructor].
Qed.

Lemma extends_set_fs (P : event -> bool) (f : gset string) (w0 w : World) :
  extends P w0 w -> extends P w0 (set_fs f w).
Proof. intros [H HOC]. split; [exact H | exact HOC]. Qed.

Lemma Forall_filter_nil (P Q : event -> bool) (new : list event) :
  (forall e, P e = true -> Q e = false) ->
  Forall (fun e => P e = true) new -> filter (fun e => Q e = true) new = [].
Proof.
  intros HPQ F. induction F as [|e new He _ IH]; [reflexivity|].
  rewrite filter_cons, decide_False; [exact IH|].
  rewrite (HPQ e He). discriminate.
Qed.

Lemma extends_none (P Q : event -> bool) (w w' : World) :
  (forall e, P e = true -> Q e = false) -> extends P w w' ->
  exists new, trace w' = new ++ trace w /\ filter (fun e => Q e = true) new = [].
Proof.
  intros HPQ [(new & H & F) _]. exists new. split; [exact H|].
  now apply (Forall_filter_nil P Q).
Qed.

(** Steps that close [extends] goals over the primitive operations. *)
Ltac grow :=
  unfold os_RemoveAll, os_Remove, log_Print, time_Sleep;
  repeat first
    [ apply extends_refl
    | assumption
    | apply extends_emit; [reflexivity|]
    | apply extends_set_fs ].

Section VideoProps.
Variable env : Env.

Lemma collect_parts_extends (parts : list part) :
  forall acc w, extends prompt_event w (collect_parts env None parts acc w).2.
Proof.
  induction parts as [|p parts IH]; intros acc w; [apply extends_refl|].
  destruct p; simpl; apply IH.
Qed.

Lemma collect_candidates_extends (cands : list Candidate) :
  forall acc w, extends prompt_event w (collect_candidates env None cands acc w).2.
Proof.
  induction cands as [|c cands IH]; intros acc w; [apply extends_refl|].
  simpl. destruct (Content c) as [parts|]; [|apply IH].
  pose proof (collect_parts_extends parts acc w) as H1.
  destruct (collect_parts env None parts acc w) as [r w1]. simpl in H1.
  eapply extends_trans; [exact H1 | apply IH].
Qed.

Lemma sentLlmPrompt_loop_extends (prompt : list part) (videoIndex : Z) (left : nat) :
  forall attempt w,
    extends prompt_event w
      (sentLlmPrompt_loop env left attempt prompt None videoIndex w).2.
Proof.
  induction left as [|left IH]; intros attempt w; [apply extends_refl|].
  simpl. destruct (GenerateContent env (trace w) prompt) as [resp|err].
  - eapply extends_trans; [|apply collect_candidates_extends]. grow.
  - destruct (attempt <? maxRetries).
    + eapply extends_trans; [|apply IH]. grow.
    + simpl. grow.
Qed.

Lemma sentLlmPrompt_extends (prompt : list part) (videoIndex : Z) (w : World) :
  extends prompt_event w (sentLlmPrompt env prompt None videoIndex w).2.
Proof. apply sentLlmPrompt_loop_extends. Qed.

Lemma extractFrames_extends (videoPath : string) (videoIndex chunkNum : Z) (w : World) :
  extends fallback_event w (extractFrames env videoPath videoIndex chunkNum w).2.
Proof.
  unfold extractFrames. destruct (MkdirTemp env (trace w) _) as [tempDir|err].
  - destruct (ffmpeg_frames env _ videoPath tempDir) as [names|err]; simpl; grow.
  - simpl. grow.
Qed.

Lemma ocr_with_temp_extends (fp tempFilePath : string) (w : World) :
  extends fallback_event w (ocr_with_temp env fp tempFilePath w).2.
Proof.
  unfold ocr_with_temp. destruct (temp_Write env (trace w) tempFilePath).
  - simpl. grow.
  - destruct (temp_Close env _ tempFilePath); [simpl; grow|].
    destruct (tesseract env _ tempFilePath); simpl; grow.
Qed.

Lemma ocr_worker_extends (fp : string) (w : World) :
  extends fallback_event w (ocr_worker env fp w).2.
Proof.
  unfold ocr_worker.
  destruct (os_Open env (trace w) fp); [simpl; grow|].
  destruct (image_Decode env _ fp); [simpl; grow|].
  destruct (jpeg_Encode env _ fp); [simpl; grow|].
  destruct (CreateTemp env _ "ocr_*.jpg") as [tempFilePath|err]; [|simpl; grow].
  match goal with |- context [ocr_with_temp env fp tempFilePath ?w1] =>
    pose proof (ocr_with_temp_extends fp tempFilePath w1) as H;
    destruct (ocr_with_temp env fp tempFilePath w1) as [r w'] end.
  simpl in *. unfold os_Remove. apply extends_emit; [reflexivity|].
  apply extends_set_fs.
  eapply extends_trans; [|exact H]. grow.
Qed.

Lemma run_workers_extends (left : nat) :
  forall pending w, extends fallback_event w (run_workers env left pending w).2.
Proof.
  induction left as [|left IH]; intros pending w; [apply extends_refl|].
  destruct pending as [|fp0 rest]; [apply extends_refl|].
  rewrite run_workers_step. cbv zeta.
  match goal with |- context [ocr_worker env ?fp w] =>
    pose proof (ocr_worker_extends fp w) as H1;
    destruct (ocr_worker env fp w) as [r w1] end.
  match goal with |- context [run_workers env left ?p w1] =>
    pose proof (IH p w1) as H2;
    destruct (run_workers env left p w1) as [rs w2] end.
  simpl in *. eapply extends_trans; eassumption.
Qed.

Lemma collect_results_extends (results : list frameResult) :
  forall combined w,
    extends fallback_event w (collect_results results combined w).2.
Proof.
  induction results as [|r results IH]; intros combined w; [apply extends_refl|].
  simpl. destruct (frError r); [|apply IH].
  eapply extends_trans; [|apply IH]. grow.
Qed.

Lemma transcribeFrames_extends (framePaths : list string) (w : World) :
  extends fallback_event w (transcribeFramesTesseractCLI env framePaths w).2.
Proof.
  unfold transcribeFramesTesseractCLI.
  pose proof (run_workers_extends (length framePaths) framePaths w) as H1.
  destruct (run_workers env (length framePaths) framePaths w) as [results w1].
  pose proof (collect_results_extends results "" w1) as H2.
  destruct (collect_results results "" w1) as [text w2].
  simpl in *. eapply extends_trans; eassumption.
Qed.

Lemma transcribeFrames_no_error (framePaths : list string) (w : World) :
  (transcribeFramesTesseractCLI env framePaths w).1.2 = None.
Proof.
  unfold transcribeFramesTesseractCLI.
  destruct (run_workers env _ framePaths w) as [results w1].
  now destruct (collect_results results "" w1).
Qed.

Lemma cleanup_frames_extends (framePaths : list string) (w : World) :
  extends fallback_event w (cleanup_frames env framePaths w).
Proof. destruct framePaths; simpl; grow. Qed.

Lemma fallback_after_upload_failure_spec (videoPath : string)
    (videoIndex chunkNum : Z) (w : World) :
  (fallback_after_upload_failure env videoPath videoIndex chunkNum w).1
    = ocr_fallback env videoPath videoIndex chunkNum w /\
  extends fallback_event w
    (fallback_after_upload_failure env videoPath videoIndex chunkNum w).2.
Proof.
  unfold fallback_after_upload_failure, ocr_fallback.
  pose proof (extractFrames_extends videoPath videoIndex chunkNum w) as H1.
  destruct (extractFrames env videoPath videoIndex chunkNum w) as [[framePaths|err] w1];
    [|split; [reflexivity | exact H1]].
  pose proof (transcribeFrames_extends framePaths w1) as H2.
  pose proof (transcribeFrames_no_error framePaths w1) as H3.
  destruct (transcribeFramesTesseractCLI env framePaths w1) as [[text err] w2].
  simpl in *. subst err. split; [reflexivity|].
  eapply extends_trans; [exact H1|].
  eapply extends_trans; [exact H2 | apply cleanup_frames_extends].
Qed.

Lemma fallback_after_empty_response_spec (videoPath : string)
    (videoIndex chunkNum : Z) (w : World) :
  (fallback_after_empty_response env videoPath videoIndex chunkNum w).1
    = ocr_fallback env videoPath videoIndex chunkNum w /\
  extends fallback_event w
    (fallback_after_empty_response env videoPath videoIndex chunkNum w).2.
Proof.
  unfold fallback_after_empty_response, ocr_fallback.
  pose proof (extractFrames_extends videoPath videoIndex chunkNum w) as H1.
  destruct (extractFrames env videoPath videoIndex chunkNum w) as [[framePaths|err] w1];
    [|split; [reflexivity | exact H1]].
  pose proof (transcribeFrames_extends framePaths w1) as H2.
  pose proof (transcribeFrames_no_error framePaths w1) as H3.
  destruct (transcribeFramesTesseractCLI env framePaths w1) as [[text err] w2].
  simpl in *. subst err. split; [reflexivity|].
  eapply extends_trans; [exact H1|].
  eapply extends_trans; [exact H2 | apply cleanup_frames_extends].
Qed.

Lemma fallback_is_body (e : event) : fallback_event e = true -> body_event e = true.
Proof. unfold body_event. intros ->. apply orb_true_r. Qed.

Lemma prompt_is_body (e : event) : prompt_event e = true -> body_event e = true.
Proof. unfold body_event. now intros ->. Qed.

Lemma fallback_not_upload (e : event) : fallback_event e = true -> is_upload e = false.
Proof. now destruct e. Qed.

Lemma body_not_upload (e : event) : body_event e = true -> is_upload e = false.
Proof. now destruct e. Qed.

Lemma body_not_delete (e : event) : body_event e = true -> is_delete e = false.
Proof. now destruct e. Qed.

Lemma no_generate_outcomes (new : list event) :
  Forall (fun e => fallback_event e = true) new -> generate_outcomes new = [].
Proof.
  intros F. apply quiet_generate_outcomes.
  eapply Forall_impl; [exact F|]. intros e He. split; now destruct e.
Qed.

Lemma logged_cons_delete (name : string) (ok : bool) (t : list event) :
  logged (EvDeleteFile name ok :: t) = logged t.
Proof. unfold logged. simpl. rewrite omap_app. simpl. apply app_nil_r. Qed.

(** The body of [transcribeVideoLLM] after a successful upload, up to the
    deferred deletion. *)
Lemma after_upload_extends (videoPath : string) (videoIndex chunkNum : Z)
    (uri : string) (w : World) :
  let '(videoTranscript, w1) :=
    sentLlmPrompt env (transcribe_prompt uri) None videoIndex w in
  extends body_event w w1 /\
  extends body_event w1
    (if String.eqb videoTranscript ""
     then fallback_after_empty_response env videoPath videoIndex chunkNum w1
     else (inl videoTranscript, w1)).2.
Proof.
  pose proof (sentLlmPrompt_extends (transcribe_prompt uri) videoIndex w) as H1.
  destruct (sentLlmPrompt env (transcribe_prompt uri) None videoIndex w) as [t w1].
  simpl in H1. apply (extends_mono _ body_event _ _ prompt_is_body) in H1.
  split; [exact H1|].
  destruct (String.eqb t ""); [|apply extends_refl].
  eapply extends_mono; [exact fallback_is_body|].
  apply fallback_after_empty_response_spec.
Qed.

(** C4. When the upload fails [transcribeVideoLLM] goes straight to the
    OCR fallback: one upload call, no call of the model, and the result is
    that of frame extraction followed by the recognition ensemble.  When
    the upload succeeds and the prompt comes back with the empty string the
    result is that of the same fallback, run after the prompt; whatever
    text the fallback gives, also the empty one, is returned as it is. *)
Theorem transcribeVideoLLM_fallback (videoPath : string) (videoIndex chunkNum : Z)
    (w : World) :
  let '(r, w') := transcribeVideoLLM env videoPath videoIndex chunkNum w in
  exists new, trace w' = new ++ trace w /\
    length (filter (fun e => is_upload e = true) new) = 1%nat /\
    match UploadFileFromPath env (trace w) videoPath with
    | inr _ =>
        generate_outcomes new = [] /\
        r = ocr_fallback env videoPath videoIndex chunkNum
              (emit (EvUploadFile videoPath false) w)
    | inl uploadedFile =>
        let '(videoTranscript, w1) :=
          sentLlmPrompt env (transcribe_prompt (URI uploadedFile)) None videoIndex
            (time_Sleep (30 * second) (emit (EvUploadFile videoPath true) w)) in
        if String.eqb videoTranscript ""
        then r = ocr_fallback env videoPath videoIndex chunkNum w1
        else r = inl videoTranscript
    end.
Proof.
  unfold transcribeVideoLLM.
  destruct (UploadFileFromPath env (trace w) videoPath) as [uploadedFile|err].
  - set (w0 := time_Sleep _ _).
    pose proof (after_upload_extends videoPath videoIndex chunkNum
                  (URI uploadedFile) w0) as H.
    destruct (sentLlmPrompt env (transcribe_prompt (URI uploadedFile)) None
                videoIndex w0) as [t w1].
    destruct H as [H1 H2].
    pose proof (extends_trans _ _ _ _ H1 H2) as H. clear H1 H2.
    pose proof (fallback_after_empty_response_spec videoPath videoIndex chunkNum w1)
      as [Hr _].
    destruct (String.eqb t "").
    + destruct (fallback_after_empty_response env videoPath videoIndex chunkNum w1)
        as [r w2]. simpl in *.
      destruct (extends_none _ is_upload _ _ body_not_upload H) as (new & Ht & Hn).
      exists (EvDeleteFile (Name uploadedFile)
                (bool_decide (DeleteFile env (trace w2) (Name uploadedFile) = None))
              :: new ++ [EvSleep (30 * second); EvUploadFile videoPath true]).
      split; [simpl; rewrite Ht; now rewrite <- app_assoc|].
      split; [|exact Hr].
      rewrite filter_cons, decide_False by discriminate.
      now rewrite filter_app, Hn.
    + simpl in *.
      destruct (extends_none _ is_upload _ _ body_not_upload H) as (new & Ht & Hn).
      exists (EvDeleteFile (Name uploadedFile)
                (bool_decide (DeleteFile env (trace w1) (Name uploadedFile) = None))
              :: new ++ [EvSleep (30 * second); EvUploadFile videoPath true]).
      split; [simpl; rewrite Ht; now rewrite <- app_assoc|].
      split; [|reflexivity].
      rewrite filter_cons, decide_False by discriminate.
      now rewrite filter_app, Hn.
  - set (w0 := emit _ w).
    destruct (fallback_after_upload_failure_spec videoPath videoIndex chunkNum w0)
      as [Hr [(new & Ht & HF) _]].
    destruct (fallback_after_upload_failure env videoPath videoIndex chunkNum w0)
      as [r w']. simpl in *.
    exists (new ++ [EvUploadFile videoPath false]).
    split; [rewrite Ht; now rewrite <- app_assoc|].
    assert (Hn : filter (fun e => is_upload e = true) new = [])
      by exact (Forall_filter_nil _ _ new fallback_not_upload HF).
    split; [now rewrite filter_app, Hn|].
    split; [|exact Hr].
    rewrite generate_outcomes_app, (no_generate_outcomes new HF). reflexivity.
Qed.

(** C9 (as the code has it). After a successful upload the uploaded file
    is deleted exactly once, as the last thing [transcribeVideoLLM] does:
    after the prompt and, when it is taken, after the fallback.  The answer
    of the deletion changes neither the result nor the log: an error of
    the deletion is dropped, not logged. *)
Theorem transcribeVideoLLM_deletes_upload (videoPath : string)
    (videoIndex chunkNum : Z) (w : World) (uploadedFile : File) :
  UploadFileFromPath env (trace w) videoPath = inl uploadedFile ->
  let '(r, w') := transcribeVideoLLM env videoPath videoIndex chunkNum w in
  (exists ok before,
     trace w' = EvDeleteFile (Name uploadedFile) ok :: before ++ trace w /\
     (ok = true <-> DeleteFile env (before ++ trace w) (Name uploadedFile) = None) /\
     filter (fun e => is_delete e = true) before = [] /\
     (1 <= length (generate_outcomes before))%nat /\
     logged (trace w') = logged (before ++ trace w)) /\
  (forall answer,
     (transcribeVideoLLM (with_DeleteFile answer env) videoPath videoIndex chunkNum w).1
       = r /\
     logged (trace (transcribeVideoLLM (with_DeleteFile answer env) videoPath
                      videoIndex chunkNum w).2)
       = logged (trace w')).
Proof.
  intros Hup.
  assert (Hsame : forall answer,
    (transcribeVideoLLM (with_DeleteFile answer env) videoPath videoIndex chunkNum w).1
      = (transcribeVideoLLM env videoPath videoIndex chunkNum w).1 /\
    logged (trace (transcribeVideoLLM (with_DeleteFile answer env) videoPath
                     videoIndex chunkNum w).2)
      = logged (trace (transcribeVideoLLM env videoPath videoIndex chunkNum w).2)).
  { intros answer. unfold transcribeVideoLLM.
    change (UploadFileFromPath (with_DeleteFile answer env))
      with (UploadFileFromPath env).
    rewrite Hup.
    change (sentLlmPrompt (with_DeleteFile answer env)) with (sentLlmPrompt env).
    change (fallback_after_empty_response (with_DeleteFile answer env))
      with (fallback_after_empty_response env).
    destruct (sentLlmPrompt env _ None videoIndex _) as [t w1].
    destruct (if String.eqb t "" then _ else _) as [r w2].
    split; [reflexivity|]. unfold delete_uploaded. simpl.
    now rewrite !logged_cons_delete. }
  unfold transcribeVideoLLM in *. rewrite Hup in *.
  set (w0 := time_Sleep _ _) in *.
  pose proof (after_upload_extends videoPath videoIndex chunkNum
                (URI uploadedFile) w0) as H.
  pose proof (sentLlmPrompt_loop_spec env (transcribe_prompt (URI uploadedFile))
                None videoIndex (Z.to_nat (maxRetries + 1)) 0 w0
                ltac:(unfold maxRetries; lia)) as Hp.
  fold (sentLlmPrompt env (transcribe_prompt (URI uploadedFile)) None videoIndex w0)
    in Hp.
  destruct (sentLlmPrompt env (transcribe_prompt (URI uploadedFile)) None
              videoIndex w0) as [t w1].
  destruct H as [H1 H2].
  destruct (if String.eqb t "" then _ else _) as [r w2]. simpl in H2.
  split; [|exact Hsame].
  destruct (extends_none _ is_delete _ _ body_not_delete H1) as (n1 & Ht1 & Hn1).
  destruct (extends_none _ is_delete _ _ body_not_delete H2) as (n2 & Ht2 & Hn2).
  set (pre := [EvSleep (30 * second); EvUploadFile videoPath true]).
  assert (Htr : trace w2 = (n2 ++ n1 ++ pre) ++ trace w).
  { rewrite Ht2, Ht1. subst pre. simpl. now rewrite <- !app_assoc. }
  exists (bool_decide (DeleteFile env (trace w2) (Name uploadedFile) = None)),
    (n2 ++ n1 ++ pre).
  split; [simpl; now rewrite Htr|].
  split; [rewrite <- Htr; apply bool_decide_eq_true|].
  split; [now rewrite !filter_app, Hn1, Hn2|].
  split.
  - destruct Hp as (pnew & Hpt & _ & Hcases).
    assert (pnew = n1) as -> by (rewrite Ht1 in Hpt; now apply app_inv_tail in Hpt).
    rewrite !generate_outcomes_app, !length_app.
    destruct Hcases as [[-> _]|(k & ? & ? & ? & _ & -> & _)].
    + rewrite repeat_length. unfold maxRetries. simpl. lia.
    + rewrite length_app. simpl. lia.
  - unfold delete_uploaded. simpl. now rewrite logged_cons_delete, Htr.
Qed.

End VideoProps.

(* ------------------------------------------------------------------ *)
(** *** chunkVideo *)

Lemma since_app (w w' : World) (new : list event) :
  trace w' = new ++ trace w -> since w w' = new.
Proof.
  intros H. unfold since. rewrite H, length_app.
  replace (length new + length (trace w) - length (trace w))%nat
    with (length new) by lia.
  now rewrite take_app_length.
Qed.

Example count_95_by_60 : numChunks 95 60 = Some 2.
Proof. reflexivity. Qed.
Example count_120_by_60 : numChunks 120 60 = Some 2.
Proof. reflexivity. Qed.
Example count_half_second : numChunks 0.5 60 = Some 0.
Proof. reflexivity. Qed.
Example count_by_zero : numChunks 95 0 = None.
Proof. reflexivity. Qed.

Section ChunkProps.
Variable env : Env.

(** When every cut succeeds the loop makes the chunks numbered [i],
    [i + 1], ... in this order, chunk [j] cut from offset
    [j * chunkDuration], and leaves the files of every chunk on disk. *)
Lemma chunk_loop_numbering (tempDir videoPath : string)
    (chunkDuration videoIndex : Z) (baseName : string) (left : nat) :
  forall i chunks w chunks' w',
    chunk_loop env left i tempDir videoPath chunkDuration videoIndex baseName
      chunks w = (Chunks chunks', w') ->
    chunks' = chunks ++ map (chunk_at tempDir videoIndex baseName)
                          (seqZ i (Z.of_nat left)) /\
    trace w' = rev (map (chunk_cut videoPath chunkDuration) (seqZ i (Z.of_nat left)))
               ++ trace w /\
    fs w' = list_to_set (flat_map (chunk_files tempDir videoIndex)
                           (seqZ i (Z.of_nat left))) ∪ fs w.
Proof.
  induction left as [|left IH]; intros i chunks w chunks' w' H.
  - simpl in H. injection H as <- <-. simpl. rewrite app_nil_r.
    repeat split. set_solver.
  - simpl chunk_loop in H.
    destruct (ffmpeg_chunk env (trace w) videoPath _ chunkDuration _ _); [discriminate|].
    apply IH in H. destruct H as (-> & -> & ->).
    assert (Hs : seqZ i (Z.of_nat (S left)) = i :: seqZ (i + 1) (Z.of_nat left)).
    { rewrite seqZ_cons by lia. f_equal. f_equal; lia. }
    rewrite Hs. split; [|split].
    + now rewrite <- app_assoc.
    + simpl. now rewrite <- app_assoc.
    + simpl. set_solver.
Qed.

(** Dense numbering: a list returned by [chunkVideo] holds the chunks
    [0, 1, ..., n - 1] for the count [n] the code computed, every one of
    them cut with success, and their files and directory are on disk. *)
Lemma chunkVideo_numbering (videoPath : string) (chunkDuration videoIndex : Z)
    (baseName : string) (w : World) (chunks : list ChunkData) (w' : World) :
  chunkVideo env videoPath chunkDuration videoIndex baseName w = (Chunks chunks, w') ->
  exists tempDir output duration n,
    MkdirTemp env (EvLookPath "ffmpeg" :: trace w) "video_chunks" = inl tempDir /\
    ParseFloat env output = inl duration /\
    numChunks duration chunkDuration = Some n /\
    chunks = map (chunk_at tempDir videoIndex baseName) (seqZ 0 (Z.max 0 n)) /\
    map ChunkNum chunks = seqZ 0 (Z.max 0 n) /\
    trace w' = rev (map (chunk_cut videoPath chunkDuration) (seqZ 0 (Z.max 0 n)))
               ++ EvFfprobe videoPath :: EvMkdirTemp "video_chunks" true
                  :: EvLookPath "ffmpeg" :: trace w /\
    fs w' = list_to_set (flat_map (chunk_files tempDir videoIndex)
                           (seqZ 0 (Z.max 0 n))) ∪ ({[ tempDir ]} ∪ fs w).
Proof.
  unfold chunkVideo. intros H.
  destruct (LookPath env (trace w) "ffmpeg"); [discriminate|].
  destruct (MkdirTemp env _ "video_chunks") as [tempDir|] eqn:Hmk; [|discriminate].
  destruct (ffprobe env _ videoPath) as [output|]; [|discriminate].
  destruct (ParseFloat env output) as [duration|] eqn:Hparse; [|discriminate].
  destruct (numChunks duration chunkDuration) as [n|] eqn:Hn; [|discriminate].
  apply chunk_loop_numbering in H. destruct H as (-> & -> & ->).
  exists tempDir, output, duration, n.
  replace (Z.of_nat (Z.to_nat n)) with (Z.max 0 n) by lia.
  simpl app. repeat split; try assumption.
  rewrite map_map. simpl. apply map_id.
Qed.

(** C1 (the code falls short of it). For a video of 60.5 seconds and
    chunks of 60 seconds the specification asks for [ceil (60.5 / 60) = 2]
    segments; the code computes one, and [chunkVideo] returns the single
    chunk 0: the last half second is in no segment. *)
Theorem chunkVideo_drops_fractional_tail :
  float_fraction 60.5 = Some (121, 2) /\
  spec_segment_count 60.5 60 = Some 2 /\
  numChunks 60.5 60 = Some 1 /\
  (chunkVideo fractional_env "lecture.mp4" 60 1 "lecture" empty_world).1
  = Chunks [chunk_at "/tmp/video_chunks1" 1 "lecture" 0].
Proof. vm_compute. repeat split. Qed.

End ChunkProps.

(* ------------------------------------------------------------------ *)
(** *** Temporary files and directories *)

Lemma removals_cons (path : string) (e : event) (t : list event) :
  removals path (e :: t)
  = ((if is_removal path e then 1 else 0) + removals path t)%nat.
Proof.
  unfold removals. rewrite filter_cons.
  destruct (is_removal path e).
  - now rewrite decide_True by reflexivity.
  - now rewrite decide_False by discriminate.
Qed.

Lemma removals_app (path : string) (a b : list event) :
  removals path (a ++ b) = (removals path a + removals path b)%nat.
Proof. unfold removals. now rewrite filter_app, length_app. Qed.

Lemma removals_none (path : string) (P : event -> bool) (t : list event) :
  (forall e, P e = true -> is_removal path e = false) ->
  Forall (fun e => P e = true) t -> removals path t = 0%nat.
Proof.
  intros HP F. unfold removals.
  rewrite (Forall_filter_nil P (is_removal path) t HP F). reflexivity.
Qed.

Lemma is_removal_RemoveAll (path : string) : is_removal path (EvRemoveAll path) = true.
Proof. apply String.eqb_refl. Qed.

Lemma is_removal_Remove (path : string) : is_removal path (EvRemove path) = true.
Proof. apply String.eqb_refl. Qed.

Lemma RemoveAll_gone (path : string) (w : World) :
  (path ∉ fs (os_RemoveAll path w)) /\
  (forall p, under path p = true -> p ∉ fs (os_RemoveAll path w)).
Proof.
  unfold os_RemoveAll. simpl. split.
  - intros [[H _] _]%elem_of_filter. now apply H.
  - intros p Hp [[_ H] _]%elem_of_filter. congruence.
Qed.

Lemma temp_not_removal (path : string) (e : event) :
  temp_event e = true -> is_removal path e = false.
Proof. now destruct e. Qed.

(** Make [since w w'] explicit when the trace of [w'] computes to conses
    on the trace of [w]. *)
Ltac prefix_of t base :=
  lazymatch t with
  | base => constr:(@nil event)
  | ?e :: ?t' => let r := prefix_of t' base in constr:(e :: r)
  end.

Ltac since_explicit :=
  match goal with
  | |- context [since ?w ?w'] =>
      let t := eval simpl in (trace w') in
      let new := prefix_of t (trace w) in
      rewrite (since_app w w' new) by reflexivity
  end.

Section CleanupProps.
Variable env : Env.

Lemma extractFrames_failure_removes_dir (videoPath : string)
    (videoIndex chunkNum : Z) (w : World) (tempDir : string) (err : error)
    (w' : World) :
  MkdirTemp env (trace w) (frames_pattern videoIndex chunkNum) = inl tempDir ->
  extractFrames env videoPath videoIndex chunkNum w = (inr err, w') ->
  (tempDir ∉ fs w') /\
  (forall p, under tempDir p = true -> p ∉ fs w') /\
  removals tempDir (since w w') = 1%nat.
Proof.
  intros Hmk. unfold extractFrames. rewrite Hmk.
  destruct (ffmpeg_frames env _ videoPath tempDir) as [names|e]; [discriminate|].
  intros [= <- <-].
  destruct (RemoveAll_gone tempDir
              (emit (EvFfmpegFrames videoPath tempDir false)
                 (emit (EvMkdirTemp (frames_pattern videoIndex chunkNum) true)
                    (set_fs ({[tempDir]} ∪ fs w) w)))) as [H1 H2].
  split; [exact H1|]. split; [exact H2|].
  since_explicit.
  rewrite !removals_cons, is_removal_RemoveAll. reflexivity.
Qed.

Lemma chunkVideo_probe_failure_removes_dir (videoPath : string)
    (chunkDuration videoIndex : Z) (baseName : string) (w : World)
    (tempDir : string) :
  LookPath env (trace w) "ffmpeg" = None ->
  MkdirTemp env (EvLookPath "ffmpeg" :: trace w) "video_chunks" = inl tempDir ->
  probe_fails env (EvMkdirTemp "video_chunks" true :: EvLookPath "ffmpeg" :: trace w)
    videoPath ->
  let '(r, w') := chunkVideo env videoPath chunkDuration videoIndex baseName w in
  (exists e, r = ChunkErr e) /\
  (tempDir ∉ fs w') /\
  (forall p, under tempDir p = true -> p ∉ fs w') /\
  removals tempDir (since w w') = 1%nat.
Proof.
  intros Hlook Hmk Hprobe. unfold chunkVideo, probe_fails in *.
  rewrite Hlook. simpl trace. rewrite Hmk. simpl trace.
  set (w1 := emit (EvFfprobe videoPath) _).
  assert (Hgoal : forall e,
    (exists e', ChunkErr e = ChunkErr e') /\
    (tempDir ∉ fs (os_RemoveAll tempDir w1)) /\
    (forall p, under tempDir p = true -> p ∉ fs (os_RemoveAll tempDir w1)) /\
    removals tempDir (since w (os_RemoveAll tempDir w1)) = 1%nat).
  { intros e. split; [now exists e|].
    destruct (RemoveAll_gone tempDir w1) as [H1 H2].
    split; [exact H1|]. split; [exact H2|].
    since_explicit.
    rewrite !removals_cons, is_removal_RemoveAll. reflexivity. }
  destruct (ffprobe env _ videoPath) as [output|e]; [|apply Hgoal].
  destruct (ParseFloat env output) as [duration|e]; [contradiction | apply Hgoal].
Qed.

(** When a cut fails the loop stops there: the cuts before it went
    through and their files stay on disk. *)
Lemma chunk_loop_failure (tempDir videoPath : string)
    (chunkDuration videoIndex : Z) (baseName : string) (left : nat) :
  forall i chunks w e w',
    chunk_loop env left i tempDir videoPath chunkDuration videoIndex baseName
      chunks w = (ChunkErr e, w') ->
    exists k : nat,
      (k < left)%nat /\
      trace w' = EvFfmpegChunk videoPath (wrap64 ((i + Z.of_nat k) * chunkDuration))
                   chunkDuration false
                 :: rev (map (chunk_cut videoPath chunkDuration) (seqZ i (Z.of_nat k)))
                 ++ trace w /\
      fs w' = list_to_set (flat_map (chunk_files tempDir videoIndex)
                             (seqZ i (Z.of_nat k))) ∪ fs w.
Proof.
  induction left as [|left IH]; intros i chunks w e w' H; [discriminate|].
  simpl chunk_loop in H.
  destruct (ffmpeg_chunk env (trace w) videoPath _ chunkDuration _ _).
  - injection H as _ <-. exists 0%nat. split; [lia|]. simpl.
    replace (i + Z.of_nat 0) with i by lia. split; [reflexivity|]. set_solver.
  - apply IH in H. destruct H as (k & Hk & Ht & Hfs).
    exists (S k). split; [lia|].
    assert (Hs : seqZ i (Z.of_nat (S k)) = i :: seqZ (i + 1) (Z.of_nat k)).
    { rewrite seqZ_cons by lia. f_equal. f_equal; lia. }
    rewrite Hs, Ht, Hfs. split.
    + replace (i + 1 + Z.of_nat k) with (i + Z.of_nat (S k)) by lia.
      simpl. now rewrite <- app_assoc.
    + simpl. set_solver.
Qed.

(** When ffmpeg fails on a cut, [chunkVideo] returns at once and removes
    nothing, in every environment: its temp directory and the files of the
    chunks cut before stay on disk, beside everything that was there. *)
Lemma chunkVideo_cut_failure_removes_nothing (videoPath : string)
    (chunkDuration videoIndex : Z) (baseName : string) (w : World)
    (e : error) (w' : World) :
  chunkVideo env videoPath chunkDuration videoIndex baseName w = (ChunkErr e, w') ->
  (exists start, In (EvFfmpegChunk videoPath start chunkDuration false) (since w w')) ->
  exists tempDir (k : nat),
    MkdirTemp env (EvLookPath "ffmpeg" :: trace w) "video_chunks" = inl tempDir /\
    fs w' = list_to_set (flat_map (chunk_files tempDir videoIndex)
                           (seqZ 0 (Z.of_nat k)))
            ∪ ({[ tempDir ]} ∪ fs w) /\
    forall p, removals p (since w w') = 0%nat.
Proof.
  unfold chunkVideo. intros H [start Hin].
  destruct (LookPath env (trace w) "ffmpeg").
  { injection H as _ <-. revert Hin. since_explicit. intros [?|[]]; discriminate. }
  destruct (MkdirTemp env _ "video_chunks") as [tempDir|] eqn:Hmk.
  2:{ injection H as _ <-. revert Hin. since_explicit.
      intros [?|[?|[]]]; discriminate. }
  destruct (ffprobe env _ videoPath) as [output|].
  2:{ injection H as _ <-. revert Hin. since_explicit.
      intros [?|[?|[?|[?|[]]]]]; discriminate. }
  destruct (ParseFloat env output) as [duration|].
  2:{ injection H as _ <-. revert Hin. since_explicit.
      intros [?|[?|[?|[?|[]]]]]; discriminate. }
  destruct (numChunks duration chunkDuration) as [n|]; [|discriminate].
  apply chunk_loop_failure in H. destruct H as (k & _ & Ht & Hfs).
  exists tempDir, k. split; [reflexivity|]. split; [exact Hfs|].
  set (cuts := map (chunk_cut videoPath chunkDuration) (seqZ 0 (Z.of_nat k))) in *.
  rewrite (since_app w w'
             (EvFfmpegChunk videoPath (wrap64 ((0 + Z.of_nat k) * chunkDuration))
                chunkDuration false
              :: rev cuts ++ [EvFfprobe videoPath; EvMkdirTemp "video_chunks" true;
                              EvLookPath "ffmpeg"]))
    by (rewrite Ht; simpl; now rewrite <- app_assoc).
  pose (good := fun ev : event =>
                  match ev with EvFfmpegChunk _ _ _ true => true | _ => false end).
  assert (Hcuts : Forall (fun ev => good ev = true) (rev cuts)).
  { apply Forall_rev, Forall_forall. intros ev [i [-> _]]%list_elem_of_fmap.
    reflexivity. }
  intros p. rewrite removals_cons. simpl. rewrite removals_app. simpl.
  rewrite (removals_none p good (rev cuts)); [reflexivity| |exact Hcuts].
  intros ev. destruct ev; try discriminate. reflexivity.
Qed.

(** When the upload fails and ffmpeg leaves no [.jpg] file in the frames
    directory, in every environment: [transcribeVideoLLM] returns the
    empty text and no error, and the frames directory stays on disk; with
    no frame there is no first frame to take the directory from, and
    nothing is removed. *)
Lemma transcribeVideoLLM_without_frames_keeps_dir (videoPath : string)
    (videoIndex chunkNum : Z) (w : World) (e : error) (tempDir : string)
    (names : list string) :
  UploadFileFromPath env (trace w) videoPath = inr e ->
  MkdirTemp env (EvUploadFile videoPath false :: trace w)
    (frames_pattern videoIndex chunkNum) = inl tempDir ->
  ffmpeg_frames env
    (EvMkdirTemp (frames_pattern videoIndex chunkNum) true
     :: EvUploadFile videoPath false :: trace w) videoPath tempDir = inl names ->
  Forall (fun n => HasSuffix n ".jpg" = false) names ->
  let '(r, w') := transcribeVideoLLM env videoPath videoIndex chunkNum w in
  r = inl "" /\ tempDir ∈ fs w' /\ forall p, removals p (since w w') = 0%nat.
Proof.
  intros Hup Hmk Hff Hnames.
  unfold transcribeVideoLLM, fallback_after_upload_failure, extractFrames.
  rewrite Hup. simpl trace. rewrite Hmk. simpl trace. rewrite Hff.
  assert (Hnone : filter (fun n => HasSuffix n ".jpg" = true) names = []).
  { clear Hff. induction Hnames as [|n l Hn _ IH]; [reflexivity|].
    rewrite filter_cons, decide_False; [exact IH|]. rewrite Hn. discriminate. }
  rewrite Hnone. simpl.
  split; [reflexivity|]. split; [set_solver|].
  intros p. since_explicit. reflexivity.
Qed.

Lemma chunkVideo_list_is_whole (videoPath : string) (chunkDuration videoIndex : Z)
    (baseName : string) (w : World) (chunks : list ChunkData) (w' : World) :
  chunkVideo env videoPath chunkDuration videoIndex baseName w = (Chunks chunks, w') ->
  filter (fun e => is_failed_cut e = true) (since w w') = [] /\
  Forall (fun c => VideoPath c ∈ fs w' /\ AudioPath c ∈ fs w') chunks.
Proof.
  intros H. apply chunkVideo_numbering in H.
  destruct H as (tempDir & output & duration & n & _ & _ & _ & -> & _ & Ht & Hfs).
  split.
  - rewrite (since_app w w'
               (rev (map (chunk_cut videoPath chunkDuration) (seqZ 0 (Z.max 0 n)))
                ++ [EvFfprobe videoPath; EvMkdirTemp "video_chunks" true;
                    EvLookPath "ffmpeg"]))
      by (rewrite Ht; now rewrite <- app_assoc).
    rewrite filter_app. simpl.
    rewrite (Forall_filter_nil
               (fun e => match e with EvFfmpegChunk _ _ _ true => true | _ => false end)
               is_failed_cut).
    + reflexivity.
    + intros e. destruct e; try discriminate. now destruct ok.
    + apply Forall_rev, Forall_forall. intros e [i [-> _]]%list_elem_of_fmap.
      reflexivity.
  - apply Forall_forall. intros c [i [-> Hi]]%list_elem_of_fmap.
    rewrite Hfs. simpl.
    assert (Hin : forall p, p ∈ chunk_files tempDir videoIndex i ->
              p ∈ (list_to_set (flat_map (chunk_files tempDir videoIndex)
                                  (seqZ 0 (Z.max 0 n))) : gset string)).
    { intros p Hp. apply elem_of_list_to_set, list_elem_of_In, in_flat_map.
      exists i. split; now apply list_elem_of_In. }
    split; apply elem_of_union_l, Hin; unfold chunk_files; set_solver.
Qed.

Lemma ocr_with_temp_keeps_files (fp tempFilePath : string) (w : World) :
  fs (ocr_with_temp env fp tempFilePath w).2 = fs w /\
  exists new, trace (ocr_with_temp env fp tempFilePath w).2 = new ++ trace w /\
              Forall (fun e => temp_event e = true) new.
Proof.
  unfold ocr_with_temp. destruct (temp_Write env (trace w) tempFilePath).
  - split; [reflexivity|]. eexists [_; _]. split; [reflexivity|]. now repeat constructor.
  - destruct (temp_Close env _ tempFilePath).
    + split; [reflexivity|]. eexists [_; _]. split; [reflexivity|].
      now repeat constructor.
    + destruct (tesseract env _ tempFilePath);
        (split; [reflexivity|]; eexists [_; _; _]; split; [reflexivity|];
         now repeat constructor).
Qed.

Lemma ocr_worker_removes_temp (fp : string) (w : World) :
  let w' := (ocr_worker env fp w).2 in
  (forall tmp,
     In (EvCreateTemp "ocr_*.jpg" true) (since w w') ->
     CreateTemp env (EvEncode fp true :: EvDecode fp true :: EvOpen fp true :: trace w)
       "ocr_*.jpg" = inl tmp ->
     (tmp ∉ fs w') /\ removals tmp (since w w') = 1%nat) /\
  (~ In (EvCreateTemp "ocr_*.jpg" true) (since w w') ->
     fs w' = fs w /\ forall p, removals p (since w w') = 0%nat).
Proof.
  unfold ocr_worker.
  destruct (os_Open env (trace w) fp).
  { simpl. since_explicit.
    split; [intros tmp [H|[]]; discriminate | now intros _]. }
  destruct (image_Decode env _ fp).
  { simpl. since_explicit.
    split; [intros tmp [H|[H|[]]]; discriminate | now intros _]. }
  destruct (jpeg_Encode env _ fp).
  { simpl. since_explicit.
    split; [intros tmp [H|[H|[H|[]]]]; discriminate | now intros _]. }
  simpl trace.
  destruct (CreateTemp env _ "ocr_*.jpg") as [tempFilePath|err].
  - match goal with |- context [ocr_with_temp env fp tempFilePath ?w1] =>
      destruct (ocr_with_temp_keeps_files fp tempFilePath w1) as [Hfs (new & Ht & HF)];
      destruct (ocr_with_temp env fp tempFilePath w1) as [r w2] end.
    simpl in Hfs, Ht. cbv zeta. simpl snd.
    assert (Hsince : since w (os_Remove tempFilePath w2)
                     = EvRemove tempFilePath :: new
                       ++ [EvCreateTemp "ocr_*.jpg" true; EvEncode fp true;
                           EvDecode fp true; EvOpen fp true]).
    { apply since_app. simpl. rewrite Ht. now rewrite <- app_assoc. }
    rewrite Hsince. split.
    + intros tmp _ [= <-]. split.
      * unfold os_Remove. simpl. set_solver.
      * rewrite removals_cons, removals_app, is_removal_Remove.
        rewrite (removals_none _ temp_event new (temp_not_removal _) HF).
        reflexivity.
    + intros Hno. exfalso. apply Hno. right. apply in_or_app. right. now left.
  - simpl. since_explicit.
    split; [intros tmp [H|[H|[H|[H|[]]]]]; discriminate | now intros _].
Qed.

End CleanupProps.

(* ------------------------------------------------------------------ *)
(** *** processChunk *)

Section ProcessProps.
Variable env : Env.
Variable cfg : Config.
Variable chunk : ChunkData.
Variables audioOutputFile videoOutputFile : string.

Abbreviation step := (step_task env cfg chunk audioOutputFile videoOutputFile).
Abbreviation gstep := (goroutine_step env cfg chunk audioOutputFile videoOutputFile).
Abbreviation reach := (rtc (pstep env cfg chunk audioOutputFile videoOutputFile)).

Lemma body_is_task (e : event) : body_event e = true -> task_event e = true.
Proof. destruct e; simpl; auto. Qed.

Lemma transcribeVideoLLM_extends (videoPath : string) (videoIndex chunkNum : Z)
    (w : World) :
  extends task_event w (transcribeVideoLLM env videoPath videoIndex chunkNum w).2 /\
  exists ok rest,
    trace (transcribeVideoLLM env videoPath videoIndex chunkNum w).2
    = rest ++ EvUploadFile videoPath ok :: trace w.
Proof.
  unfold transcribeVideoLLM.
  destruct (UploadFileFromPath env (trace w) videoPath) as [uploadedFile|err].
  - set (w0 := time_Sleep _ _).
    pose proof (after_upload_extends env videoPath videoIndex chunkNum
                  (URI uploadedFile) w0) as H.
    destruct (sentLlmPrompt env _ None videoIndex w0) as [t w1].
    destruct H as [H1 H2]. pose proof (extends_trans _ _ _ _ H1 H2) as H.
    destruct (if String.eqb t "" then _ else _) as [r w2]. simpl in *.
    assert (H0 : extends task_event w w0) by (subst w0; grow).
    apply (extends_mono _ task_event _ _ body_is_task) in H.
    split.
    + unfold delete_uploaded. apply extends_emit; [reflexivity|].
      eapply extends_trans; eassumption.
    + destruct H as [(new & Ht & _) _].
      eexists true, (_ :: new ++ [_]). unfold delete_uploaded. simpl.
      rewrite Ht. subst w0. simpl. now rewrite <- app_assoc.
  - destruct (fallback_after_upload_failure_spec env videoPath videoIndex chunkNum
                (emit (EvUploadFile videoPath false) w)) as [_ H].
    destruct (fallback_after_upload_failure env _ _ _ _) as [r w1]. simpl in *.
    apply (extends_mono _ task_event _ _
             (fun e He => body_is_task e (fallback_is_body e He))) in H.
    split.
    + eapply extends_trans; [|exact H]. grow.
    + destruct H as [(new & Ht & _) _]. exists false, new. exact Ht.
Qed.

Lemma task_transcribe_extends (t : task) (w : World) :
  extends task_event w
    (task_transcribe env cfg chunk t w).2 /\
  exists ok rest,
    trace (task_transcribe env cfg chunk t w).2
    = rest ++ transcribed chunk t ok :: trace w.
Proof.
  destruct t; simpl.
  - unfold transcribeAudioWhisperCLI.
    destruct (whisper env (trace w) _); simpl.
    + split; [grow|]. now exists true, [].
    + split; [grow|]. now exists false, [].
  - apply transcribeVideoLLM_extends.
Qed.

(** What a step of a goroutine does, by where it stands. *)
Lemma goroutine_step_spec (t : task) (p p' : pc) (w w' : World) :
  gstep t p w = Some (p', w') ->
  match p with
  | PcTranscribe =>
      extends task_event w w' /\
      (exists ok rest, trace w' = rest ++ transcribed chunk t ok :: trace w) /\
      ((exists text, p' = PcWrite text) \/ (exists e, p' = PcReport e))
  | PcReport e =>
      p' = PcWrite (placeholder chunk t) /\
      trace w' = EvSend e :: trace w /\ outputs w' = outputs w /\
      errorChannel w' = errorChannel w ++ [e] /\
      (length (errorChannel w) < errorChannel_cap)%nat
  | PcWrite text =>
      exists ok,
        trace w' = EvFprint (task_file audioOutputFile videoOutputFile t)
                     (record chunk text) ok :: trace w /\
        errorChannel w' = errorChannel w /\
        (if ok
         then p' = PcRemove /\
              outputs w' = <[ task_file audioOutputFile videoOutputFile t :=
                              default [] (outputs w !! task_file audioOutputFile
                                                         videoOutputFile t)
                              ++ [record chunk text] ]> (outputs w)
         else (exists e, p' = PcReportWrite e) /\ outputs w' = outputs w)
  | PcReportWrite e =>
      p' = PcRemove /\
      trace w' = EvSend e :: trace w /\ outputs w' = outputs w /\
      errorChannel w' = errorChannel w ++ [e] /\
      (length (errorChannel w) < errorChannel_cap)%nat
  | PcRemove =>
      p' = PcDone /\ w' = os_Remove (task_path chunk t) w
  | PcDone => False
  end.
Proof.
  destruct p; simpl.
  - pose proof (task_transcribe_extends t w) as [H1 H2].
    destruct (task_transcribe env cfg chunk t w) as [[text|err] w1];
      intros [= <- <-]; (split; [exact H1|]; split; [exact H2|]); eauto.
  - unfold send_error. case_decide; [|discriminate].
    intros [= <- <-]. auto.
  - unfold fprint.
    destruct (Fprint env (trace w) _ _); intros [= <- <-].
    + exists false. repeat split. eauto.
    + exists true. repeat split.
  - unfold send_error. case_decide; [|discriminate].
    intros [= <- <-]. auto.
  - intros [= <- <-]. auto.
  - discriminate.
Qed.

(** The pc of the other goroutine does not move. *)
Lemma step_task_spec (t : task) (s s' : pstate) :
  step t s = Some s' ->
  gstep t (task_pc t s) (world s) = Some (task_pc t s', world s') /\
  forall t', t' <> t -> task_pc t' s' = task_pc t' s.
Proof.
  unfold step_task.
  destruct (gstep t (task_pc t s) (world s)) as [[p w]|]; [|discriminate].
  intros [= <-]. destruct t; simpl; (split; [reflexivity|]);
    intros [] Hne; try reflexivity; congruence.
Qed.

(** Every step only adds events. *)
Lemma step_task_trace (t : task) (s s' : pstate) :
  step t s = Some s' ->
  exists added, trace (world s') = added ++ trace (world s) /\ added <> [].
Proof.
  intros [H _]%step_task_spec. apply goroutine_step_spec in H.
  destruct (task_pc t s).
  - destruct H as (_ & (ok & rest & ->) & _).
    exists (rest ++ [transcribed chunk t ok]).
    rewrite <- app_assoc. split; [reflexivity|]. now destruct rest.
  - destruct H as (_ & -> & _). now exists [EvSend e].
  - destruct H as (ok & -> & _). now eexists [_].
  - destruct H as (_ & -> & _). now exists [EvSend e].
  - destruct H as (_ & ->). now eexists [_].
  - contradiction.
Qed.

Lemma reach_trace (w : World) (s : pstate) :
  reach (spawn w) s -> trace (world s) = since w (world s) ++ trace w.
Proof.
  intros H. apply rtc_nsteps in H. destruct H as [n H]. revert s H.
  induction n as [|n IH]; intros s H.
  - apply nsteps_once_inv' in H || inversion H; subst.
    simpl. unfold since. simpl. now rewrite Nat.sub_diag.
  - apply nsteps_inv_r in H. destruct H as (s1 & H1 & [t Ht]).
    apply IH in H1. apply step_task_trace in Ht. destruct Ht as (added & Ht & _).
    rewrite (since_app w (world s) (added ++ since w (world s1))).
    + rewrite Ht, H1 at 1. now rewrite app_assoc.
    + rewrite Ht, H1 at 1. now rewrite app_assoc.
Qed.

Lemma run_schedule_reach (sched : list task) (s : pstate) :
  reach s (run_schedule env cfg chunk audioOutputFile videoOutputFile sched s).
Proof.
  revert s. induction sched as [|t sched IH]; intros s; [apply rtc_refl|].
  simpl. destruct (step t s) as [s1|] eqn:Hs; simpl; [|apply IH].
  eapply rtc_l; [exists t; exact Hs | apply IH].
Qed.

Abbreviation inv := (task_inv chunk audioOutputFile videoOutputFile).

Lemma task_inv_grows (t : task) (p : pc) (added new : list event) :
  inv t p new -> inv t p (added ++ new).
Proof.
  destruct p; simpl; auto.
  - intros [b H]. exists b. apply in_or_app. now right.
  - intros [b H]. exists b. apply in_or_app. now right.
  - intros [[b H] (text & ok & H')]. split.
    + exists b. apply in_or_app. now right.
    + exists text, ok. apply in_or_app. now right.
  - intros [[b H] (text & ok & H')]. split.
    + exists b. apply in_or_app. now right.
    + exists text, ok. apply in_or_app. now right.
  - intros (n1 & n2 & text & ok & b & -> & H1 & H2).
    exists (added ++ n1), n2, text, ok, b. now rewrite <- app_assoc.
Qed.

Lemma reach_task_inv (w : World) (s : pstate) :
  reach (spawn w) s -> forall t, inv t (task_pc t s) (since w (world s)).
Proof.
  intros H. apply rtc_nsteps in H. destruct H as [n H]. revert s H.
  induction n as [|n IH]; intros s H t.
  - inversion H; subst. now destruct t.
  - apply nsteps_inv_r in H. destruct H as (s1 & H1 & [t' Ht']).
    pose proof (reach_trace w s1 (rtc_nsteps_2 _ _ _ H1)) as Htr1.
    specialize (IH s1 H1).
    destruct (step_task_trace t' s1 s Ht') as (added & Hadd & _).
    destruct (step_task_spec t' s1 s Ht') as [Hg Hother].
    assert (Hsince : since w (world s) = added ++ since w (world s1)).
    { apply since_app. rewrite Hadd, Htr1 at 1. now rewrite app_assoc. }
    rewrite Hsince.
    destruct (decide (t = t')) as [->|Hne].
    + specialize (IH t'). apply goroutine_step_spec in Hg.
      destruct (task_pc t' s1) eqn:Hpc.
      * destruct Hg as (_ & (ok & rest & Hrest) & Hp').
        assert (Hin : In (transcribed chunk t' ok) (added ++ since w (world s1))).
        { rewrite Hadd in Hrest.
          assert (added = rest ++ [transcribed chunk t' ok]) as ->.
          { apply (app_inv_tail (trace (world s1))). rewrite Hrest.
            now rewrite <- app_assoc. }
          apply in_or_app. left. apply in_or_app. right. now left. }
        destruct Hp' as [[text ->]|[e ->]]; simpl; eauto.
      * destruct Hg as (-> & _). simpl in *. now apply task_inv_grows with (p := PcWrite "").
      * destruct Hg as (ok & Hw & _ & Hp').
        assert (added = [EvFprint (task_file audioOutputFile videoOutputFile t')
                           (record chunk transcript) ok]) as ->.
        { apply (app_inv_tail (trace (world s1))). now rewrite <- Hadd, Hw. }
        simpl in IH. destruct IH as [b Hb].
        assert (Hboth :
          (exists b, In (transcribed chunk t' b)
                       ([EvFprint (task_file audioOutputFile videoOutputFile t')
                           (record chunk transcript) ok] ++ since w (world s1))) /\
          (exists text ok0,
             In (EvFprint (task_file audioOutputFile videoOutputFile t')
                   (record chunk text) ok0)
                ([EvFprint (task_file audioOutputFile videoOutputFile t')
                    (record chunk transcript) ok] ++ since w (world s1)))).
        { split; [exists b; now right|]. exists transcript, ok. now left. }
        destruct ok.
        -- destruct Hp' as [-> _]. exact Hboth.
        -- destruct Hp' as [[e ->] _]. exact Hboth.
      * destruct Hg as (-> & _). simpl in *.
        now apply task_inv_grows with (p := PcRemove).
      * destruct Hg as (-> & Hrm). simpl in IH.
        destruct IH as [[b Hb] (text & ok & Hw)].
        assert (added = [EvRemove (task_path chunk t')]) as ->.
        { apply (app_inv_tail (trace (world s1))). now rewrite <- Hadd, Hrm. }
        exists [], (since w (world s1)), text, ok, b. auto.
      * contradiction.
    + rewrite (Hother t Hne). apply task_inv_grows, IH.
Qed.

(** Until a goroutine is done its chunk file is on disk, when the
    transcriptions leave it alone. *)
Lemma reach_file_kept (w : World) (s : pstate) (t : task) :
  reach (spawn w) s ->
  AudioPath chunk <> VideoPath chunk ->
  (forall t' w0, task_path chunk t ∈ fs w0 ->
                 task_path chunk t ∈ fs (task_transcribe env cfg chunk t' w0).2) ->
  task_path chunk t ∈ fs w ->
  task_pc t s <> PcDone -> task_path chunk t ∈ fs (world s).
Proof.
  intros H Hdiff Hkeep Hin. apply rtc_nsteps in H. destruct H as [n H]. revert s H.
  induction n as [|n IH]; intros s H Hpc.
  - inversion H; subst. exact Hin.
  - apply nsteps_inv_r in H. destruct H as (s1 & H1 & [t' Ht']).
    specialize (IH s1 H1).
    destruct (step_task_spec t' s1 s Ht') as [Hg Hother].
    assert (Hpc1 : task_pc t s1 <> PcDone).
    { destruct (decide (t = t')) as [->|Hne]; [|now rewrite <- (Hother t Hne)].
      intros Hd. rewrite Hd in Hg. discriminate. }
    specialize (IH Hpc1).
    destruct (task_pc t' s1) eqn:Hpc'; simpl in Hg.
    + specialize (Hkeep t' (world s1) IH).
      destruct (task_transcribe env cfg chunk t' (world s1)) as [[x|x] w1];
        injection Hg as _ <-; exact Hkeep.
    + unfold send_error in Hg. case_decide; [|discriminate].
      injection Hg as _ <-. exact IH.
    + unfold fprint in Hg. destruct (Fprint env _ _ _); injection Hg as _ <-; exact IH.
    + unfold send_error in Hg. case_decide; [|discriminate].
      injection Hg as _ <-. exact IH.
    + injection Hg as Hd <-. simpl.
      assert (t <> t') by (intros ->; congruence).
      apply elem_of_difference. split; [exact IH|].
      intros Heq%elem_of_singleton. destruct t, t'; simpl in Heq; congruence.
    + discriminate.
Qed.

(** C8 (as the code has it). In every interleaving of the two goroutines
    of a chunk: a goroutine that is done removed its own chunk file after
    its transcription had run and after the write of its record had been
    tried; and as long as a goroutine is not done its chunk file is still
    on disk (when the transcriptions themselves leave the chunk files
    alone).  Nothing ties the removal to the other goroutine. *)
Theorem processChunk_removes_after_own_record (w : World) (s : pstate) (t : task) :
  reach (spawn w) s ->
  AudioPath chunk <> VideoPath chunk ->
  (forall t' w0, task_path chunk t ∈ fs w0 ->
                 task_path chunk t ∈ fs (task_transcribe env cfg chunk t' w0).2) ->
  task_path chunk t ∈ fs w ->
  (task_pc t s = PcDone ->
     exists n1 n2 text ok b,
       since w (world s) = n1 ++ EvRemove (task_path chunk t) :: n2 /\
       In (EvFprint (task_file audioOutputFile videoOutputFile t)
             (record chunk text) ok) n2 /\
       In (transcribed chunk t b) n2) /\
  (task_pc t s <> PcDone -> task_path chunk t ∈ fs (world s)).
Proof.
  intros H Hdiff Hkeep Hin. split.
  - intros Hd. pose proof (reach_task_inv w s H t) as Hinv.
    rewrite Hd in Hinv. exact Hinv.
  - now apply (reach_file_kept w s t).
Qed.

(** With the error channel full and whisper failing, the audio goroutine
    stops at its send, whatever the schedule: [processChunk] never returns
    and no audio record is written. *)
Lemma full_channel_inv (w : World) (s : pstate) :
  (forall h args, exists e, whisper env h args = inr e) ->
  (errorChannel_cap <= length (errorChannel w))%nat ->
  audioOutputFile <> videoOutputFile ->
  reach (spawn w) s ->
  (audio_pc s = PcTranscribe \/ exists e, audio_pc s = PcReport e) /\
  (errorChannel_cap <= length (errorChannel (world s)))%nat /\
  outputs (world s) !! audioOutputFile = outputs w !! audioOutputFile.
Proof.
  intros Hwh Hfull Hne H. apply rtc_nsteps in H. destruct H as [n H]. revert s H.
  induction n as [|n IH]; intros s H.
  - inversion H; subst. simpl. auto.
  - apply nsteps_inv_r in H. destruct H as (s1 & H1 & [t Ht]).
    destruct (IH s1 H1) as (Hpc & Hlen & Hout).
    destruct (step_task_spec t s1 s Ht) as [Hg Hother].
    destruct t.
    + simpl in Hg. destruct Hpc as [Hpc|[e Hpc]]; rewrite Hpc in Hg.
      * simpl in Hg. unfold transcribeAudioWhisperCLI in Hg.
        destruct (Hwh (trace (world s1))
                    (whisperCLIPath cfg
                     :: (if String.eqb (whisperLanguage cfg) ""
                         then ["--model"; whisperModelPath cfg; "--threads";
                               itoa (whisperThreads cfg)]
                         else ["--model"; whisperModelPath cfg; "--threads";
                               itoa (whisperThreads cfg)]
                              ++ ["--language"; whisperLanguage cfg])
                        ++ [AudioPath chunk])) as [e He].
        rewrite He in Hg. injection Hg as Hp <-. simpl.
        split; [right; eauto|]. split; assumption.
      * simpl in Hg. unfold send_error in Hg.
        rewrite decide_False in Hg by lia. discriminate.
    + assert (Hsame : audio_pc s = audio_pc s1)
        by (apply (Hother AudioTask); discriminate).
      rewrite Hsame. split; [exact Hpc|].
      apply goroutine_step_spec in Hg. simpl in Hg.
      destruct (video_pc s1).
      * destruct Hg as ([_ [Ho Hc]] & _). now rewrite Ho, Hc.
      * destruct Hg as (_ & _ & _ & _ & Hlt). lia.
      * destruct Hg as (ok & _ & Hc & Hp). rewrite Hc. split; [exact Hlen|].
        destruct ok; destruct Hp as [_ ->]; [|exact Hout].
        simpl. now rewrite lookup_insert_ne by congruence.
      * destruct Hg as (_ & _ & _ & _ & Hlt). lia.
      * destruct Hg as (_ & ->). simpl. now split.
      * contradiction.
Qed.

Lemma processChunk_full_channel_blocks (sched : list task) (w : World) :
  Err chunk = None ->
  (forall h args, exists e, whisper env h args = inr e) ->
  (errorChannel_cap <= length (errorChannel w))%nat ->
  audioOutputFile <> videoOutputFile ->
  exists w',
    processChunk env cfg chunk audioOutputFile videoOutputFile sched w = Blocked w' /\
    outputs w' !! audioOutputFile = outputs w !! audioOutputFile.
Proof.
  intros Herr Hwh Hfull Hne. unfold processChunk. rewrite Herr.
  set (s := run_schedule _ _ _ _ _ _ _).
  destruct (full_channel_inv w s Hwh Hfull Hne (run_schedule_reach _ _))
    as (Hpc & _ & Hout).
  exists (world s). split; [|exact Hout].
  destruct Hpc as [->|[e ->]]; reflexivity.
Qed.

End ProcessProps.

(* ------------------------------------------------------------------ *)
(** *** main *)

Section MainProps.
Variable env : Env.
Variable cfg : Config.

(** A body that stops ends the loop: the videos left are not looked at. *)
Lemma video_loop_stop (chunkDuration videoIndex : Z) (videoPath : string)
    (rest : list string) (w w1 : World) (r : run_result) :
  process_video env cfg chunkDuration videoIndex videoPath w = (Stop r, w1) ->
  video_loop env cfg chunkDuration videoIndex (videoPath :: rest) w = (r, w1).
Proof. intros H. simpl. now rewrite H. Qed.

(** A body that asks for the next video lets the loop go on. *)
Lemma video_loop_next (chunkDuration videoIndex : Z) (videoPath : string)
    (rest : list string) (w w1 : World) :
  process_video env cfg chunkDuration videoIndex videoPath w = (NextVideo, w1) ->
  video_loop env cfg chunkDuration videoIndex (videoPath :: rest) w
  = video_loop env cfg chunkDuration (videoIndex + 1) rest w1.
Proof. intros H. simpl. now rewrite H. Qed.

(** When one of the three output files cannot be created the body ends
    in [log.Fatalf], whichever of the three it is. *)
Lemma process_video_create_failure (chunkDuration videoIndex : Z)
    (videoPath : string) (w : World) :
  let baseName := TrimSuffix (filepath_Base videoPath) (filepath_Ext videoPath) in
  (forall e w1,
     create env (baseName +:+ "_output.txt") w = (Some e, w1) ->
     (process_video env cfg chunkDuration videoIndex videoPath w).1 = Stop FatalExit) /\
  (forall w1 e w2,
     create env (baseName +:+ "_output.txt") w = (None, w1) ->
     create env (baseName +:+ "_audio_output.txt") w1 = (Some e, w2) ->
     (process_video env cfg chunkDuration videoIndex videoPath w).1 = Stop FatalExit) /\
  (forall w1 w2 e w3,
     create env (baseName +:+ "_output.txt") w = (None, w1) ->
     create env (baseName +:+ "_audio_output.txt") w1 = (None, w2) ->
     create env (baseName +:+ "_video_output.txt") w2 = (Some e, w3) ->
     (process_video env cfg chunkDuration videoIndex videoPath w).1 = Stop FatalExit).
Proof.
  intros baseName. unfold process_video. fold baseName. repeat split.
  - intros e w1 H1. now rewrite H1.
  - intros w1 e w2 H1 H2. now rewrite H1, H2.
  - intros w1 w2 e w3 H1 H2 H3. now rewrite H1, H2, H3.
Qed.

(** When the three files are there and the segmenter fails the body logs
    the error and asks for the next video. *)
Lemma process_video_segmenter_failure (chunkDuration videoIndex : Z)
    (videoPath : string) (w : World) :
  let baseName := TrimSuffix (filepath_Base videoPath) (filepath_Ext videoPath) in
  forall w1 w2 w3 w4 e,
    create env (baseName +:+ "_output.txt") w = (None, w1) ->
    create env (baseName +:+ "_audio_output.txt") w1 = (None, w2) ->
    create env (baseName +:+ "_video_output.txt") w2 = (None, w3) ->
    chunkVideo env videoPath chunkDuration (videoIndex + 1) baseName w3
    = (ChunkErr e, w4) ->
    (process_video env cfg chunkDuration videoIndex videoPath w).1 = NextVideo.
Proof.
  intros baseName w1 w2 w3 w4 e H1 H2 H3 H4. unfold process_video.
  fold baseName. now rewrite H1, H2, H3, H4.
Qed.

End MainProps.

(* ------------------------------------------------------------------ *)
(** *** Concrete runs *)

(** Decide a closed statement by computation. *)
Ltac by_compute :=
  lazymatch goal with
  | |- ?P =>
      let d := constr:(_ : Decision P) in
      apply (@bool_decide_unpack P d); vm_compute; exact I
  end.

(** C2 (the code falls short of it). With two videos, when the first
    output file of the first video cannot be created the run ends at
    [log.Fatalf] (exit status 1): the last thing it does is to log the
    error, and the second video is never started.  A failure of the
    segmenter, on the other hand, does what the specification says: the run goes on
    with the second video and completes. *)
Theorem stream_creation_failure_ends_run :
  (let '(r, w') := main_run failing_create_env plain_cfg 60
                     ["first.mp4"; "second.mp4"] empty_world in
   r = FatalExit /\
   trace w' = [EvLog "Error creating output file for video first.mp4: permission denied";
               EvCreate "first_output.txt" false]) /\
  (let '(r, w') := main_run failing_cut_env plain_cfg 60
                     ["first.mp4"; "second.mp4"] empty_world in
   r = Completed /\
   In (EvFfmpegChunk "first.mp4" 0 60 false) (trace w') /\
   In (EvCreate "second_output.txt" true) (trace w') /\
   length (default [] (outputs w' !! "second_audio_output.txt")) = 3%nat).
Proof.
  split.
  - vm_compute. split; reflexivity.
  - vm_compute. repeat split; auto 50.
Qed.

(** C5 (the code falls short of it). A video of 630 seconds in chunks of
    60 seconds has eleven chunks; when whisper fails on every chunk, the
    ten first failures fill the error channel, and at the eleventh chunk
    the audio goroutine waits on its send before it writes anything: the
    run never gets past this chunk, the audio file has ten records for
    eleven chunks, the video file eleven. *)
Theorem eleventh_audio_failure_writes_no_record :
  numChunks 630 60 = Some 11 /\
  let '(r, w') := main_run failing_whisper_env plain_cfg 60 ["lecture.mp4"]
                    empty_world in
  r = Stuck /\
  length (errorChannel w') = errorChannel_cap /\
  length (default [] (outputs w' !! "lecture_audio_output.txt")) = 10%nat /\
  length (default [] (outputs w' !! "lecture_video_output.txt")) = 11%nat /\
  "/tmp/video_chunks4/chunk_10_video_1.wav" ∈ fs w'.
Proof.
  split; [reflexivity|].
  vm_compute. repeat split; try by_compute.
Qed.

(** A video of 95 seconds whose two chunks whisper cannot transcribe: the
    run completes, and both chunks have their record in the audio file, with
    the placeholder for a body. *)
Example placeholder_records :
  let '(r, w') := main_run (with_whisper (fun _ _ => inr (ErrExt "exit status 1"))
                              calm_env) plain_cfg 60 ["lecture.mp4"] empty_world in
  r = Completed /\
  take 2 (default [] (outputs w' !! "lecture_audio_output.txt"))
  = [record (chunk_at "/tmp/video_chunks4" 1 "lecture" 0)
       (placeholder (chunk_at "/tmp/video_chunks4" 1 "lecture" 0) AudioTask);
     record (chunk_at "/tmp/video_chunks4" 1 "lecture" 1)
       (placeholder (chunk_at "/tmp/video_chunks4" 1 "lecture" 1) AudioTask)] /\
  length (default [] (outputs w' !! "lecture_video_output.txt")) = 3%nat /\
  errorChannel w' = [].
Proof. vm_compute. repeat split. Qed.

(** The channel holds ten errors when the first chunk is processed and
    whisper fails: whatever the schedule, [processChunk] does not return and
    the audio file is as it was. *)
Example full_channel_run (sched : list task) :
  exists w',
    processChunk failing_whisper_env plain_cfg first_chunk "lecture_audio_output.txt"
      "lecture_video_output.txt" sched
      (set_errorChannel (repeat (ErrExt "earlier failure") 10) chunked_world)
    = Blocked w' /\
    outputs w' !! "lecture_audio_output.txt" = None.
Proof.
  destruct (processChunk_full_channel_blocks failing_whisper_env plain_cfg first_chunk
              "lecture_audio_output.txt" "lecture_video_output.txt" sched
              (set_errorChannel (repeat (ErrExt "earlier failure") 10) chunked_world))
    as (w' & Hb & Ho).
  - reflexivity.
  - intros h args. now exists (ErrExt "exit status 1").
  - simpl. unfold errorChannel_cap. lia.
  - discriminate.
  - exists w'. split; [exact Hb|]. rewrite Ho. reflexivity.
Qed.

(** C7 (the code falls short of it). Three temp directories outlive the
    operation that made them, and the run.
    - ffmpeg cuts the first chunk of a video and fails on the second:
      [chunkVideo] returns the error with its temp directory and the two
      files of the first chunk still on disk, none of them handed to a
      removal; [main] logs the error, goes on, and the run completes with
      the three still on disk.
    - Every tool succeeds: the chunk files are removed by the goroutines
      of [processChunk], the chunk directory by nobody; it is on disk when
      the run has completed.
    - The upload is refused and ffmpeg leaves no frame: the fallback
      returns the empty text, and the frames directory stays on disk. *)
Theorem temp_artifacts_left_behind :
  (let '(r, w') := chunkVideo failing_second_cut_env "lecture.mp4" 60 1 "lecture"
                     empty_world in
   r = ChunkErr (ErrWrap "error creating video chunk 1 for video 1"
                   (ErrExt "exit status 1")) /\
   "/tmp/video_chunks1" ∈ fs w' /\
   "/tmp/video_chunks1/chunk_0_video_1.mp4" ∈ fs w' /\
   "/tmp/video_chunks1/chunk_0_video_1.wav" ∈ fs w' /\
   removals "/tmp/video_chunks1" (trace w') = 0%nat /\
   removals "/tmp/video_chunks1/chunk_0_video_1.mp4" (trace w') = 0%nat /\
   removals "/tmp/video_chunks1/chunk_0_video_1.wav" (trace w') = 0%nat) /\
  (let '(r, w') := main_run failing_second_cut_env plain_cfg 60 ["lecture.mp4"]
                     empty_world in
   r = Completed /\
   "/tmp/video_chunks4" ∈ fs w' /\
   "/tmp/video_chunks4/chunk_0_video_1.mp4" ∈ fs w' /\
   "/tmp/video_chunks4/chunk_0_video_1.wav" ∈ fs w' /\
   removals "/tmp/video_chunks4" (trace w') = 0%nat) /\
  (let '(r, w') := main_run calm_env plain_cfg 60 ["lecture.mp4"] empty_world in
   r = Completed /\
   "/tmp/video_chunks4" ∈ fs w' /\
   removals "/tmp/video_chunks4" (trace w') = 0%nat) /\
  (let '(r, w') := transcribeVideoLLM no_frames_env
                     "/tmp/video_chunks1/chunk_0_video_1.mp4" 1 0 chunked_world in
   r = inl "" /\
   "/tmp/frames_video1_chunk06" ∈ fs w' /\
   removals "/tmp/frames_video1_chunk06" (trace w') = 0%nat).
Proof.
  split; [|split; [|split]].
  - vm_compute. repeat split; try by_compute.
  - vm_compute. repeat split; try by_compute.
  - vm_compute. repeat split; try by_compute.
  - vm_compute. repeat split; try by_compute.
Qed.

(** C9, against the specification as it is worded. The upload and the prompt succeed,
    the deletion of the uploaded file fails: the result is the text of the
    model, and nothing at all is logged. *)
Lemma deletion_error_is_not_logged :
  let '(r, w') := transcribeVideoLLM failing_delete_env
                    "/tmp/video_chunks1/chunk_0_video_1.mp4" 1 0 chunked_world in
  r = inl "text on screen" /\
  In (EvDeleteFile "files/chunk" false) (since chunked_world w') /\
  logged (since chunked_world w') = [].
Proof. vm_compute. repeat split; auto. Qed.

(** C8, against the specification as it is worded. The audio goroutine runs its three
    steps before the video goroutine takes its first: the audio chunk file
    is removed while the video transcription has not begun. *)
Lemma audio_chunk_removed_before_video_task :
  let s := run_schedule calm_env plain_cfg first_chunk "lecture_audio_output.txt"
             "lecture_video_output.txt" [AudioTask; AudioTask; AudioTask]
             (spawn chunked_world) in
  rtc (pstep calm_env plain_cfg first_chunk "lecture_audio_output.txt"
         "lecture_video_output.txt") (spawn chunked_world) s /\
  AudioPath first_chunk ∈ fs chunked_world /\
  (AudioPath first_chunk ∉ fs (world s)) /\
  In (EvRemove (AudioPath first_chunk)) (since chunked_world (world s)) /\
  audio_pc s = PcDone /\
  video_pc s = PcTranscribe.
Proof.
  cbv zeta. split; [apply run_schedule_reach|].
  split; [by_compute|]. split; [by_compute|].
  split; [vm_compute; auto|]. split; reflexivity.
Qed.

(* ------------------------------------------------------------------ *)
(** *** Who removes what *)

(** Where the code does clean up, in every environment:
    - [extractFrames]: when ffmpeg fails the temp directory is removed,
      once, with all that is below it, before the error is returned.
    - [chunkVideo]: when the probe of the duration fails the temp directory
      is removed, once, before the error is returned.
    - [chunkVideo]: a list that is returned is whole: no cut failed, and
      the two files of every chunk are on disk for [processChunk].
    - An OCR worker that created its temp file removes it, once, on each of
      its ways out; a worker that did not get that far removes nothing. *)
Theorem temp_artifacts_removed_by_owner (env : Env) :
  (forall videoPath videoIndex chunkNum w tempDir err w',
     MkdirTemp env (trace w) (frames_pattern videoIndex chunkNum) = inl tempDir ->
     extractFrames env videoPath videoIndex chunkNum w = (inr err, w') ->
     (tempDir ∉ fs w') /\
     (forall p, under tempDir p = true -> p ∉ fs w') /\
     removals tempDir (since w w') = 1%nat) /\
  (forall videoPath chunkDuration videoIndex baseName w tempDir,
     LookPath env (trace w) "ffmpeg" = None ->
     MkdirTemp env (EvLookPath "ffmpeg" :: trace w) "video_chunks" = inl tempDir ->
     probe_fails env
       (EvMkdirTemp "video_chunks" true :: EvLookPath "ffmpeg" :: trace w) videoPath ->
     let '(r, w') := chunkVideo env videoPath chunkDuration videoIndex baseName w in
     (exists e, r = ChunkErr e) /\
     (tempDir ∉ fs w') /\
     (forall p, under tempDir p = true -> p ∉ fs w') /\
     removals tempDir (since w w') = 1%nat) /\
  (forall videoPath chunkDuration videoIndex baseName w chunks w',
     chunkVideo env videoPath chunkDuration videoIndex baseName w
     = (Chunks chunks, w') ->
     filter (fun e => is_failed_cut e = true) (since w w') = [] /\
     Forall (fun c => VideoPath c ∈ fs w' /\ AudioPath c ∈ fs w') chunks) /\
  (forall fp w,
     let w' := (ocr_worker env fp w).2 in
     (forall tmp,
        In (EvCreateTemp "ocr_*.jpg" true) (since w w') ->
        CreateTemp env
          (EvEncode fp true :: EvDecode fp true :: EvOpen fp true :: trace w)
          "ocr_*.jpg" = inl tmp ->
        (tmp ∉ fs w') /\ removals tmp (since w w') = 1%nat) /\
     (~ In (EvCreateTemp "ocr_*.jpg" true) (since w w') ->
        fs w' = fs w /\ forall p, removals p (since w w') = 0%nat)).
Proof.
  split; [|split; [|split]].
  - intros. eapply extractFrames_failure_removes_dir; eassumption.
  - intros. now apply chunkVideo_probe_failure_removes_dir.
  - intros. eapply chunkVideo_list_is_whole; eassumption.
  - intros. apply ocr_worker_removes_temp.
Qed.

Example extractFrames_failure_run :
  let '(r, w') := extractFrames failing_frames_env
                    "/tmp/video_chunks1/chunk_0_video_1.mp4" 1 0 chunked_world in
  r = inr (ErrWrap "error extracting frames" (ErrExt "exit status 1")) /\
  fs w' = fs chunked_world /\
  removals "/tmp/frames_video1_chunk05" (since chunked_world w') = 1%nat.
Proof.
  vm_compute. split; [reflexivity|]. split; reflexivity.
Qed.

Example ocr_worker_run :
  let '(r, w') := ocr_worker calm_env "/tmp/frames/frame_0001.jpg" empty_world in
  r = {| frText := "slide text"; frError := None |} /\
  fs w' = ∅ /\
  removals "/tmp/ocr_3.jpg" (trace w') = 1%nat.
Proof. vm_compute. split; [reflexivity|]. split; reflexivity. Qed.

(** The theorem on the deletion of the upload, at a run where the
    deletion fails. *)
Lemma transcribeVideoLLM_deletes_upload_witness :
  UploadFileFromPath failing_delete_env (trace chunked_world)
    "/tmp/video_chunks1/chunk_0_video_1.mp4"
  = inl {| Name := "files/chunk"; URI := "https://cloud/files/chunk" |} /\
  let '(r, w') := transcribeVideoLLM failing_delete_env
                    "/tmp/video_chunks1/chunk_0_video_1.mp4" 1 0 chunked_world in
  (exists ok before,
     trace w' = EvDeleteFile "files/chunk" ok :: before ++ trace chunked_world /\
     (ok = true <->
      DeleteFile failing_delete_env (before ++ trace chunked_world) "files/chunk"
      = None) /\
     filter (fun e => is_delete e = true) before = [] /\
     (1 <= length (generate_outcomes before))%nat /\
     logged (trace w') = logged (before ++ trace chunked_world)) /\
  (forall answer,
     (transcribeVideoLLM (with_DeleteFile answer failing_delete_env)
        "/tmp/video_chunks1/chunk_0_video_1.mp4" 1 0 chunked_world).1 = r /\
     logged (trace (transcribeVideoLLM (with_DeleteFile answer failing_delete_env)
                      "/tmp/video_chunks1/chunk_0_video_1.mp4" 1 0
                      chunked_world).2)
     = logged (trace w')).
Proof.
  split; [reflexivity|].
  exact (transcribeVideoLLM_deletes_upload failing_delete_env
           "/tmp/video_chunks1/chunk_0_video_1.mp4" 1 0 chunked_world
           {| Name := "files/chunk"; URI := "https://cloud/files/chunk" |} eq_refl).
Defined.

(** The theorem on the order of write and removal, at the state reached
    when the audio goroutine has run to its end and the video goroutine
    has not begun. *)
Lemma processChunk_removes_after_own_record_witness :
  let s := run_schedule calm_env plain_cfg first_chunk "lecture_audio_output.txt"
             "lecture_video_output.txt" [AudioTask; AudioTask; AudioTask]
             (spawn chunked_world) in
  (rtc (pstep calm_env plain_cfg first_chunk "lecture_audio_output.txt"
          "lecture_video_output.txt") (spawn chunked_world) s /\
   AudioPath first_chunk <> VideoPath first_chunk /\
   (forall t' w0,
      AudioPath first_chunk ∈ fs w0 ->
      AudioPath first_chunk ∈ fs (task_transcribe calm_env plain_cfg first_chunk t' w0).2) /\
   AudioPath first_chunk ∈ fs chunked_world) /\
  (audio_pc s = PcDone ->
     exists n1 n2 text ok b,
       since chunked_world (world s) = n1 ++ EvRemove (AudioPath first_chunk) :: n2 /\
       In (EvFprint "lecture_audio_output.txt" (record first_chunk text) ok) n2 /\
       In (EvWhisper (AudioPath first_chunk) b) n2) /\
  (audio_pc s <> PcDone -> AudioPath first_chunk ∈ fs (world s)).
Proof.
  cbv zeta.
  assert (Hreach : rtc (pstep calm_env plain_cfg first_chunk "lecture_audio_output.txt"
                          "lecture_video_output.txt") (spawn chunked_world)
                     (run_schedule calm_env plain_cfg first_chunk
                        "lecture_audio_output.txt" "lecture_video_output.txt"
                        [AudioTask; AudioTask; AudioTask] (spawn chunked_world)))
    by apply run_schedule_reach.
  assert (Hdiff : AudioPath first_chunk <> VideoPath first_chunk) by discriminate.
  assert (Hkeep : forall t' w0,
            AudioPath first_chunk ∈ fs w0 ->
            AudioPath first_chunk
              ∈ fs (task_transcribe calm_env plain_cfg first_chunk t' w0).2).
  { intros [] w0 H; exact H. }
  assert (Hin : AudioPath first_chunk ∈ fs chunked_world).
  { by_compute. }
  split; [repeat split; assumption|].
  exact (processChunk_removes_after_own_record calm_env plain_cfg first_chunk
           "lecture_audio_output.txt" "lecture_video_output.txt" chunked_world _
           AudioTask Hreach Hdiff Hkeep Hin).
Defined.

(* ================================================================== *)
(** ** Further properties of the code *)
(* ================================================================== *)

(* ------------------------------------------------------------------ *)
(** *** isVideoFile: letter case and directories *)

Lemma bytes_of_bytes (l : list ascii) : bytes (of_bytes l) = l.
Proof. apply list_ascii_of_string_of_list_ascii. Qed.

Lemma of_bytes_bytes (s : string) : of_bytes (bytes s) = s.
Proof. apply string_of_list_ascii_of_string. Qed.

Lemma bytes_app (a b : string) : bytes (a +:+ b) = bytes a ++ bytes b.
Proof.
  induction a as [|c a IH]; [reflexivity|].
  change (c :: bytes (a +:+ b) = c :: (bytes a ++ bytes b)). now rewrite IH.
Qed.

Lemma lower_byte_sep (c : ascii) : is_sep (lower_byte c) = is_sep c.
Proof. destruct c as [[] [] [] [] [] [] [] []]; reflexivity. Qed.

Lemma lower_byte_dot (c : ascii) : is_dot (lower_byte c) = is_dot c.
Proof. destruct c as [[] [] [] [] [] [] [] []]; reflexivity. Qed.

Lemma ext_scan_lower (r acc : list ascii) :
  ext_scan (map lower_byte r) (map lower_byte acc) = map lower_byte (ext_scan r acc).
Proof.
  revert acc. induction r as [|c r IH]; intros acc; [reflexivity|].
  simpl. rewrite lower_byte_sep, lower_byte_dot.
  destruct (is_sep c); [reflexivity|]. destruct (is_dot c); [reflexivity|].
  apply (IH (c :: acc)).
Qed.

Lemma ext_scan_Forall (P : ascii -> Prop) (r acc : list ascii) :
  Forall P r -> Forall P acc -> Forall P (ext_scan r acc).
Proof.
  revert acc. induction r as [|c r IH]; intros acc Hr Hacc; [constructor|].
  inversion Hr; subst. simpl.
  destruct (is_sep c); [constructor|].
  destruct (is_dot c); [now constructor|].
  apply IH; [assumption | now constructor].
Qed.

Lemma lower_no_upper (l : list ascii) :
  existsb is_upper_byte l = false -> map lower_byte l = l.
Proof.
  induction l as [|c l IH]; [reflexivity|]. simpl.
  intros [Hc Hl]%orb_false_elim. unfold lower_byte at 1. rewrite Hc.
  now rewrite IH.
Qed.

(** On ASCII strings [strings.ToLower] lowers every byte. *)
Lemma ToLower_ascii (mapLower : string -> string) (s : string) :
  forallb is_ascii_byte (bytes s) = true ->
  ToLower mapLower s = of_bytes (map lower_byte (bytes s)).
Proof.
  intros H. unfold ToLower. rewrite H.
  destruct (existsb is_upper_byte (bytes s)) eqn:Hu; [reflexivity|].
  now rewrite (lower_no_upper _ Hu), of_bytes_bytes.
Qed.

Lemma forallb_Forall_ascii (l : list ascii) :
  forallb is_ascii_byte l = true <-> Forall (fun c => is_ascii_byte c = true) l.
Proof.
  induction l as [|c l IH]; simpl.
  - split; [constructor | reflexivity].
  - rewrite andb_true_iff, IH. split.
    + intros [H1 H2]. now constructor.
    + intros H. inversion H; subst. now split.
Qed.

(** The lowered extension of an ASCII path is the extension of the
    lowered path. *)
Lemma lowered_extension (mapLower : string -> string) (p : string) :
  forallb is_ascii_byte (bytes p) = true ->
  ToLower mapLower (filepath_Ext p)
  = of_bytes (ext_scan (rev (map lower_byte (bytes p))) []).
Proof.
  intros H. unfold filepath_Ext. rewrite ToLower_ascii.
  - rewrite bytes_of_bytes.
    change (@nil ascii) with (map lower_byte []) at 2.
    now rewrite <- ext_scan_lower, map_rev.
  - rewrite bytes_of_bytes. apply forallb_Forall_ascii, ext_scan_Forall; [|constructor].
    apply Forall_rev. now apply forallb_Forall_ascii.
Qed.

(** X1. Two ASCII paths that differ only in the case of their letters get
    the same answer from [isVideoFile]. *)
Theorem isVideoFile_ascii_case (mapLower : string -> string) (p q : string) :
  forallb is_ascii_byte (bytes p) = true ->
  forallb is_ascii_byte (bytes q) = true ->
  map lower_byte (bytes p) = map lower_byte (bytes q) ->
  isVideoFile mapLower p = isVideoFile mapLower q.
Proof.
  intros Hp Hq Heq. unfold isVideoFile.
  now rewrite (lowered_extension mapLower p Hp), (lowered_extension mapLower q Hq), Heq.
Qed.

Lemma isVideoFile_ascii_case_witness :
  forallb is_ascii_byte (bytes "Talks/Intro.MKV") = true /\
  forallb is_ascii_byte (bytes "talks/intro.mkv") = true /\
  map lower_byte (bytes "Talks/Intro.MKV") = map lower_byte (bytes "talks/intro.mkv") /\
  isVideoFile (fun s => s) "Talks/Intro.MKV" = isVideoFile (fun s => s) "talks/intro.mkv".
Proof.
  split; [reflexivity|]. split; [reflexivity|]. split; [reflexivity|].
  apply (isVideoFile_ascii_case (fun s => s) "Talks/Intro.MKV" "talks/intro.mkv");
    reflexivity.
Defined.

Lemma existsb_rev (f : ascii -> bool) (l : list ascii) :
  existsb f (rev l) = existsb f l.
Proof.
  induction l as [|c l IH]; [reflexivity|].
  simpl. rewrite existsb_app, IH. simpl. rewrite orb_false_r. apply orb_comm.
Qed.

Lemma ext_scan_stops_at_sep (r1 r2 acc : list ascii) (c : ascii) :
  existsb is_sep r1 = false -> is_sep c = true ->
  ext_scan (r1 ++ c :: r2) acc = ext_scan r1 acc.
Proof.
  revert acc. induction r1 as [|x r1 IH]; intros acc Hno Hc.
  - simpl. now rewrite Hc.
  - simpl in *. apply orb_false_elim in Hno. destruct Hno as [Hx Hr].
    rewrite Hx. destruct (is_dot x); [reflexivity|]. now apply IH.
Qed.

Lemma ext_scan_no_dot (r acc : list ascii) :
  existsb is_dot r = false -> ext_scan r acc = [].
Proof.
  revert acc. induction r as [|x r IH]; intros acc Hno; [reflexivity|].
  simpl in *. apply orb_false_elim in Hno. destruct Hno as [Hx Hr].
  rewrite Hx. destruct (is_sep x); [reflexivity|]. now apply IH.
Qed.

Lemma filepath_Ext_last_element (dir name : string) :
  existsb is_sep (bytes name) = false ->
  filepath_Ext (dir +:+ "/" +:+ name) = filepath_Ext name.
Proof.
  intros H. unfold filepath_Ext. rewrite !bytes_app.
  change (bytes "/") with ["/"%char].
  rewrite !rev_app_distr. simpl rev. rewrite <- app_assoc. simpl app.
  rewrite ext_scan_stops_at_sep; [reflexivity | | reflexivity].
  now rewrite existsb_rev.
Qed.

(** X2. [isVideoFile] looks at the last element of a path only: the
    directories before it do not count (a dot in a directory name is not
    an extension), and a last element without a dot is never a video
    file. *)
Theorem isVideoFile_last_element (mapLower : string -> string) :
  (forall dir name,
     existsb is_sep (bytes name) = false ->
     isVideoFile mapLower (dir +:+ "/" +:+ name) = isVideoFile mapLower name) /\
  (forall dir name,
     existsb is_sep (bytes name) = false ->
     existsb is_dot (bytes name) = false ->
     isVideoFile mapLower (dir +:+ "/" +:+ name) = false /\
     isVideoFile mapLower name = false).
Proof.
  assert (H1 : forall dir name,
            existsb is_sep (bytes name) = false ->
            isVideoFile mapLower (dir +:+ "/" +:+ name) = isVideoFile mapLower name).
  { intros dir name H. unfold isVideoFile. now rewrite filepath_Ext_last_element. }
  split; [exact H1|].
  intros dir name Hs Hd.
  assert (H2 : isVideoFile mapLower name = false).
  { unfold isVideoFile, filepath_Ext.
    rewrite ext_scan_no_dot by (now rewrite existsb_rev). reflexivity. }
  split; [now rewrite H1|exact H2].
Qed.

Example isVideoFile_dotted_directory :
  isVideoFile (fun s => s) "season.mp4/readme" = false /\
  isVideoFile (fun s => s) "archive.d/talk.WebM" = true /\
  isVideoFile (fun s => s) "talk.mp4/" = false.
Proof. repeat split. Qed.

(* ------------------------------------------------------------------ *)
(** *** sentLlmPrompt: what goes to the file *)



Section PromptFileProps.
Variable env : Env.
Variable f : string.







End PromptFileProps.


(* ------------------------------------------------------------------ *)
(** *** chunkVideo: numbering, failed cuts, division by zero *)

(** A run is known by its result and the world it ends in. *)
Lemma run_result_eta {A B : Type} (p : A * B) (a : A) : p.1 = a -> p = (a, p.2).
Proof. destruct p. simpl. now intros ->. Qed.

Section ChunkExtra.
Variable env : Env.

Lemma chunk_loop_never_panics (tempDir videoPath : string)
    (chunkDuration videoIndex : Z) (baseName : string) (left : nat) :
  forall i chunks w,
    (chunk_loop env left i tempDir videoPath chunkDuration videoIndex baseName
       chunks w).1 <> ChunkPanic.
Proof.
  induction left as [|left IH]; intros i chunks w; [discriminate|].
  simpl. destruct (ffmpeg_chunk env (trace w) videoPath _ chunkDuration _ _);
    [discriminate | apply IH].
Qed.

(** X4. A list returned by [chunkVideo] is numbered 0, 1, 2, ... in its
    order, every chunk carries the job index and base name that were
    passed and no error, and chunk [i] was cut from the offset
    [i * chunkDuration] (in 64-bit arithmetic). *)
Theorem chunkVideo_chunks_numbered (videoPath : string)
    (chunkDuration videoIndex : Z) (baseName : string) (w : World)
    (chunks : list ChunkData) (w' : World) :
  chunkVideo env videoPath chunkDuration videoIndex baseName w = (Chunks chunks, w') ->
  (forall (i : nat) c,
     chunks !! i = Some c ->
     ChunkNum c = Z.of_nat i /\ VideoIndex c = videoIndex /\
     BaseName c = baseName /\ Err c = None) /\
  omap cut_start (rev (since w w'))
  = map (fun i => wrap64 (i * chunkDuration)) (seqZ 0 (Z.of_nat (length chunks))).
Proof.
  intros H. apply chunkVideo_numbering in H.
  destruct H as (tempDir & output & duration & n & _ & _ & _ & -> & _ & Ht & _).
  split.
  - intros i c Hc. rewrite list_lookup_fmap in Hc.
    destruct (seqZ 0 (Z.max 0 n) !! i) as [j|] eqn:Hj; [|discriminate].
    apply lookup_seqZ in Hj. destruct Hj as [-> _].
    injection Hc as <-. simpl. repeat split; lia.
  - rewrite (since_app w w'
               (rev (map (chunk_cut videoPath chunkDuration) (seqZ 0 (Z.max 0 n)))
                ++ [EvFfprobe videoPath; EvMkdirTemp "video_chunks" true;
                    EvLookPath "ffmpeg"]))
      by (rewrite Ht; now rewrite <- app_assoc).
    rewrite rev_app_distr, rev_involutive. simpl.
    rewrite length_map, length_seqZ.
    rewrite Z2Nat.id by apply Z.le_max_l.
    clear Ht. induction (seqZ 0 (Z.max 0 n)) as [|j l IH]; [reflexivity|].
    simpl. now rewrite IH.
Qed.

(** X5. [chunkVideo] panics exactly when the chunk duration is 0 and the
    duration of the video was probed and parsed: the division of the
    remainder test is by zero.  The temp directory made before is then
    left on disk. *)
Theorem chunkVideo_panics_iff_zero_duration (videoPath : string)
    (chunkDuration videoIndex : Z) (baseName : string) (w : World) :
  ((chunkVideo env videoPath chunkDuration videoIndex baseName w).1 = ChunkPanic <->
   chunkDuration = 0 /\
   LookPath env (trace w) "ffmpeg" = None /\
   exists tempDir output duration,
     MkdirTemp env (EvLookPath "ffmpeg" :: trace w) "video_chunks" = inl tempDir /\
     ffprobe env (EvMkdirTemp "video_chunks" true :: EvLookPath "ffmpeg" :: trace w)
       videoPath = inl output /\
     ParseFloat env output = inl duration) /\
  ((chunkVideo env videoPath chunkDuration videoIndex baseName w).1 = ChunkPanic ->
   exists tempDir,
     MkdirTemp env (EvLookPath "ffmpeg" :: trace w) "video_chunks" = inl tempDir /\
     tempDir ∈ fs (chunkVideo env videoPath chunkDuration videoIndex baseName w).2).
Proof.
  unfold chunkVideo.
  destruct (LookPath env (trace w) "ffmpeg").
  { split; [split|]; try discriminate. intros (_ & ? & _). discriminate. }
  simpl trace.
  destruct (MkdirTemp env _ "video_chunks") as [tempDir|].
  2:{ split; [split|]; try discriminate.
      intros (_ & _ & ? & ? & ? & ? & _). discriminate. }
  simpl trace.
  destruct (ffprobe env _ videoPath) as [output|].
  2:{ split; [split|]; try discriminate.
      intros (_ & _ & ? & ? & ? & _ & ? & _). discriminate. }
  destruct (ParseFloat env output) as [duration|] eqn:Hparse.
  2:{ split; [split|]; try discriminate.
      intros (_ & _ & ? & o & ? & _ & [= <-] & Hp). congruence. }
  unfold numChunks. destruct (Z.eqb_spec chunkDuration 0) as [->|Hne].
  - split.
    + split; [intros _|reflexivity].
      split; [reflexivity|]. split; [reflexivity|].
      exists tempDir, output, duration. now repeat split.
    + intros _. exists tempDir. split; [reflexivity|]. simpl. set_solver.
  - assert (Hno : forall n,
              (chunk_loop env (Z.to_nat n) 0 tempDir videoPath chunkDuration
                 videoIndex baseName []
                 (emit (EvFfprobe videoPath)
                    (emit (EvMkdirTemp "video_chunks" true)
                       (set_fs ({[tempDir]} ∪ fs (emit (EvLookPath "ffmpeg") w))
                          (emit (EvLookPath "ffmpeg") w))))).1 <> ChunkPanic)
      by (intros n; apply chunk_loop_never_panics).
    destruct (negb _); (split; [split|]); try (intros H; now apply Hno in H);
      intros (? & _); contradiction.
Qed.

End ChunkExtra.

Lemma chunkVideo_chunks_numbered_witness :
  chunkVideo calm_env "lecture.mp4" 60 1 "lecture" empty_world
  = (Chunks [chunk_at "/tmp/video_chunks1" 1 "lecture" 0;
             chunk_at "/tmp/video_chunks1" 1 "lecture" 1], chunked_world) /\
  (forall (i : nat) c,
     [chunk_at "/tmp/video_chunks1" 1 "lecture" 0;
      chunk_at "/tmp/video_chunks1" 1 "lecture" 1] !! i = Some c ->
     ChunkNum c = Z.of_nat i /\ VideoIndex c = 1 /\
     BaseName c = "lecture" /\ Err c = None) /\
  omap cut_start (rev (since empty_world chunked_world))
  = map (fun i => wrap64 (i * 60)) (seqZ 0 2).
Proof.
  assert (H : chunkVideo calm_env "lecture.mp4" 60 1 "lecture" empty_world
              = (Chunks [chunk_at "/tmp/video_chunks1" 1 "lecture" 0;
                         chunk_at "/tmp/video_chunks1" 1 "lecture" 1], chunked_world)).
  { apply run_result_eta. vm_compute. reflexivity. }
  split; [exact H|].
  exact (chunkVideo_chunks_numbered calm_env "lecture.mp4" 60 1 "lecture" empty_world
           _ _ H).
Defined.

(* ------------------------------------------------------------------ *)
(** *** processChunk: what the two goroutines share *)

Section ProcessExtra.
Variable env : Env.
Variable cfg : Config.
Variable chunk : ChunkData.
Variables audioOutputFile videoOutputFile : string.

Abbreviation step := (step_task env cfg chunk audioOutputFile videoOutputFile).
Abbreviation gstep := (goroutine_step env cfg chunk audioOutputFile videoOutputFile).
Abbreviation reach := (rtc (pstep env cfg chunk audioOutputFile videoOutputFile)).
Abbreviation run := (run_schedule env cfg chunk audioOutputFile videoOutputFile).
Abbreviation file_of := (task_file audioOutputFile videoOutputFile).

Lemma reach_steps (w : World) (P : pstate -> Prop) :
  P (spawn w) ->
  (forall s1 s t, reach (spawn w) s1 -> P s1 -> step t s1 = Some s -> P s) ->
  forall s, reach (spawn w) s -> P s.
Proof.
  intros H0 Hstep s H. apply rtc_nsteps in H. destruct H as [n H]. revert s H.
  induction n as [|n IH]; intros s H.
  - inversion H; subst. exact H0.
  - apply nsteps_inv_r in H. destruct H as (s1 & H1 & [t Ht]).
    apply (Hstep s1 s t); [eapply rtc_nsteps_2; exact H1 | now apply IH | exact Ht].
Qed.

Lemma since_step (w : World) (s1 : pstate) (w' : World) (added : list event) :
  reach (spawn w) s1 -> trace w' = added ++ trace (world s1) ->
  since w w' = added ++ since w (world s1).
Proof.
  intros H Ht. apply since_app.
  rewrite Ht. rewrite (reach_trace env cfg chunk audioOutputFile videoOutputFile w s1 H) at 1.
  now rewrite app_assoc.
Qed.

Lemma since_spawn (w : World) : since w w = [].
Proof. unfold since. now rewrite Nat.sub_diag. Qed.

(** The events a step adds, by where the goroutine stands. *)
Lemma gstep_added (t : task) (p p' : pc) (w w' : World) :
  gstep t p w = Some (p', w') ->
  exists added,
    trace w' = added ++ trace w /\
    match p with
    | PcTranscribe => Forall (fun e => task_event e = true) added
    | PcReport e | PcReportWrite e => added = [EvSend e]
    | PcWrite text => exists ok, added = [EvFprint (file_of t) (record chunk text) ok]
    | PcRemove => added = [EvRemove (task_path chunk t)]
    | PcDone => False
    end.
Proof.
  intros H. apply goroutine_step_spec in H. destruct p.
  - destruct H as ([(new & Ht & F) _] & _). now exists new.
  - destruct H as (_ & Ht & _). now exists [EvSend e].
  - destruct H as (ok & Ht & _). eexists [_]. split; [exact Ht|]. now exists ok.
  - destruct H as (_ & Ht & _). now exists [EvSend e].
  - destruct H as (_ & ->). now eexists [_].
  - contradiction.
Qed.

Lemma task_events_send_nothing (added : list event) :
  Forall (fun e => task_event e = true) added ->
  omap sent_error added = [] /\ filter (fun e => is_fprint e = true) added = [].
Proof.
  intros F. split.
  - induction F as [|e l He _ IH]; [reflexivity|].
    destruct e; try discriminate; simpl; exact IH.
  - apply (Forall_filter_nil task_event is_fprint); [|exact F].
    intros e. now destruct e.
Qed.

Lemma omap_sent_rev (l : list event) :
  omap sent_error (rev l) = rev (omap sent_error l).
Proof.
  induction l as [|e l IH]; [reflexivity|].
  change (rev (e :: l)) with (rev l ++ [e]). rewrite omap_app, IH.
  destruct e; simpl; rewrite ?app_nil_r; reflexivity.
Qed.

(** The error channel only grows, by the errors of the send events, and
    a goroutine never sends more than it has left. *)
Lemma reach_channel_inv (w : World) (s : pstate) :
  reach (spawn w) s ->
  exists sent,
    errorChannel (world s) = errorChannel w ++ sent /\
    omap sent_error (since w (world s)) = rev sent /\
    (length sent + sends_left (audio_pc s) + sends_left (video_pc s) <= 4)%nat /\
    ((length (errorChannel w) <= errorChannel_cap)%nat ->
     (length (errorChannel (world s)) <= errorChannel_cap)%nat).
Proof.
  revert s. apply reach_steps.
  - exists []. simpl. rewrite app_nil_r, since_spawn. repeat split; auto.
  - intros s1 s t Hr (sent & Hec & Hev & Hleft & Hcap) Ht.
    destruct (step_task_spec env cfg chunk audioOutputFile videoOutputFile t s1 s Ht)
      as [Hg Hother].
    destruct (gstep_added _ _ _ _ _ Hg) as (added & Hadd & Hshape).
    rewrite (since_step w s1 (world s) added Hr Hadd).
    apply goroutine_step_spec in Hg.
    assert (Hpcs : forall m,
              (sends_left (task_pc t s) + m <= sends_left (task_pc t s1) ->
               length sent + m + sends_left (audio_pc s) + sends_left (video_pc s) <= 4)%nat).
    { intros m H1. destruct t.
      - pose proof (Hother VideoTask ltac:(discriminate)) as Ho.
        simpl in *. rewrite Ho. lia.
      - pose proof (Hother AudioTask ltac:(discriminate)) as Ho.
        simpl in *. rewrite Ho. lia. }
    destruct (task_pc t s1) eqn:Hpc.
    + destruct Hg as ([_ [_ Hc]] & _ & Hp').
      destruct (task_events_send_nothing added Hshape) as [Hs _].
      exists sent. rewrite omap_app, Hs, Hc. simpl.
      repeat split; try assumption.
      specialize (Hpcs 0%nat).
      assert (sends_left (task_pc t s) <= 2)%nat
        by (destruct Hp' as [[? ->]|[? ->]]; simpl; lia).
      simpl in Hpcs. lia.
    + destruct Hg as (Hp' & _ & _ & Hc & Hlt). subst added.
      exists (sent ++ [e]). rewrite omap_app, Hev, Hc, rev_unit.
      split; [rewrite Hec; now rewrite <- app_assoc|]. split; [reflexivity|]. split.
      * rewrite length_app. simpl.
        specialize (Hpcs 1%nat). rewrite Hp' in Hpcs. simpl in Hpcs. lia.
      * intros _. rewrite length_app. simpl. lia.
    + destruct Hg as (ok & _ & Hc & Hp'). destruct Hshape as [ok' ->].
      exists sent. rewrite Hc. simpl. repeat split; try assumption.
      specialize (Hpcs 0%nat).
      assert (sends_left (task_pc t s) <= 1)%nat
        by (destruct ok; [destruct Hp' as [-> _] | destruct Hp' as [[? ->] _]];
            simpl; lia).
      simpl in Hpcs. lia.
    + destruct Hg as (Hp' & _ & _ & Hc & Hlt). subst added.
      exists (sent ++ [e]). rewrite omap_app, Hev, Hc, rev_unit.
      split; [rewrite Hec; now rewrite <- app_assoc|]. split; [reflexivity|]. split.
      * rewrite length_app. simpl.
        specialize (Hpcs 1%nat). rewrite Hp' in Hpcs. simpl in Hpcs. lia.
      * intros _. rewrite length_app. simpl. lia.
    + destruct Hg as (Hp' & ->). subst added.
      exists sent. simpl. repeat split; try assumption.
      specialize (Hpcs 0%nat). rewrite Hp' in Hpcs. simpl in Hpcs. lia.
    + contradiction.
Qed.

(** The output files only grow, and only the two files of the streams
    change. *)
Lemma reach_outputs_inv (w : World) (s : pstate) :
  reach (spawn w) s ->
  (forall g, g <> audioOutputFile -> g <> videoOutputFile ->
             outputs (world s) !! g = outputs w !! g) /\
  (forall g, default [] (outputs w !! g) `prefix_of` default [] (outputs (world s) !! g)).
Proof.
  revert s. apply reach_steps.
  - split; [reflexivity|]. intros g. reflexivity.
  - intros s1 s t _ [Hrest Hgrow] Ht.
    destruct (step_task_spec env cfg chunk audioOutputFile videoOutputFile t s1 s Ht)
      as [Hg _].
    apply goroutine_step_spec in Hg.
    assert (Hsame : outputs (world s) = outputs (world s1) ->
              (forall g, g <> audioOutputFile -> g <> videoOutputFile ->
                         outputs (world s) !! g = outputs w !! g) /\
              (forall g, default [] (outputs w !! g)
                         `prefix_of` default [] (outputs (world s) !! g))).
    { intros ->. now split. }
    destruct (task_pc t s1).
    + destruct Hg as ([_ [Ho _]] & _). auto.
    + destruct Hg as (_ & _ & Ho & _). auto.
    + destruct Hg as (ok & _ & _ & Hp'). destruct ok; [|destruct Hp' as [_ Ho]; auto].
      destruct Hp' as [_ ->]. split.
      * intros g Ha Hv. rewrite lookup_insert_ne; [now apply Hrest|].
        destruct t; simpl; congruence.
      * intros g. destruct (decide (g = file_of t)) as [->|Hne].
        -- rewrite lookup_insert_eq. simpl.
           etransitivity; [apply Hgrow|]. now apply prefix_app_r.
        -- rewrite lookup_insert_ne by congruence. apply Hgrow.
    + destruct Hg as (_ & _ & Ho & _). auto.
    + destruct Hg as (_ & ->). auto.
    + contradiction.
Qed.

(** Each goroutine tries the write of its record once. *)
Lemma reach_writes_inv (w : World) (s : pstate) :
  reach (spawn w) s ->
  exists la lv,
    filter (fun e => is_fprint e = true) (since w (world s)) ≡ₚ la ++ lv /\
    writes_of chunk audioOutputFile (audio_pc s) la /\
    writes_of chunk videoOutputFile (video_pc s) lv.
Proof.
  revert s. apply reach_steps.
  - exists [], []. rewrite since_spawn. now repeat split.
  - intros s1 s t Hr (la & lv & Hperm & Ha & Hv) Ht.
    destruct (step_task_spec env cfg chunk audioOutputFile videoOutputFile t s1 s Ht)
      as [Hg Hother].
    destruct (gstep_added _ _ _ _ _ Hg) as (added & Hadd & Hshape).
    rewrite (since_step w s1 (world s) added Hr Hadd), filter_app.
    apply goroutine_step_spec in Hg.
    assert (Hkeep : filter (fun e => is_fprint e = true) added = [] ->
              written (task_pc t s) = written (task_pc t s1) ->
              exists la' lv',
                filter (fun e => is_fprint e = true) added
                ++ filter (fun e => is_fprint e = true) (since w (world s1))
                ≡ₚ la' ++ lv' /\
                writes_of chunk audioOutputFile (audio_pc s) la' /\
                writes_of chunk videoOutputFile (video_pc s) lv').
    { intros -> Hw. exists la, lv. split; [exact Hperm|].
      unfold writes_of in *. destruct t.
      - pose proof (Hother VideoTask ltac:(discriminate)) as Ho.
        simpl in *. now rewrite Ho, Hw.
      - pose proof (Hother AudioTask ltac:(discriminate)) as Ho.
        simpl in *. now rewrite Ho, Hw. }
    destruct (task_pc t s1) eqn:Hpc.
    + destruct Hg as (_ & _ & Hp'). apply Hkeep.
      * now apply task_events_send_nothing.
      * destruct Hp' as [[? ->]|[? ->]]; reflexivity.
    + destruct Hg as (Hp' & _). subst added.
      apply Hkeep; [reflexivity | now rewrite Hp'].
    + destruct Hg as (ok & _ & _ & Hp'). destruct Hshape as [ok' ->].
      assert (Hw : written (task_pc t s) = true)
        by (destruct ok; [destruct Hp' as [-> _] | destruct Hp' as [[? ->] _]];
            reflexivity).
      rewrite filter_cons, decide_True by reflexivity. simpl.
      unfold writes_of in *. destruct t.
      * pose proof (Hother VideoTask ltac:(discriminate)) as Ho. simpl in *.
        rewrite Hpc in Ha. simpl in Ha. subst la.
        exists [EvFprint audioOutputFile (record chunk transcript) ok'], lv.
        rewrite Hw, Ho.
        split; [now rewrite Hperm|]. split; [eauto|exact Hv].
      * pose proof (Hother AudioTask ltac:(discriminate)) as Ho. simpl in *.
        rewrite Hpc in Hv. simpl in Hv. subst lv.
        exists la, [EvFprint videoOutputFile (record chunk transcript) ok'].
        rewrite Hw, Ho.
        split; [|split; [exact Ha|eauto]].
        rewrite Hperm, app_nil_r. apply Permutation_cons_append.
    + destruct Hg as (Hp' & _). subst added.
      apply Hkeep; [reflexivity | now rewrite Hp'].
    + destruct Hg as (Hp' & _). subst added.
      apply Hkeep; [reflexivity | now rewrite Hp'].
    + contradiction.
Qed.

Lemma run_app (l1 l2 : list task) (s : pstate) :
  run (l1 ++ l2) s = run l2 (run l1 s).
Proof. revert s. induction l1 as [|t l1 IH]; intros s; [reflexivity|]. apply IH. Qed.

(** A goroutine that is done stays done. *)
Lemma done_stays (t : task) (sched : list task) (s : pstate) :
  task_pc t s = PcDone -> task_pc t (run sched s) = PcDone.
Proof.
  revert s. induction sched as [|t' sched IH]; intros s Hd; [exact Hd|].
  simpl. apply IH. destruct (step t' s) as [s'|] eqn:Hs; [|exact Hd]. simpl.
  destruct (step_task_spec env cfg chunk audioOutputFile videoOutputFile t' s s' Hs)
    as [Hg Hother].
  destruct (decide (t = t')) as [->|Hne].
  - rewrite Hd in Hg. discriminate.
  - now rewrite (Hother t Hne).
Qed.

(** With room for four more errors in the channel no send blocks: a
    goroutine that is not done moves, towards its end. *)
Lemma step_moves (w : World) (t : task) (s : pstate) :
  reach (spawn w) s ->
  (length (errorChannel w) + 4 <= errorChannel_cap)%nat ->
  task_pc t s <> PcDone ->
  exists s', step t s = Some s' /\ (rank (task_pc t s') < rank (task_pc t s))%nat.
Proof.
  intros Hr Hroom Hpc.
  destruct (reach_channel_inv w s Hr) as (sent & Hec & _ & Hleft & _).
  assert (Hsend : (0 < sends_left (task_pc t s))%nat ->
                  (length (errorChannel (world s)) < errorChannel_cap)%nat).
  { rewrite Hec, length_app. destruct t; simpl; lia. }
  unfold step_task. destruct (task_pc t s) eqn:Hp; simpl.
  - destruct (task_transcribe env cfg chunk t (world s)) as [[text|err] w1];
      eexists; (split; [reflexivity|]); destruct t; simpl; lia.
  - unfold send_error. rewrite decide_True by (apply Hsend; simpl; lia).
    eexists; (split; [reflexivity|]); destruct t; simpl; lia.
  - destruct (fprint env (file_of t) (record chunk transcript) (world s))
      as [[err|] w1];
      eexists; (split; [reflexivity|]); destruct t; simpl; lia.
  - unfold send_error. rewrite decide_True by (apply Hsend; simpl; lia).
    eexists; (split; [reflexivity|]); destruct t; simpl; lia.
  - eexists; (split; [reflexivity|]); destruct t; simpl; lia.
  - contradiction.
Qed.

Lemma run_repeat_done (w : World) (t : task) (n : nat) :
  (length (errorChannel w) + 4 <= errorChannel_cap)%nat ->
  forall s, reach (spawn w) s -> (rank (task_pc t s) <= n)%nat ->
            task_pc t (run (repeat t n) s) = PcDone.
Proof.
  intros Hroom. induction n as [|n IH]; intros s Hr Hrank.
  - simpl. destruct (task_pc t s); simpl in Hrank; try lia. reflexivity.
  - simpl. destruct (is_done (task_pc t s)) eqn:Hdone.
    + assert (Hd : task_pc t s = PcDone) by (now destruct (task_pc t s)).
      apply done_stays. unfold step_task. rewrite Hd. exact Hd.
    + assert (Hnd : task_pc t s <> PcDone) by (intros Hd; now rewrite Hd in Hdone).
      destruct (step_moves w t s Hr Hroom Hnd) as (s' & Hs & Hlt).
      rewrite Hs. simpl. apply IH; [|lia].
      eapply rtc_r; [exact Hr | exists t; exact Hs].
Qed.

Lemma rank_le_5 (p : pc) : (rank p <= 5)%nat.
Proof. destruct p; simpl; lia. Qed.

(** After any schedule the ten picks of [run_out] bring both goroutines
    to their end, when no send can block. *)
Lemma run_out_done (w : World) (s1 : pstate) :
  (length (errorChannel w) + 4 <= errorChannel_cap)%nat ->
  reach (spawn w) s1 ->
  exists s3,
    run run_out s1 = s3 /\ reach (spawn w) s3 /\
    audio_pc s3 = PcDone /\ video_pc s3 = PcDone.
Proof.
  intros Hroom H1. unfold run_out. rewrite run_app.
  pose proof (run_schedule_reach env cfg chunk audioOutputFile videoOutputFile
                (repeat AudioTask 5) s1) as R2.
  pose proof (run_repeat_done w AudioTask 5 Hroom s1 H1 (rank_le_5 _)) as Ha2.
  revert R2 Ha2. generalize (run (repeat AudioTask 5) s1). intros s2 R2 Ha2.
  assert (H2 : reach (spawn w) s2) by (etransitivity; eassumption).
  pose proof (run_schedule_reach env cfg chunk audioOutputFile videoOutputFile
                (repeat VideoTask 5) s2) as R3.
  pose proof (run_repeat_done w VideoTask 5 Hroom s2 H2 (rank_le_5 _)) as Hv.
  pose proof (done_stays AudioTask (repeat VideoTask 5) s2 Ha2) as Ha.
  revert R3 Hv Ha. generalize (run (repeat VideoTask 5) s2). intros s3 R3 Hv Ha.
  exists s3. split; [reflexivity|]. split; [etransitivity; eassumption|].
  split; [exact Ha | exact Hv].
Qed.

Lemma processChunk_runs (sched : list task) (w : World) :
  Err chunk = None ->
  processChunk env cfg chunk audioOutputFile videoOutputFile sched w
  = (let s := run run_out (run sched (spawn w)) in
     if is_done (audio_pc s) && is_done (video_pc s)
     then Returned (world s) else Blocked (world s)).
Proof. intros H. unfold processChunk. rewrite H, run_app. reflexivity. Qed.

(** With room for four more errors [processChunk] returns, whatever the
    schedule. *)
Lemma processChunk_room (sched : list task) (w : World) :
  Err chunk = None ->
  (length (errorChannel w) + 4 <= errorChannel_cap)%nat ->
  exists w' sent audioText audioOk videoText videoOk,
    processChunk env cfg chunk audioOutputFile videoOutputFile sched w = Returned w' /\
    errorChannel w' = errorChannel w ++ sent /\
    (length sent <= 4)%nat /\
    trace w' = since w w' ++ trace w /\
    filter (fun e => is_fprint e = true) (since w w')
    ≡ₚ [EvFprint audioOutputFile (record chunk audioText) audioOk;
        EvFprint videoOutputFile (record chunk videoText) videoOk].
Proof.
  intros Herr Hroom. rewrite (processChunk_runs sched w Herr).
  destruct (run_out_done w (run sched (spawn w)) Hroom
              (run_schedule_reach env cfg chunk audioOutputFile videoOutputFile
                 sched (spawn w)))
    as (s3 & -> & H3 & Ha & Hv).
  destruct (reach_channel_inv w s3 H3) as (sent & Hec & _ & Hleft & _).
  destruct (reach_writes_inv w s3 H3) as (la & lv & Hperm & Hla & Hlv).
  pose proof (reach_trace env cfg chunk audioOutputFile videoOutputFile w s3 H3) as Ht.
  cbv zeta. rewrite Ha, Hv in *.
  unfold writes_of in Hla, Hlv. simpl in Hla, Hlv, Hleft.
  destruct Hla as (ta & oka & ->). destruct Hlv as (tv & okv & ->).
  exists (world s3), sent, ta, oka, tv, okv.
  split; [reflexivity|]. split; [exact Hec|]. split; [lia|].
  split; [exact Ht | exact Hperm].
Qed.

(** X6. With room for four more errors in the channel, [processChunk]
    on a chunk without error returns under every schedule of its two
    goroutines; by then at most four errors were sent, all appended to
    the channel, and exactly two writes were tried: one record of the
    chunk to the audio file and one to the video file. *)
Theorem processChunk_returns_with_room (sched : list task) (w : World) :
  Err chunk = None ->
  (length (errorChannel w) + 4 <= errorChannel_cap)%nat ->
  exists w' sent audioText audioOk videoText videoOk,
    processChunk env cfg chunk audioOutputFile videoOutputFile sched w = Returned w' /\
    errorChannel w' = errorChannel w ++ sent /\
    (length sent <= 4)%nat /\
    filter (fun e => is_fprint e = true) (since w w')
    ≡ₚ [EvFprint audioOutputFile (record chunk audioText) audioOk;
        EvFprint videoOutputFile (record chunk videoText) videoOk].
Proof.
  intros Herr Hroom.
  destruct (processChunk_room sched w Herr Hroom)
    as (w' & sent & ta & oka & tv & okv & H1 & H2 & H3 & _ & H4).
  exists w', sent, ta, oka, tv, okv. auto.
Qed.

(** X7. Whatever the schedule and whether it returns or not,
    [processChunk] only adds to what the goroutines share: the error
    channel keeps its contents and gets the errors of the send events
    appended, it never holds more than its capacity, no output file other
    than the two streams is touched, and every output file keeps what was
    written to it. *)
Theorem processChunk_shared_state_grows (sched : list task) (w : World) :
  (length (errorChannel w) <= errorChannel_cap)%nat ->
  let w' := outcome_world
              (processChunk env cfg chunk audioOutputFile videoOutputFile sched w) in
  errorChannel w' = errorChannel w ++ omap sent_error (rev (since w w')) /\
  (length (errorChannel w') <= errorChannel_cap)%nat /\
  (forall g, g <> audioOutputFile -> g <> videoOutputFile ->
             outputs w' !! g = outputs w !! g) /\
  (forall g, default [] (outputs w !! g) `prefix_of` default [] (outputs w' !! g)).
Proof.
  intros Hcap. unfold processChunk. destruct (Err chunk) as [e|].
  - unfold send_error. case_decide as Hlt; simpl.
    + rewrite (since_app w _ [EvSend e]) by reflexivity. simpl.
      repeat split; try reflexivity.
      rewrite length_app. simpl. lia.
    + rewrite since_spawn. simpl. rewrite app_nil_r. repeat split; auto.
  - set (s := run_schedule _ _ _ _ _ _ _).
    assert (Hr : reach (spawn w) s) by apply run_schedule_reach.
    assert (Hw : outcome_world
                   (if is_done (audio_pc s) && is_done (video_pc s)
                    then Returned (world s) else Blocked (world s)) = world s)
      by now destruct (is_done (audio_pc s) && is_done (video_pc s)).
    cbv zeta. rewrite Hw.
    destruct (reach_channel_inv w s Hr) as (sent & Hec & Hev & _ & Hlen).
    destruct (reach_outputs_inv w s Hr) as [Hrest Hgrow].
    split; [|split; [auto|split; assumption]].
    rewrite Hec. f_equal.
    rewrite omap_sent_rev, Hev. now rewrite rev_involutive.
Qed.

End ProcessExtra.

(* ------------------------------------------------------------------ *)
(** *** The loop over the chunks of a video *)

Section ChunksExtra.
Variable env : Env.
Variable cfg : Config.
Variables audioOutputFile videoOutputFile : string.

Lemma process_chunks_room (chunks : list ChunkData) :
  forall w,
    Forall (fun c => Err c = None) chunks ->
    (length (errorChannel w) + 4 * length chunks <= errorChannel_cap)%nat ->
    exists w' sent,
      process_chunks env cfg chunks audioOutputFile videoOutputFile w = Returned w' /\
      errorChannel w' = errorChannel w ++ sent /\
      (length sent <= 4 * length chunks)%nat /\
      trace w' = since w w' ++ trace w /\
      length (filter (fun e => is_fprint e = true) (since w w'))
      = (2 * length chunks)%nat.
Proof.
  induction chunks as [|c rest IH]; intros w Herr Hroom.
  - exists w, []. simpl. rewrite app_nil_r, since_spawn. auto.
  - inversion Herr as [|c' rest' Hc Hrest]; subst. simpl length in Hroom.
    destruct (processChunk_room env cfg c audioOutputFile videoOutputFile
                (goroutine_schedule env (trace w)) w Hc)
      as (w1 & sent1 & ta & oka & tv & okv & Hp & Hec1 & Hlen1 & Ht1 & Hw1); [lia|].
    destruct (IH w1 Hrest) as (w' & sent2 & Hq & Hec2 & Hlen2 & Ht2 & Hw2).
    { rewrite Hec1, length_app. lia. }
    exists w', (sent1 ++ sent2). simpl process_chunks. rewrite Hp.
    assert (Hsince : since w w' = since w1 w' ++ since w w1).
    { apply since_app. rewrite Ht2, Ht1 at 1. now rewrite app_assoc. }
    split; [exact Hq|]. split; [rewrite Hec2, Hec1; now rewrite app_assoc|].
    split; [rewrite length_app; simpl length; lia|].
    split; [rewrite Hsince, <- app_assoc, <- Ht1; exact Ht2|].
    rewrite Hsince, filter_app, length_app, Hw2.
    apply Permutation_length in Hw1. rewrite Hw1. simpl length. lia.
Qed.

(** X8. The chunks of a video are all processed, whatever the schedules,
    when the error channel has room for four errors per chunk: the loop
    returns, at most four errors per chunk were sent, and two writes per
    chunk were tried.  With the channel of ten empty at the start this
    covers a video of two chunks. *)
Theorem process_chunks_returns_with_room (chunks : list ChunkData) (w : World) :
  Forall (fun c => Err c = None) chunks ->
  (length (errorChannel w) + 4 * length chunks <= errorChannel_cap)%nat ->
  exists w' sent,
    process_chunks env cfg chunks audioOutputFile videoOutputFile w = Returned w' /\
    errorChannel w' = errorChannel w ++ sent /\
    (length sent <= 4 * length chunks)%nat /\
    length (filter (fun e => is_fprint e = true) (since w w'))
    = (2 * length chunks)%nat.
Proof.
  intros Herr Hroom.
  destruct (process_chunks_room chunks w Herr Hroom)
    as (w' & sent & H1 & H2 & H3 & _ & H4).
  exists w', sent. auto.
Qed.

End ChunksExtra.

Lemma processChunk_returns_with_room_witness :
  exists w' sent audioText audioOk videoText videoOk,
    processChunk calm_env plain_cfg first_chunk "lecture_audio_output.txt"
      "lecture_video_output.txt" [VideoTask; AudioTask; VideoTask] empty_world
    = Returned w' /\
    errorChannel w' = errorChannel empty_world ++ sent /\
    (length sent <= 4)%nat /\
    filter (fun e => is_fprint e = true) (since empty_world w')
    ≡ₚ [EvFprint "lecture_audio_output.txt" (record first_chunk audioText) audioOk;
        EvFprint "lecture_video_output.txt" (record first_chunk videoText) videoOk].
Proof.
  apply (processChunk_returns_with_room calm_env plain_cfg first_chunk
           "lecture_audio_output.txt" "lecture_video_output.txt"
           [VideoTask; AudioTask; VideoTask] empty_world).
  - reflexivity.
  - simpl. unfold errorChannel_cap. lia.
Defined.

Lemma processChunk_shared_state_grows_witness :
  let w' := outcome_world
              (processChunk failing_whisper_env plain_cfg first_chunk
                 "lecture_audio_output.txt" "lecture_video_output.txt"
                 [AudioTask; AudioTask] empty_world) in
  errorChannel w' = errorChannel empty_world
                    ++ omap sent_error (rev (since empty_world w')) /\
  (length (errorChannel w') <= errorChannel_cap)%nat /\
  (forall g, g <> "lecture_audio_output.txt" -> g <> "lecture_video_output.txt" ->
             outputs w' !! g = outputs empty_world !! g) /\
  (forall g, default [] (outputs empty_world !! g)
             `prefix_of` default [] (outputs w' !! g)).
Proof.
  apply (processChunk_shared_state_grows failing_whisper_env plain_cfg first_chunk
           "lecture_audio_output.txt" "lecture_video_output.txt"
           [AudioTask; AudioTask] empty_world).
  simpl. unfold errorChannel_cap. lia.
Defined.

Lemma process_chunks_returns_with_room_witness :
  exists w' sent,
    process_chunks calm_env plain_cfg
      [chunk_at "/tmp/video_chunks1" 1 "lecture" 0;
       chunk_at "/tmp/video_chunks1" 1 "lecture" 1]
      "lecture_audio_output.txt" "lecture_video_output.txt" empty_world
    = Returned w' /\
    errorChannel w' = errorChannel empty_world ++ sent /\
    (length sent <= 4 * 2)%nat /\
    length (filter (fun e => is_fprint e = true) (since empty_world w')) = (2 * 2)%nat.
Proof.
  apply (process_chunks_returns_with_room calm_env plain_cfg
           "lecture_audio_output.txt" "lecture_video_output.txt"
           [chunk_at "/tmp/video_chunks1" 1 "lecture" 0;
            chunk_at "/tmp/video_chunks1" 1 "lecture" 1] empty_world).
  - repeat constructor.
  - simpl. unfold errorChannel_cap. lia.
Defined.

(* ------------------------------------------------------------------ *)
(** *** transcribeVideoLLM: when it fails *)

Section VideoExtra.
Variable env : Env.

Lemma ocr_is_fine (e : event) : ocr_event e = true -> frames_fine e = true.
Proof. now destruct e. Qed.

Lemma prompt_is_fine (e : event) : prompt_event e = true -> frames_fine e = true.
Proof. now destruct e. Qed.

Lemma ocr_with_temp_ocr (fp tempFilePath : string) (w : World) :
  extends ocr_event w (ocr_with_temp env fp tempFilePath w).2.
Proof.
  unfold ocr_with_temp. destruct (temp_Write env (trace w) tempFilePath).
  - simpl. grow.
  - destruct (temp_Close env _ tempFilePath); [simpl; grow|].
    destruct (tesseract env _ tempFilePath); simpl; grow.
Qed.

Lemma ocr_worker_ocr (fp : string) (w : World) :
  extends ocr_event w (ocr_worker env fp w).2.
Proof.
  unfold ocr_worker.
  destruct (os_Open env (trace w) fp); [simpl; grow|].
  destruct (image_Decode env _ fp); [simpl; grow|].
  destruct (jpeg_Encode env _ fp); [simpl; grow|].
  destruct (CreateTemp env _ "ocr_*.jpg") as [tempFilePath|err]; [|simpl; grow].
  match goal with |- context [ocr_with_temp env fp tempFilePath ?w1] =>
    pose proof (ocr_with_temp_ocr fp tempFilePath w1) as H;
    destruct (ocr_with_temp env fp tempFilePath w1) as [r w'] end.
  simpl in *. unfold os_Remove. apply extends_emit; [reflexivity|].
  apply extends_set_fs.
  eapply extends_trans; [|exact H]. grow.
Qed.

Lemma run_workers_ocr (left : nat) :
  forall pending w, extends ocr_event w (run_workers env left pending w).2.
Proof.
  induction left as [|left IH]; intros pending w; [apply extends_refl|].
  destruct pending as [|fp0 rest]; [apply extends_refl|].
  rewrite run_workers_step. cbv zeta.
  match goal with |- context [ocr_worker env ?fp w] =>
    pose proof (ocr_worker_ocr fp w) as H1;
    destruct (ocr_worker env fp w) as [r w1] end.
  match goal with |- context [run_workers env left ?p w1] =>
    pose proof (IH p w1) as H2;
    destruct (run_workers env left p w1) as [rs w2] end.
  simpl in *. eapply extends_trans; eassumption.
Qed.

Lemma collect_results_ocr (results : list frameResult) :
  forall combined w, extends ocr_event w (collect_results results combined w).2.
Proof.
  induction results as [|r results IH]; intros combined w; [apply extends_refl|].
  simpl. destruct (frError r); [|apply IH].
  eapply extends_trans; [|apply IH]. grow.
Qed.

Lemma transcribeFrames_ocr (framePaths : list string) (w : World) :
  extends ocr_event w (transcribeFramesTesseractCLI env framePaths w).2.
Proof.
  unfold transcribeFramesTesseractCLI.
  pose proof (run_workers_ocr (length framePaths) framePaths w) as H1.
  destruct (run_workers env (length framePaths) framePaths w) as [results w1].
  pose proof (collect_results_ocr results "" w1) as H2.
  destruct (collect_results results "" w1) as [text w2].
  simpl in *. eapply extends_trans; eassumption.
Qed.

Lemma cleanup_frames_ocr (framePaths : list string) (w : World) :
  extends ocr_event w (cleanup_frames env framePaths w).
Proof. destruct framePaths; simpl; grow. Qed.

(** Frame extraction fails with a failed event, and succeeds without. *)
Lemma extractFrames_outcome (videoPath : string) (videoIndex chunkNum : Z) (w : World) :
  match extractFrames env videoPath videoIndex chunkNum w with
  | (inr _, w') => has_failed w w'
  | (inl _, w') => extends frames_fine w w'
  end.
Proof.
  unfold extractFrames. destruct (MkdirTemp env (trace w) _) as [tempDir|err].
  - destruct (ffmpeg_frames env _ videoPath tempDir) as [names|err].
    + grow.
    + eexists [_; _; _]. split; [reflexivity|].
      apply Exists_cons_tl, Exists_cons_hd. reflexivity.
  - eexists [_]. split; [reflexivity|]. now apply Exists_cons_hd.
Qed.

Lemma has_failed_after (w0 w w' : World) (P : event -> bool) :
  extends P w0 w -> has_failed w w' -> has_failed w0 w'.
Proof.
  intros [(pre & Hpre & _) _] (new & Hnew & Hex).
  exists (new ++ pre). split; [rewrite Hnew, Hpre; now rewrite app_assoc|].
  apply Exists_app. now left.
Qed.

Lemma has_failed_before (w w' w2 : World) (P : event -> bool) :
  has_failed w w' -> extends P w' w2 -> has_failed w w2.
Proof.
  intros (new & Hnew & Hex) [(post & Hpost & _) _].
  exists (post ++ new). split; [rewrite Hpost, Hnew; now rewrite app_assoc|].
  apply Exists_app. now right.
Qed.

Lemma fallback_after_upload_failure_verdict (videoPath : string)
    (videoIndex chunkNum : Z) (w : World) :
  frames_verdict videoIndex chunkNum
    (fallback_after_upload_failure env videoPath videoIndex chunkNum w).1 w
    (fallback_after_upload_failure env videoPath videoIndex chunkNum w).2.
Proof.
  unfold fallback_after_upload_failure.
  pose proof (extractFrames_outcome videoPath videoIndex chunkNum w) as H1.
  destruct (extractFrames env videoPath videoIndex chunkNum w) as [[framePaths|err] w1];
    [|simpl; eauto].
  pose proof (transcribeFrames_ocr framePaths w1) as H2.
  pose proof (transcribeFrames_no_error env framePaths w1) as H3.
  destruct (transcribeFramesTesseractCLI env framePaths w1) as [[text err] w2].
  simpl in *. subst err. simpl.
  eapply extends_trans; [exact H1|].
  eapply extends_mono; [exact ocr_is_fine|].
  eapply extends_trans; [exact H2 | apply cleanup_frames_ocr].
Qed.

Lemma fallback_after_empty_response_verdict (videoPath : string)
    (videoIndex chunkNum : Z) (w : World) :
  frames_verdict videoIndex chunkNum
    (fallback_after_empty_response env videoPath videoIndex chunkNum w).1 w
    (fallback_after_empty_response env videoPath videoIndex chunkNum w).2.
Proof.
  unfold fallback_after_empty_response.
  pose proof (extractFrames_outcome videoPath videoIndex chunkNum w) as H1.
  destruct (extractFrames env videoPath videoIndex chunkNum w) as [[framePaths|err] w1];
    [|simpl; eauto].
  pose proof (transcribeFrames_ocr framePaths w1) as H2.
  pose proof (transcribeFrames_no_error env framePaths w1) as H3.
  destruct (transcribeFramesTesseractCLI env framePaths w1) as [[text err] w2].
  simpl in *. subst err. simpl.
  eapply extends_trans; [exact H1|].
  eapply extends_mono; [exact ocr_is_fine|].
  eapply extends_trans; [exact H2 | apply cleanup_frames_ocr].
Qed.

Lemma frames_verdict_wrap (videoIndex chunkNum : Z) (r : string + error)
    (w0 w w' w2 : World) (P Q : event -> bool) :
  (forall e, P e = true -> frames_fine e = true) ->
  (forall e, Q e = true -> frames_fine e = true) ->
  extends P w0 w -> frames_verdict videoIndex chunkNum r w w' -> extends Q w' w2 ->
  frames_verdict videoIndex chunkNum r w0 w2.
Proof.
  intros HP HQ H0 Hv H2. destruct r as [text|err]; simpl in *.
  - eapply extends_trans; [eapply extends_mono; [exact HP | exact H0]|].
    eapply extends_trans; [exact Hv|]. eapply extends_mono; [exact HQ | exact H2].
  - destruct Hv as [Hc Hf]. split; [exact Hc|].
    eapply has_failed_before; [|exact H2]. eapply has_failed_after; eassumption.
Qed.

Lemma transcribeVideoLLM_verdict (videoPath : string) (videoIndex chunkNum : Z)
    (w : World) :
  frames_verdict videoIndex chunkNum
    (transcribeVideoLLM env videoPath videoIndex chunkNum w).1 w
    (transcribeVideoLLM env videoPath videoIndex chunkNum w).2.
Proof.
  unfold transcribeVideoLLM.
  destruct (UploadFileFromPath env (trace w) videoPath) as [uploadedFile|err].
  - set (w0 := time_Sleep _ _).
    pose proof (sentLlmPrompt_extends env (transcribe_prompt (URI uploadedFile))
                  videoIndex w0) as H1.
    destruct (sentLlmPrompt env _ None videoIndex w0) as [t w1]. simpl in H1.
    assert (H0 : extends frames_fine w w0) by (subst w0; grow).
    assert (H01 : extends frames_fine w w1).
    { eapply extends_trans; [exact H0|].
      eapply extends_mono; [exact prompt_is_fine | exact H1]. }
    destruct (String.eqb t "").
    + pose proof (fallback_after_empty_response_verdict videoPath videoIndex
                    chunkNum w1) as Hv.
      destruct (fallback_after_empty_response env videoPath videoIndex chunkNum w1)
        as [r w2]. simpl in *.
      apply (frames_verdict_wrap videoIndex chunkNum r w w1 w2 _
               frames_fine frames_fine); auto.
      unfold delete_uploaded. grow.
    + simpl. unfold delete_uploaded. apply extends_emit; [reflexivity|]. exact H01.
  - pose proof (fallback_after_upload_failure_verdict videoPath videoIndex chunkNum
                  (emit (EvUploadFile videoPath false) w)) as Hv.
    destruct (fallback_after_upload_failure env videoPath videoIndex chunkNum _)
      as [r w2]. simpl in *.
    apply (frames_verdict_wrap videoIndex chunkNum r w
             (emit (EvUploadFile videoPath false) w) w2 w2
             frames_fine frames_fine); auto; grow.
Qed.

(** X9. [transcribeVideoLLM] returns an error only when the frames of
    the fallback could not be extracted (no temp directory, or ffmpeg
    failed), and the error is that of the extraction, wrapped.  A failed
    upload, a model that never answers and text recognition failing on
    every frame do not make it fail: whenever it returns a text, no frame
    extraction failed. *)
Theorem transcribeVideoLLM_fails_only_on_frames (videoPath : string)
    (videoIndex chunkNum : Z) (w : World) :
  let '(r, w') := transcribeVideoLLM env videoPath videoIndex chunkNum w in
  match r with
  | inr err =>
      (exists cause, err = frames_error videoIndex chunkNum cause) /\
      exists e, In e (since w w') /\ frames_failed e = true
  | inl _ => forall e, In e (since w w') -> frames_failed e = false
  end.
Proof.
  pose proof (transcribeVideoLLM_verdict videoPath videoIndex chunkNum w) as H.
  destruct (transcribeVideoLLM env videoPath videoIndex chunkNum w) as [[text|err] w'];
    simpl in H.
  - destruct H as [(new & Ht & F) _]. rewrite (since_app w w' new Ht).
    intros e He. rewrite Forall_forall in F.
    specialize (F e (proj2 (list_elem_of_In _ _) He)).
    unfold frames_fine in F. now destruct (frames_failed e).
  - destruct H as [Hc (new & Ht & Hex)]. split; [exact Hc|].
    rewrite (since_app w w' new Ht). apply Exists_exists in Hex.
    destruct Hex as (e & He & Hf). exists e. split; [|exact Hf].
    now apply list_elem_of_In.
Qed.

End VideoExtra.

(* ------------------------------------------------------------------ *)
(** *** The recognition ensemble and its temp files *)

Section OcrExtra.
Variable env : Env.

Lemma balanced_refl (w : World) : balanced w w.
Proof. split; [reflexivity|]. now exists []. Qed.

Lemma balanced_trans (w1 w2 w3 : World) :
  balanced w1 w2 -> balanced w2 w3 -> balanced w1 w3.
Proof.
  intros [Hf1 (n1 & Ht1 & Hc1)] [Hf2 (n2 & Ht2 & Hc2)].
  split; [etransitivity; eassumption|].
  exists (n2 ++ n1). split; [rewrite Ht2, Ht1; now rewrite app_assoc|].
  rewrite !filter_app, !length_app. lia.
Qed.

Lemma temp_not_created (e : event) : temp_event e = true -> created_temp e = false.
Proof. now destruct e. Qed.

Lemma temp_not_remove (e : event) : temp_event e = true -> is_remove e = false.
Proof. now destruct e. Qed.

Lemma ocr_worker_balanced (fp : string) (w : World) :
  balanced w (ocr_worker env fp w).2.
Proof.
  unfold ocr_worker.
  destruct (os_Open env (trace w) fp).
  { split; [reflexivity|]. now eexists [_]. }
  destruct (image_Decode env _ fp).
  { split; [reflexivity|]. now eexists [_; _]. }
  destruct (jpeg_Encode env _ fp).
  { split; [reflexivity|]. now eexists [_; _; _]. }
  simpl trace.
  destruct (CreateTemp env _ "ocr_*.jpg") as [tempFilePath|err].
  - match goal with |- context [ocr_with_temp env fp tempFilePath ?w1] =>
      destruct (ocr_with_temp_keeps_files env fp tempFilePath w1)
        as [Hfs (new & Ht & HF)];
      destruct (ocr_with_temp env fp tempFilePath w1) as [r w2] end.
    simpl in Hfs, Ht. cbv zeta. simpl snd. split.
    + unfold os_Remove. simpl. rewrite Hfs. set_solver.
    + exists (EvRemove tempFilePath :: new
              ++ [EvCreateTemp "ocr_*.jpg" true; EvEncode fp true;
                  EvDecode fp true; EvOpen fp true]).
      split; [simpl; rewrite Ht; now rewrite <- app_assoc|].
      rewrite filter_cons, decide_False by discriminate.
      rewrite (filter_cons _ (EvRemove tempFilePath)), decide_True by reflexivity.
      rewrite !filter_app.
      rewrite (Forall_filter_nil temp_event created_temp new temp_not_created HF).
      rewrite (Forall_filter_nil temp_event is_remove new temp_not_remove HF).
      reflexivity.
  - split; [reflexivity|]. now eexists [_; _; _; _].
Qed.

Lemma run_workers_balanced (left : nat) :
  forall pending w, balanced w (run_workers env left pending w).2.
Proof.
  induction left as [|left IH]; intros pending w; [apply balanced_refl|].
  destruct pending as [|fp0 rest]; [apply balanced_refl|].
  rewrite run_workers_step. cbv zeta.
  match goal with |- context [ocr_worker env ?fp w] =>
    pose proof (ocr_worker_balanced fp w) as H1;
    destruct (ocr_worker env fp w) as [r w1] end.
  match goal with |- context [run_workers env left ?p w1] =>
    pose proof (IH p w1) as H2;
    destruct (run_workers env left p w1) as [rs w2] end.
  simpl in *. eapply balanced_trans; eassumption.
Qed.

Lemma collect_results_balanced (results : list frameResult) :
  forall combined w, balanced w (collect_results results combined w).2.
Proof.
  induction results as [|r results IH]; intros combined w; [apply balanced_refl|].
  simpl. destruct (frError r); [|apply IH].
  eapply balanced_trans; [|apply IH].
  split; [reflexivity|]. now eexists [_].
Qed.

(** X10. The recognition ensemble leaves no temp file behind, whatever
    the number of frames, the order in which the workers report and the
    steps that fail: after it nothing is on disk that was not there
    before, and it removed as many files as temp files were made. *)
Theorem transcribeFramesTesseractCLI_leaves_no_temp (framePaths : list string)
    (w : World) :
  let w' := (transcribeFramesTesseractCLI env framePaths w).2 in
  fs w' ⊆ fs w /\
  length (filter (fun e => created_temp e = true) (since w w'))
  = length (filter (fun e => is_remove e = true) (since w w')).
Proof.
  unfold transcribeFramesTesseractCLI.
  pose proof (run_workers_balanced (length framePaths) framePaths w) as H1.
  destruct (run_workers env (length framePaths) framePaths w) as [results w1].
  pose proof (collect_results_balanced results "" w1) as H2.
  destruct (collect_results results "" w1) as [text w2].
  simpl in *.
  destruct (balanced_trans _ _ _ H1 H2) as [Hfs (new & Ht & Hc)].
  split; [exact Hfs|]. now rewrite (since_app w w2 new Ht).
Qed.

End OcrExtra.

(* ------------------------------------------------------------------ *)
(** *** The base name of a video and its output files *)

Lemma of_bytes_app (a b : list ascii) : of_bytes (a ++ b) = of_bytes a +:+ of_bytes b.
Proof.
  induction a as [|c a IH]; [reflexivity|].
  change (String c (of_bytes (a ++ b)) = String c (of_bytes a +:+ of_bytes b)).
  now rewrite IH.
Qed.

Lemma prefix_empty (s : string) : String.prefix "" s = true.
Proof. now destruct s. Qed.

Lemma prefix_of_bytes_app (a b : list ascii) :
  String.prefix (of_bytes a) (of_bytes (a ++ b)) = true.
Proof.
  induction a as [|c a IH]; [apply prefix_empty|].
  change (String.prefix (String c (of_bytes a)) (String c (of_bytes (a ++ b))) = true).
  simpl. destruct (ascii_dec c c) as [_|Hne]; [exact IH | now destruct Hne].
Qed.

Lemma TrimSuffix_app (b0 e : list ascii) :
  TrimSuffix (of_bytes (b0 ++ e)) (of_bytes e) = of_bytes b0.
Proof.
  unfold TrimSuffix, HasSuffix. rewrite !bytes_of_bytes, rev_app_distr.
  rewrite prefix_of_bytes_app, length_app.
  replace (length b0 + length e - length e)%nat with (length b0) by lia.
  now rewrite take_app_length.
Qed.

Lemma take_elem_app (x rest : list ascii) :
  existsb is_sep x = false -> take_elem (x ++ rest) = x ++ take_elem rest.
Proof.
  induction x as [|c x IH]; intros H; [reflexivity|].
  simpl in *. apply orb_false_elim in H. destruct H as [Hc Hx].
  rewrite Hc. now rewrite IH.
Qed.

Lemma is_dot_eq (c : ascii) : is_dot c = true -> c = "."%char.
Proof. apply Ascii.eqb_eq. Qed.

(** The scan for the extension gives nothing, or it stops at the first
    dot from the end, before any separator. *)
Lemma ext_scan_shape (r acc : list ascii) :
  ext_scan r acc = [] \/
  exists x rest,
    r = x ++ "."%char :: rest /\ existsb is_sep x = false /\
    ext_scan r acc = "."%char :: rev x ++ acc.
Proof.
  revert acc. induction r as [|c r IH]; intros acc; [now left|].
  simpl. destruct (is_sep c) eqn:Hs; [now left|].
  destruct (is_dot c) eqn:Hd.
  - right. apply is_dot_eq in Hd. subst c. now exists [], r.
  - destruct (IH (c :: acc)) as [H|(x & rest & -> & Hx & H)]; [now left|].
    right. exists (c :: x), rest. split; [reflexivity|].
    split; [simpl; now rewrite Hs|].
    rewrite H. simpl. now rewrite <- app_assoc.
Qed.

Lemma ext_scan_to_dot (x rest acc : list ascii) :
  existsb is_sep x = false -> existsb is_dot x = false ->
  ext_scan (x ++ "."%char :: rest) acc = "."%char :: rev x ++ acc.
Proof.
  revert acc. induction x as [|c x IH]; intros acc Hs Hd; [reflexivity|].
  simpl in *. apply orb_false_elim in Hs. apply orb_false_elim in Hd.
  destruct Hs as [Hs1 Hs2]. destruct Hd as [Hd1 Hd2].
  rewrite Hs1, Hd1, IH by assumption. now rewrite <- app_assoc.
Qed.

(** The last element of a path whose reversed bytes start with such a
    stretch. *)
Lemma filepath_Base_of_rev (p : string) (x rest : list ascii) :
  rev (bytes p) = x ++ "."%char :: rest -> existsb is_sep x = false ->
  filepath_Base p = of_bytes (rev (take_elem rest) ++ "."%char :: rev x).
Proof.
  intros Hr Hx. unfold filepath_Base.
  destruct p as [|c p]; [now destruct x|].
  rewrite Hr.
  assert (Hd : drop_seps (x ++ "."%char :: rest) = x ++ "."%char :: rest).
  { destruct x as [|y x]; [reflexivity|]. simpl in *.
    apply orb_false_elim in Hx. destruct Hx as [Hy _]. now rewrite Hy. }
  rewrite Hd, (take_elem_app x _ Hx). simpl take_elem.
  rewrite rev_app_distr. simpl rev. rewrite <- app_assoc. simpl app.
  destruct (rev (take_elem rest)); reflexivity.
Qed.

(** X11. Taking the extension off the last element of a path and
    putting it back gives the last element again, for every path: the
    base name that names the output files is the last element without its
    extension. *)
Theorem baseName_roundtrip (videoPath : string) :
  TrimSuffix (filepath_Base videoPath) (filepath_Ext videoPath)
  +:+ filepath_Ext videoPath
  = filepath_Base videoPath.
Proof.
  unfold filepath_Ext.
  destruct (ext_scan_shape (rev (bytes videoPath)) [])
    as [H|(x & rest & Hr & Hx & H)]; rewrite H.
  - change (of_bytes []) with EmptyString.
    rewrite string_app_nil_r. unfold TrimSuffix, HasSuffix.
    change (of_bytes (rev (bytes ""))) with EmptyString.
    rewrite prefix_empty. change (length (bytes "")) with 0%nat.
    now rewrite Nat.sub_0_r, firstn_all, of_bytes_bytes.
  - rewrite app_nil_r, (filepath_Base_of_rev videoPath x rest Hr Hx).
    rewrite TrimSuffix_app. now rewrite of_bytes_app.
Qed.

(** X12. The base name of [dir/stem.ext] is [stem], whatever the
    directory and the extension: the three output files of a video are
    named after the stem alone, so two videos with the same stem, in
    different directories or with different extensions, share them. *)
Theorem baseName_is_stem (dir stem ext : string) :
  existsb is_sep (bytes stem) = false ->
  existsb is_sep (bytes ext) = false ->
  existsb is_dot (bytes ext) = false ->
  TrimSuffix (filepath_Base (dir +:+ "/" +:+ stem +:+ "." +:+ ext))
    (filepath_Ext (dir +:+ "/" +:+ stem +:+ "." +:+ ext))
  = stem.
Proof.
  intros Hstem Hsep Hdot.
  set (p := dir +:+ "/" +:+ stem +:+ "." +:+ ext).
  assert (Hr : rev (bytes p)
               = rev (bytes ext) ++ "."%char :: (rev (bytes stem) ++ "/"%char
                                                  :: rev (bytes dir))).
  { subst p. rewrite !bytes_app. change (bytes "/") with ["/"%char].
    change (bytes ".") with ["."%char].
    rewrite !rev_app_distr. simpl rev. rewrite <- !app_assoc. reflexivity. }
  assert (Hx : existsb is_sep (rev (bytes ext)) = false)
    by now rewrite existsb_rev.
  assert (Hd : existsb is_dot (rev (bytes ext)) = false)
    by now rewrite existsb_rev.
  rewrite (filepath_Base_of_rev p _ _ Hr Hx).
  rewrite take_elem_app by now rewrite existsb_rev.
  simpl take_elem. rewrite app_nil_r, !rev_involutive.
  unfold filepath_Ext. rewrite Hr, (ext_scan_to_dot _ _ _ Hx Hd).
  rewrite app_nil_r, rev_involutive.
  rewrite (TrimSuffix_app (bytes stem) ("."%char :: bytes ext)).
  apply of_bytes_bytes.
Qed.

Lemma baseName_is_stem_witness :
  TrimSuffix (filepath_Base "talks/2024/intro.mkv") (filepath_Ext "talks/2024/intro.mkv")
  = "intro".
Proof.
  apply (baseName_is_stem "talks/2024" "intro" "mkv"); reflexivity.
Defined.

(* ------------------------------------------------------------------ *)
(** *** The three output files of a video *)

Section OutputFiles.
Variable env : Env.
Variable cfg : Config.



Section OneChunk.
Variable chunk : ChunkData.
Variables audioOutputFile videoOutputFile : string.

Abbreviation file_of := (task_file audioOutputFile videoOutputFile).





End OneChunk.









End OutputFiles.


(* ------------------------------------------------------------------ *)
(** *** The error channel over a whole run *)

Lemma chan_refl (w : World) : chan_inv w w.
Proof. exists []. simpl. rewrite app_nil_r. auto. Qed.

Lemma chan_trans (w1 w2 w3 : World) :
  chan_inv w1 w2 -> chan_inv w2 w3 -> chan_inv w1 w3.
Proof.
  intros (n1 & Ht1 & Hc1 & Hl1) (n2 & Ht2 & Hc2 & Hl2).
  exists (n2 ++ n1). split; [rewrite Ht2, Ht1; now rewrite app_assoc|].
  split; [|auto].
  rewrite Hc2, Hc1, rev_app_distr, omap_app. now rewrite app_assoc.
Qed.

Lemma chan_emit (e : event) (w0 w : World) :
  sent_error e = None -> chan_inv w0 w -> chan_inv w0 (emit e w).
Proof.
  intros He (new & Ht & Hc & Hl). exists (e :: new). simpl.
  split; [now rewrite Ht|]. split; [|exact Hl].
  rewrite omap_app. simpl. rewrite He. simpl. now rewrite app_nil_r.
Qed.

Lemma chan_set_fs (f : gset string) (w0 w : World) :
  chan_inv w0 w -> chan_inv w0 (set_fs f w).
Proof. intros H. exact H. Qed.

Lemma chan_set_outputs (o : gmap string (list string)) (w0 w : World) :
  chan_inv w0 w -> chan_inv w0 (set_outputs o w).
Proof. intros H. exact H. Qed.

Lemma extends_chan (P : event -> bool) (w w' : World) :
  (forall e, P e = true -> sent_error e = None) -> extends P w w' -> chan_inv w w'.
Proof.
  intros HP [(new & Ht & F) [_ Hc]]. exists new. split; [exact Ht|].
  assert (Hn : omap sent_error (rev new) = []).
  { apply Forall_rev in F. induction F as [|e l He _ IH]; [reflexivity|].
    simpl. now rewrite (HP e He). }
  rewrite Hn, app_nil_r, Hc. auto.
Qed.

(** Steps that close [chan_inv] goals over the primitive operations. *)
Ltac chan :=
  unfold os_RemoveAll, os_Remove, log_Print, time_Sleep;
  repeat first
    [ apply chan_refl
    | assumption
    | apply chan_emit; [reflexivity|]
    | apply chan_set_fs
    | apply chan_set_outputs ].

Section RunExtra.
Variable env : Env.
Variable cfg : Config.

Lemma fprint_chan (f text : string) (w0 w : World) :
  chan_inv w0 w -> chan_inv w0 (fprint env f text w).2.
Proof. intros H. unfold fprint. destruct (Fprint env (trace w) f text); simpl; chan. Qed.

Lemma create_chan (name : string) (w0 w : World) :
  chan_inv w0 w -> chan_inv w0 (create env name w).2.
Proof. intros H. unfold create. destruct (os_Create env (trace w) name); simpl; chan. Qed.

Lemma read_file_chan (name : string) (w0 w : World) :
  chan_inv w0 w -> chan_inv w0 (read_file env name w).2.
Proof.
  intros H. unfold read_file. destruct (os_ReadFile env (trace w) name); simpl; chan.
Qed.

Lemma collect_parts_chan (file : option string) (parts : list part) :
  forall acc w0 w, chan_inv w0 w -> chan_inv w0 (collect_parts env file parts acc w).2.
Proof.
  induction parts as [|p parts IH]; intros acc w0 w H; [exact H|].
  destruct p as [text|uri|mime]; simpl; try (now apply IH).
  apply IH. destruct file as [f|]; [|exact H].
  pose proof (fprint_chan f (text +:+ nl) w0 w H) as Hf.
  destruct (fprint env f (text +:+ nl) w) as [[err|] w1]; simpl in Hf; chan.
Qed.

Lemma collect_candidates_chan (file : option string) (cands : list Candidate) :
  forall acc w0 w,
    chan_inv w0 w -> chan_inv w0 (collect_candidates env file cands acc w).2.
Proof.
  induction cands as [|c cands IH]; intros acc w0 w H; [exact H|].
  simpl. destruct (Content c) as [parts|]; [|now apply IH].
  pose proof (collect_parts_chan file parts acc w0 w H) as H1.
  destruct (collect_parts env file parts acc w) as [r w1]. now apply IH.
Qed.

Lemma sentLlmPrompt_chan (prompt : list part) (file : option string)
    (videoIndex : Z) (w0 w : World) :
  chan_inv w0 w -> chan_inv w0 (sentLlmPrompt env prompt file videoIndex w).2.
Proof.
  unfold sentLlmPrompt. generalize 0. generalize (Z.to_nat (maxRetries + 1)).
  intros left. revert w. induction left as [|left IH]; intros w attempt H; [exact H|].
  simpl. destruct (GenerateContent env (trace w) prompt) as [resp|err].
  - apply collect_candidates_chan. chan.
  - destruct (attempt <? maxRetries); [apply IH|]; chan.
Qed.

Lemma chunk_loop_chan (tempDir videoPath : string) (chunkDuration videoIndex : Z)
    (baseName : string) (left : nat) :
  forall i chunks w0 w,
    chan_inv w0 w ->
    chan_inv w0 (chunk_loop env left i tempDir videoPath chunkDuration videoIndex
                   baseName chunks w).2.
Proof.
  induction left as [|left IH]; intros i chunks w0 w H; [exact H|].
  simpl. destruct (ffmpeg_chunk env (trace w) videoPath _ chunkDuration _ _);
    [simpl; chan|]. apply IH. chan.
Qed.

Lemma chunkVideo_chan (videoPath : string) (chunkDuration videoIndex : Z)
    (baseName : string) (w0 w : World) :
  chan_inv w0 w ->
  chan_inv w0 (chunkVideo env videoPath chunkDuration videoIndex baseName w).2.
Proof.
  intros H. unfold chunkVideo.
  destruct (LookPath env (trace w) "ffmpeg"); [simpl; chan|].
  destruct (MkdirTemp env _ "video_chunks"); [|simpl; chan].
  destruct (ffprobe env _ videoPath) as [output|]; [|simpl; chan].
  destruct (ParseFloat env output) as [duration|]; [|simpl; chan].
  destruct (numChunks duration chunkDuration); [|simpl; chan].
  apply chunk_loop_chan. chan.
Qed.

Lemma task_event_sends_nothing (e : event) : task_event e = true -> sent_error e = None.
Proof. now destruct e. Qed.

Lemma processChunk_chan (chunk : ChunkData) (a v : string) (sched : list task)
    (w : World) :
  chan_inv w (outcome_world (processChunk env cfg chunk a v sched w)).
Proof.
  unfold processChunk. destruct (Err chunk) as [e|].
  - unfold send_error. case_decide as Hlt; simpl; [|apply chan_refl].
    exists [EvSend e]. simpl. split; [reflexivity|]. split; [reflexivity|].
    intros _. rewrite length_app. simpl. lia.
  - set (s := run_schedule _ _ _ _ _ _ _).
    assert (Hr : rtc (pstep env cfg chunk a v) (spawn w) s) by apply run_schedule_reach.
    assert (Hw : outcome_world
                   (if is_done (audio_pc s) && is_done (video_pc s)
                    then Returned (world s) else Blocked (world s)) = world s)
      by now destruct (is_done (audio_pc s) && is_done (video_pc s)).
    rewrite Hw.
    destruct (reach_channel_inv env cfg chunk a v w s Hr) as (sent & Hec & Hev & _ & Hlen).
    exists (since w (world s)).
    split; [apply (reach_trace env cfg chunk a v w s Hr)|]. split; [|exact Hlen].
    rewrite omap_sent_rev, Hev, rev_involutive. exact Hec.
Qed.

Lemma process_chunks_chan (a v : string) (chunks : list ChunkData) :
  forall w0 w,
    chan_inv w0 w ->
    chan_inv w0 (outcome_world (process_chunks env cfg chunks a v w)).
Proof.
  induction chunks as [|c rest IH]; intros w0 w H; [exact H|].
  simpl.
  pose proof (processChunk_chan c a v (goroutine_schedule env (trace w)) w) as Hp.
  destruct (processChunk env cfg c a v _ w) as [w1|w1]; simpl in Hp.
  - apply IH. eapply chan_trans; eassumption.
  - simpl. eapply chan_trans; eassumption.
Qed.

Lemma refine_video_chan (videoIndex : Z) (chunks : list ChunkData) (o a v : string)
    (w0 w : World) :
  chan_inv w0 w -> chan_inv w0 (refine_video env cfg videoIndex chunks o a v w).2.
Proof.
  intros H. unfold refine_video.
  pose proof (process_chunks_chan a v chunks w0 w H) as Hp.
  destruct (process_chunks env cfg chunks a v w) as [w1|w1]; simpl in Hp;
    [|exact Hp].
  pose proof (read_file_chan a w0 w1 Hp) as H2.
  destruct (read_file env a w1) as [[audioContent|err] w2]; simpl in H2; [|simpl; chan].
  pose proof (read_file_chan v w0 w2 H2) as H3.
  destruct (read_file env v w2) as [[videoContent|err] w3]; simpl in H3; [|simpl; chan].
  match goal with |- context [sentLlmPrompt env ?p (Some o) ?i w3] =>
    pose proof (sentLlmPrompt_chan p (Some o) i w0 w3 H3) as H4;
    destruct (sentLlmPrompt env p (Some o) i w3) as [r w4] end.
  simpl in *. now repeat apply fprint_chan.
Qed.

Lemma process_video_chan (chunkDuration videoIndex : Z) (videoPath : string)
    (w0 w : World) :
  chan_inv w0 w ->
  chan_inv w0 (process_video env cfg chunkDuration videoIndex videoPath w).2.
Proof.
  intros H. unfold process_video, log_Fatalf.
  set (baseName := TrimSuffix _ _).
  pose proof (create_chan (baseName +:+ "_output.txt") w0 w H) as H1.
  destruct (create env (baseName +:+ "_output.txt") w) as [[err|] w1]; simpl in H1;
    [simpl; chan|].
  pose proof (create_chan (baseName +:+ "_audio_output.txt") w0 w1 H1) as H2.
  destruct (create env (baseName +:+ "_audio_output.txt") w1) as [[err|] w2];
    simpl in H2; [simpl; chan|].
  pose proof (create_chan (baseName +:+ "_video_output.txt") w0 w2 H2) as H3.
  destruct (create env (baseName +:+ "_video_output.txt") w2) as [[err|] w3];
    simpl in H3; [simpl; chan|].
  pose proof (chunkVideo_chan videoPath chunkDuration (videoIndex + 1) baseName
                w0 w3 H3) as H4.
  destruct (chunkVideo env videoPath chunkDuration (videoIndex + 1) baseName w3)
    as [[chunks|err|] w4]; simpl in H4; [|simpl; chan|exact H4].
  now apply refine_video_chan.
Qed.

Lemma video_loop_chan (chunkDuration : Z) (videoPaths : list string) :
  forall videoIndex w0 w,
    chan_inv w0 w ->
    chan_inv w0 (video_loop env cfg chunkDuration videoIndex videoPaths w).2.
Proof.
  induction videoPaths as [|p rest IH]; intros videoIndex w0 w H; [exact H|].
  simpl.
  pose proof (process_video_chan chunkDuration videoIndex p w0 w H) as H1.
  destruct (process_video env cfg chunkDuration videoIndex p w) as [[|r] w1];
    simpl in H1; [now apply IH | exact H1].
Qed.

Lemma drain_errors_logs (w : World) :
  errorChannel (drain_errors w) = [] /\
  trace (drain_errors w) = rev (map goroutine_log (errorChannel w)) ++ trace w.
Proof.
  unfold drain_errors. split; [reflexivity|]. simpl.
  generalize (errorChannel w). intros errs. revert w.
  induction errs as [|e errs IH]; intros w; [reflexivity|].
  simpl. rewrite IH. simpl. now rewrite <- app_assoc.
Qed.

Lemma logs_send_nothing (errs : list error) :
  omap sent_error (map goroutine_log errs) = [].
Proof. induction errs as [|e l IH]; [reflexivity | exact IH]. Qed.

(** X14. When a run over at least one video completes, every error a
    goroutine sent is reported: the last events of the run are the lines
    [Error from goroutine: ...], one for each error that was in the
    channel at the start or was sent during the run, in the order they
    were sent; they are at most ten, and the channel ends empty.  Nothing
    sent is lost, nothing is reported twice. *)
Theorem main_run_reports_sent_errors (chunkDuration : Z) (videoPaths : list string)
    (w w' : World) :
  videoPaths <> [] ->
  (length (errorChannel w) <= errorChannel_cap)%nat ->
  main_run env cfg chunkDuration videoPaths w = (Completed, w') ->
  exists errors before,
    trace w' = rev (map goroutine_log errors) ++ before /\
    errors = errorChannel w ++ omap sent_error (rev (since w w')) /\
    (length errors <= errorChannel_cap)%nat /\
    errorChannel w' = [].
Proof.
  intros Hne Hcap. unfold main_run.
  destruct videoPaths as [|p rest]; [contradiction|].
  pose proof (video_loop_chan chunkDuration (p :: rest) 0 w w (chan_refl w)) as H.
  destruct (video_loop env cfg chunkDuration 0 (p :: rest) w) as [r w1].
  simpl in H. destruct H as (new & Ht & Hc & Hl).
  destruct r; try discriminate. intros [= <-].
  destruct (drain_errors_logs w1) as [Hd1 Hd2].
  exists (errorChannel w1), (trace w1).
  split; [exact Hd2|]. split; [|split; [auto | exact Hd1]].
  rewrite (since_app w (drain_errors w1)
             (rev (map goroutine_log (errorChannel w1)) ++ new))
    by (rewrite Hd2, Ht; now rewrite app_assoc).
  rewrite rev_app_distr, rev_involutive, omap_app.
  rewrite logs_send_nothing, app_nil_r. exact Hc.
Qed.

End RunExtra.

Lemma main_run_reports_sent_errors_witness :
  let w' := (main_run failing_whisper_env plain_cfg 300 ["lecture.mp4"] empty_world).2 in
  exists errors before,
    trace w' = rev (map goroutine_log errors) ++ before /\
    errors = errorChannel empty_world
             ++ omap sent_error (rev (since empty_world w')) /\
    (length errors <= errorChannel_cap)%nat /\
    errorChannel w' = [].
Proof.
  apply (main_run_reports_sent_errors failing_whisper_env plain_cfg 300
           ["lecture.mp4"] empty_world).
  - discriminate.
  - simpl. unfold errorChannel_cap. lia.
  - apply run_result_eta. vm_compute. reflexivity.
Defined.
